(** * address_hammer: the combinator engine and the address grammar

    A shallow embedding of [__zipper__.py] (the positional token view
    [GenericInput] and the combinator engine [Zipper]) and of
    [__parsing__.py] (grammar atoms, [Parser], [smart_batch]), followed by
    the properties of the specification that are settled on it.

    Python values are modelled as follows.
    - [int] is [Z]; [len] is [Z.of_nat (length _)].
    - [str] is [string]; a list is a [list]; a [dict] keyed by strings is a
      [gmap string _]; a [set] of strings is a [gset string].
    - An exception is a value of [exn]; a computation that may raise
      returns a [result].
    - A generator object has an identity and is consumed at most once: the
      heap records, per generator, whether it is exhausted, and every
      operation that creates or consumes a generator threads the heap. *)

From Stdlib Require Import Ascii String.
From stdpp Require Import base numbers strings list gmap.

Open Scope Z_scope.

(** ** Exceptions *)

(** The exception objects of the two modules, with the attributes the code
    reads ([orig], [reason], [msg]). *)
Inductive exn : Type :=
  | EndOfInputError (orig : string)
  | Uncatchable
  | ParseError (orig reason : string)
  | EndOfAddressError (orig reason : string)
  | ParserConfigError (msg : string)
  | AssertionError
  | IndexError
  | KeyError (key : string).

(** The exception classes that appear in [except] clauses. *)
Inductive ex_type : Type :=
  | EndOfInputError_t
  | Uncatchable_t
  | ParseError_t
  | EndOfAddressError_t
  | ParserConfigError_t.

(** [isinstance e t]: [EndOfAddressError] derives from [ParseError], every
    other class derives directly from [Exception]. *)
Definition isinstance (e : exn) (t : ex_type) : bool :=
  match t, e with
  | EndOfInputError_t, EndOfInputError _ => true
  | Uncatchable_t, Uncatchable => true
  | ParseError_t, ParseError _ _ => true
  | ParseError_t, EndOfAddressError _ _ => true
  | EndOfAddressError_t, EndOfAddressError _ _ => true
  | ParserConfigError_t, ParserConfigError _ => true
  | _, _ => false
  end.

Arguments isinstance : simpl never.

(** [except tuple(ex_types)] catches [e]. *)
Definition caught (ex_types : list ex_type) (e : exn) : bool :=
  existsb (isinstance e) ex_types.

(** [EndOfAddressError.__init__]: the reason is suffixed. *)
Definition new_EndOfAddressError (orig reason : string) : exn :=
  EndOfAddressError orig (reason +:+ ": end of input").

(** The reason attribute of a [ParseError] (or subclass) instance. *)
Definition reason_of (e : exn) : string :=
  match e with
  | ParseError _ r | EndOfAddressError _ r => r
  | _ => ""
  end.

Inductive result (A : Type) : Type :=
  | Ok (a : A)
  | Raise (e : exn).
Arguments Ok {A} a.
Arguments Raise {A} e.

Definition rbind {A B} (r : result A) (k : A → result B) : result B :=
  match r with
  | Ok a => k a
  | Raise e => Raise e
  end.

Declare Scope result_scope.
Delimit Scope result_scope with res.
Notation "'let?' x := r 'in' k" := (rbind r (fun x => k))
  (at level 10, x pattern, r at level 100, k at level 200) : result_scope.

(** ** Python sequence primitives *)

Definition len {A} (l : list A) : Z := Z.of_nat (length l).

Section PySeq.
Context {A : Type}.

(** [l[i]]: negative indices count from the end, out of range raises. *)
Definition py_index (l : list A) (i : Z) : result A :=
  let j := if i <? 0 then i + len l else i in
  if (j <? 0) || (len l <=? j) then Raise IndexError
  else match l !! Z.to_nat j with
       | Some x => Ok x
       | None => Raise IndexError
       end.

(** A slice bound, as [slice.indices] clamps it. *)
Definition py_clamp (l : list A) (i : Z) : Z :=
  if i <? 0 then Z.max (i + len l) 0 else Z.min i (len l).

(** [l[a:b]]. *)
Definition py_slice (l : list A) (a b : Z) : list A :=
  let a' := py_clamp l a in
  let b' := py_clamp l b in
  take (Z.to_nat (b' - a')) (drop (Z.to_nat a') l).
End PySeq.

(** ** The positional token view: [GenericInput] *)

Record GenericInput (T : Type) : Type := mkInput {
  data : list T;
  state : Z
}.
Arguments mkInput {T} data state.
Arguments data {T} _.
Arguments state {T} _.

Section GenericInput.
Context {T : Type}.
Implicit Type c : GenericInput T.

(** [GenericInput(data)] with the default [state = 0]. *)
Definition input (d : list T) : GenericInput T := mkInput d 0.

Definition item c : result T :=
  if len (data c) <? state c + 1 then Raise (EndOfInputError "")
  else py_index (data c) (state c).

Definition advance c (step : Z) : result (GenericInput T) :=
  let new_state := state c + step in
  if len (data c) <? new_state then Raise (EndOfInputError "")
  else Ok (mkInput (data c) new_state).

Definition rest c : GenericInput T := mkInput (data c) (state c + 1).

Definition view c : result (T * GenericInput T) :=
  (let? i := item c in Ok (i, rest c))%res.

Definition empty c : bool := len (data c) <? state c + 1.

(** [InputIter.__next__]: [None] stands for [StopIteration]; the iterator
    then holds [rest]. *)
Definition InputIter_next c : result (option (T * GenericInput T)) :=
  match item c with
  | Ok i => Ok (Some (i, rest c))
  | Raise (EndOfInputError _) => Ok None
  | Raise e => Raise e
  end.
End GenericInput.

(** ** Result sequences and the generator heap *)

(** [Zipper.results] is an [Iter[O]]: either a list, which can be iterated
    any number of times, or the generator object created by one call of
    [merge], which yields from the two [results] it closes over.  [gen_id]
    is the identity of the generator object. *)
Inductive Iter (O : Type) : Type :=
  | RList (l : list O)
  | RGen (gen_id : nat) (first second : Iter O).
Arguments RList {O} l.
Arguments RGen {O} gen_id first second.

(** The heap: one flag per generator object, in allocation order; [true]
    once the generator is exhausted. *)
Abbreviation heap := (list bool).

Definition spent (h : heap) (g : nat) : bool := default false (h !! g).
Definition exhaust (g : nat) (h : heap) : heap := <[g := true]> h.

(** A computation that may allocate or consume generators and may raise. *)
Definition M (A : Type) : Type := heap → result A * heap.

Definition ret {A} (a : A) : M A := fun h => (Ok a, h).
Definition raise {A} (e : exn) : M A := fun h => (Raise e, h).
Definition lift {A} (r : result A) : M A := fun h => (r, h).
Definition bind {A B} (m : M A) (k : A → M B) : M B :=
  fun h => match m h with
           | (Ok a, h') => k a h'
           | (Raise e, h') => (Raise e, h')
           end.

Declare Scope M_scope.
Delimit Scope M_scope with M.
Notation "'let*' x := m 'in' k" := (bind m (fun x => k))
  (at level 10, x pattern, m at level 100, k at level 200) : M_scope.

(** [try: m except tuple(ex_types): handler]. *)
Definition try_except {A} (m : M A) (ex_types : list ex_type) (handler : M A) : M A :=
  fun h => match m h with
           | (Raise e, h') => if caught ex_types e then handler h' else (Raise e, h')
           | r => r
           end.

Section Iter.
Context {O : Type}.

(** [list(r)]: drains [r].  A list is copied; a generator that is already
    exhausted yields nothing; otherwise it yields from its first source,
    then from its second, and is exhausted afterwards. *)
Fixpoint list_ (r : Iter O) (h : heap) : list O * heap :=
  match r with
  | RList l => (l, h)
  | RGen g a b =>
      if spent h g then ([], h)
      else let '(xs, h1) := list_ a h in
           let '(ys, h2) := list_ b h1 in
           (xs ++ ys, exhaust g h2)
  end.

Definition to_list (r : Iter O) : M (list O) :=
  fun h => let '(l, h') := list_ r h in (Ok l, h').
End Iter.

(** ** The combinator engine: [Zipper] *)

Record Zipper (I O : Type) : Type := mkZipper {
  leftover : GenericInput I;
  results : Iter O
}.
Arguments mkZipper {I O} leftover results.
Arguments leftover {I O} _.
Arguments results {I O} _.

Section Zipper.
Context {I O : Type}.
Implicit Type self other : Zipper I O.

(** [Zipper(leftover)] with the default [results = []]. *)
Definition new_Zipper (l : GenericInput I) : Zipper I O := mkZipper l (RList []).

(** [merge]: a new generator object is allocated; nothing is consumed. *)
Definition merge self other : M (Zipper I O) :=
  fun h => (Ok (mkZipper (leftover other)
                         (RGen (length h) (results self) (results other))),
            h ++ [false]).

Definition realize self : M (Zipper I O) :=
  (let* l := to_list (results self) in
   ret (mkZipper (leftover self) (RList l)))%M.

Definition chomp_n self (n : Z) (list_func : list I → result (list O))
    (ex_types : list ex_type) : M (Zipper I O) :=
  try_except
    (let state := state (leftover self) in
     let args := py_slice (data (leftover self)) state (state + n) in
     let* results := lift (list_func args) in
     let* leftover := lift (advance (leftover self) n) in
     merge self (mkZipper leftover (RList results)))%M
    ex_types
    (ret self).

Definition successful self : M bool :=
  (let* z := realize self in
   let* l := to_list (results z) in
   ret (0 <? len l))%M.

Fixpoint or_ self (funcs : list (I → result (list O)))
    (ex_types : list ex_type) : M (Zipper I O) :=
  match funcs with
  | [] => ret self
  | func :: funcs' =>
      fun h =>
        match (let? item := item (leftover self) in
               let? results := func item in
               if 0 <? len results
               then let? l := advance (leftover self) 1 in Ok (Some (l, results))
               else Ok None)%res with
        | Ok (Some (l, results)) => merge self (mkZipper l (RList results)) h
        | Ok None => or_ self funcs' ex_types h
        | Raise e => if caught ex_types e then or_ self funcs' ex_types h
                     else (Raise e, h)
        end
  end.

(** One turn of the [for] loop of [takewhile] on item [i], with the
    counters [n] and [results]; [None] is [break]. *)
Definition takewhile_body (pred_arrow : I → result (list O))
    (ex_types : list ex_type) (i : I) (acc : Z * list O)
    : result (option (Z * list O)) :=
  match pred_arrow i with
  | Ok new_results =>
      if len new_results =? 0 then Ok None
      else Ok (Some (fst acc + 1, snd acc ++ new_results))
  | Raise e => if caught ex_types e then Ok None else Raise e
  end.

(** The loop over the one-element (or empty) list of the [single] case. *)
Fixpoint takewhile_list pred_arrow ex_types (items : list I) (acc : Z * list O)
    : result (Z * list O) :=
  match items with
  | [] => Ok acc
  | i :: items' =>
      match takewhile_body pred_arrow ex_types i acc with
      | Ok (Some acc') => takewhile_list pred_arrow ex_types items' acc'
      | Ok None => Ok acc
      | Raise e => Raise e
      end
  end.

(** The loop over [InputIter(self.leftover)].  [fuel] bounds the number of
    turns; [takewhile] passes the number of tokens left, which the loop
    cannot exceed (see [takewhile_input_fuel]). *)
Fixpoint takewhile_input (fuel : nat) pred_arrow ex_types
    (it : GenericInput I) (acc : Z * list O) : result (Z * list O) :=
  match InputIter_next it with
  | Raise e => Raise e
  | Ok None => Ok acc
  | Ok (Some (i, it')) =>
      match fuel with
      | 0%nat => Ok acc
      | S fuel' =>
          match takewhile_body pred_arrow ex_types i acc with
          | Ok (Some acc') => takewhile_input fuel' pred_arrow ex_types it' acc'
          | Ok None => Ok acc
          | Raise e => Raise e
          end
      end
  end.

(** The number of turns [InputIter] can make from a cursor. *)
Definition turns (c : GenericInput I) : nat :=
  Z.to_nat (len (data c) - state c).

Definition takewhile self (pred_arrow : I → result (list O)) (single : bool)
    (ex_types : list ex_type) : M (Zipper I O) :=
  (let* nr := lift
     (if single then
        match item (leftover self) with
        | Ok i => takewhile_list pred_arrow ex_types [i] (0, [])
        | Raise e =>
            if caught ex_types e
            then takewhile_list pred_arrow ex_types [] (0, [])
            else Raise e
        end
      else takewhile_input (turns (leftover self)) pred_arrow ex_types
             (leftover self) (0, [])) in
   let* new_input := lift (advance (leftover self) (fst nr)) in
   merge self (mkZipper new_input (RList (snd nr))))%M.

Definition consume_with self (func : I → result (list O))
    (ex_types : list ex_type) : M (Zipper I O) :=
  takewhile self func true ex_types.
End Zipper.

(** The default [ex_types=[Uncatchable]]. *)
Definition default_ex_types : list ex_type := [Uncatchable_t].

(** ** Python string primitives (ASCII) *)

(** [c.isspace()] on ASCII: space, tab to carriage return, and the four
    separators FS, GS, RS, US. *)
Definition is_space (c : ascii) : bool :=
  let n := nat_of_ascii c in
  ((n =? 32) || ((9 <=? n) && (n <=? 13)) || ((28 <=? n) && (n <=? 31)))%nat.

(** [c.upper()]. *)
Definition upper_ascii (c : ascii) : ascii :=
  let n := nat_of_ascii c in
  if ((97 <=? n) && (n <=? 122))%nat then ascii_of_nat (n - 32) else c.

(** [s.upper()]. *)
Fixpoint str_upper (s : string) : string :=
  match s with
  | EmptyString => EmptyString
  | String c s' => String (upper_ascii c) (str_upper s')
  end.

(** [s.replace(old, new)] for a non-empty [old]: occurrences are replaced
    from the left and do not overlap.  [skip] counts the characters of the
    occurrence just replaced that are still to be dropped. *)
Fixpoint str_replace_from (skip : nat) (old new s : string) : string :=
  match s with
  | EmptyString => EmptyString
  | String c s' =>
      match skip with
      | S k => str_replace_from k old new s'
      | 0%nat =>
          if String.prefix old s
          then new +:+ str_replace_from (String.length old - 1) old new s'
          else String c (str_replace_from 0 old new s')
      end
  end.

Definition str_replace (old new s : string) : string := str_replace_from 0 old new s.

(** [s.split()]: the maximal runs of non-whitespace characters.  [cur] is
    the run being read. *)
Fixpoint str_split_from (cur : string) (s : string) : list string :=
  match s with
  | EmptyString => if String.eqb cur "" then [] else [cur]
  | String c s' =>
      if is_space c
      then (if String.eqb cur "" then str_split_from "" s' else cur :: str_split_from "" s')
      else str_split_from (cur +:+ String c "") s'
  end.

Definition str_split (s : string) : list string := str_split_from "" s.

(** [sep.join(l)]. *)
Fixpoint str_join (sep : string) (l : list string) : string :=
  match l with
  | [] => ""
  | [x] => x
  | x :: l' => x +:+ sep +:+ str_join sep l'
  end.

Fixpoint str_lstrip (s : string) : string :=
  match s with
  | String c s' => if is_space c then str_lstrip s' else s
  | EmptyString => EmptyString
  end.

(** [s.strip()]. *)
Definition str_strip (s : string) : string :=
  String.rev (str_lstrip (String.rev (str_lstrip s))).

(** Truth value of an [Opt[str]]: [None] and the empty string are false. *)
Definition truthy (m : option string) : bool :=
  match m with
  | Some s => negb (String.eqb s "")
  | None => false
  end.

(** ** Collaborators outside the two modules *)

(** A compiled pattern: [re.compile(src)] for a pattern written in the
    module, [re.compile(regex.or_(alts))] for an alternation built by the
    [__regex__] module. *)
Inductive Pattern : Type :=
  | re_compile (src : string)
  | re_compile_or_ (alts : list string).

(** What [__parsing__.py] imports and does not define: the word lists read
    by [__open__], the helpers of [__regex__], [re.sub], and the
    [__address__] module.  [RawAddress] is the value [Address.from_dict]
    builds; [required] and [optional] are [Parser.required] and
    [Parser.optional] in the order in which the two sets are iterated. *)
Class Collaborators : Type := {
  st_suffices : list string;
  us_states : list string;
  unit_types : list string;
  regex_match : string → Pattern → option string;
  regex_remove_punc : string → string;
  regex_normalize_whitespace : string → string;
  re_sub : Pattern → (string → string) → string → string;
  RawAddress : Type;
  RawAddress_city : RawAddress → string;
  Address_from_dict : gmap string (option string) → result RawAddress;
  required : list string;
  optional : list string
}.

(** ** Grammar atoms *)

(** The source text of the unit-identifier pattern; its closing parenthesis
    is appended to the rest. *)
Definition unit_identifier_src : string :=
  "\#?\s*(\d+[A-Z]?|[A-Z]\d*" +:+ ")".

Record ParseStep : Type := mkParseStep {
  label : string;
  value : string
}.

Definition ArrowParse : Type := string → result (list ParseStep).

#[warnings="-register-all"]
Inductive AddressComponent : Type := mkAddressComponent {
  compiled_pattern : Pattern;
  ac_label : string;
  cont : option AddressComponent;
  ac_optional : bool;
  stops_on : string → bool
}.

Section Grammar.
Context `{Collaborators}.

Fixpoint __make_stops_on__ (stop_patterns : list Pattern) (s : string) : bool :=
  match stop_patterns with
  | [] => false
  | pat :: stop_patterns' =>
      if truthy (regex_match s pat) then true
      else __make_stops_on__ stop_patterns' s
  end.

(** [AddressComponent(label=.., compiled_pattern=..)] with the defaults
    [cont=None], [optional=False], [stops_on=lambda s: False]. *)
Definition new_AddressComponent (l : string) (pat : Pattern) : AddressComponent :=
  mkAddressComponent pat l None false (fun _ => false).

Definition with_stops_on (a : AddressComponent) (f : string → bool) : AddressComponent :=
  mkAddressComponent (compiled_pattern a) (ac_label a) (cont a) (ac_optional a) f.

Definition arrow_parse (self : AddressComponent) : ArrowParse :=
  fun s =>
    if stops_on self s then Ok []
    else match regex_match s (compiled_pattern self) with
         | None =>
             if ac_optional self then Ok []
             else Raise (ParseError s (ac_label self))
         | Some m => Ok [mkParseStep (ac_label self) m]
         end.

Definition then_ (self cont : AddressComponent) : AddressComponent :=
  mkAddressComponent (compiled_pattern self) (ac_label self) (Some cont)
                     (ac_optional self) (stops_on self).

Definition st_suffix_R : Pattern := re_compile_or_ st_suffices.
Definition st_NESWs : list string := ["NE"; "NW"; "SE"; "SW"; "N"; "S"; "E"; "W"].
Definition st_NESW_R : Pattern := re_compile_or_ st_NESWs.
Definition us_state_R : Pattern := re_compile_or_ us_states.
Definition unit_R : Pattern := re_compile_or_ unit_types.
Definition unit_identifier_R : Pattern := re_compile unit_identifier_src.
Definition zip_code_R : Pattern := re_compile "\d{5}".

Definition _HOUSE_NUMBER : ArrowParse :=
  arrow_parse (new_AddressComponent "house_number" (re_compile "[\d/]+")).

Definition __make_st_name__ (known_cities : list Pattern) : ArrowParse :=
  arrow_parse
    (with_stops_on (new_AddressComponent "st_name" (re_compile "\w+"))
       (__make_stops_on__ ([st_suffix_R; st_NESW_R; unit_R] ++ known_cities))).

Definition __chomp_unit__ (words : list string) : result (list ParseStep) :=
  if negb (len words =? 2) then Raise AssertionError
  else
    (let? w0 := py_index words 0 in
     let unit := if String.eqb w0 "#" then Some "APT"%string
                 else regex_match w0 unit_R in
     let? w1 := py_index words 1 in
     let identifier := regex_match w1 unit_identifier_R in
     match unit, identifier with
     | Some u, Some i => Ok [mkParseStep "unit" (u +:+ " " +:+ i)]
     | _, _ => Ok []
     end)%res.

Definition _ST_NESW : ArrowParse :=
  arrow_parse (new_AddressComponent "st_NESW" st_NESW_R).
Definition _ST_SUFFIX : ArrowParse :=
  arrow_parse (new_AddressComponent "st_suffix" st_suffix_R).
Definition _US_STATE : ArrowParse :=
  arrow_parse (new_AddressComponent "us_state" us_state_R).
Definition _ZIP_CODE : ArrowParse :=
  arrow_parse (new_AddressComponent "zip_code" zip_code_R).

Definition str_to_opt (s : option string) : option string :=
  match s with
  | None => None
  | Some s' => if len (str_split s') =? 0 then None else Some s'
  end.

(** [city_repl], applied to [s.group(0)]. *)
Definition city_repl (group0 : string) : string :=
  " " +:+ str_replace " " "_" (str_strip group0) +:+ " ".
End Grammar.

(** ** [Apply]: operators as pipeline steps *)

(** [Apply] and its [reduce] are imported from [__zipper__] by
    [__parsing__.py] but are not among the source files.  The spec describes
    each pipeline step as an operator [EngineState → EngineState] and
    [reduce] as the sequential left-to-right application of a list of
    operators to one initial engine state. *)
Module Apply.
Section Apply.
Context {I O : Type}.

(** Modelled from the spec: a pipeline step, an operator from engine state
    to engine state ([Apply] is missing from the sources). *)
Definition step : Type := Zipper I O → M (Zipper I O).

(** Modelled from the spec: [Apply.consume_with(func, ex_types=..)], the
    step that calls [consume_with] on the state it receives. *)
Definition consume_with (func : I → result (list O)) (ex_types : list ex_type) : step :=
  fun z => consume_with z func ex_types.

(** Modelled from the spec: [Apply.takewhile(pred_arrow, single,
    ex_types=..)], the step that calls [takewhile]. *)
Definition takewhile (pred_arrow : I → result (list O)) (single : bool)
    (ex_types : list ex_type) : step :=
  fun z => takewhile z pred_arrow single ex_types.

(** Modelled from the spec: [Apply.chomp_n(n, list_func, ex_types=..)], the
    step that calls [chomp_n]. *)
Definition chomp_n (n : Z) (list_func : list I → result (list O))
    (ex_types : list ex_type) : step :=
  fun z => chomp_n z n list_func ex_types.

(** [lambda z: z]. *)
Definition identity : step := fun z => ret z.

(** Modelled from the spec: [Apply.reduce(funcs)], the left-to-right
    composition of the steps; an exception raised by a step ends the
    pipeline. *)
Fixpoint reduce (funcs : list step) : step :=
  fun z =>
    match funcs with
    | [] => ret z
    | f :: funcs' => (let* z' := f z in reduce funcs' z')%M
    end.
End Apply.
End Apply.

(** ** [Parser] *)

(** The instance attributes set by [Parser.__init__]; [city] and [st_name]
    are the two closures of [__fns__]. *)
#[warnings="-register-all"]
Inductive Parser : Type := mkParser {
  blank_parse : option Parser;
  known_cities : list string;
  known_cities_R : Pattern;
  city : ArrowParse;
  st_name : ArrowParse
}.

Section Parser.
Context `{Collaborators}.

(** [__tokenize__].  [R] is [self.known_cities_R] at the time of the call:
    [None] (the class attribute) while [__init__] normalises the city
    names, the compiled alternation afterwards. *)
Definition __tokenize__ (R : option Pattern) (s : string) : string :=
  let s := str_replace "," " " s in
  let s := regex_normalize_whitespace (str_upper (regex_remove_punc s)) in
  let s := str_replace "#" "APT " s in
  let s := str_replace "APT APT" "APT" s in
  match R with
  | Some pat => re_sub pat city_repl s
  | None => s
  end.

(** The body of [__init__] once [blank_parse] is decided.  A compiled
    pattern object is always true, so the street-name atom always gets the
    known-city alternation among its stop patterns. *)
Definition Parser_new (blank : option Parser) (known_cities : list string) : Parser :=
  let normalized_cities := map (__tokenize__ None) known_cities in
  let normalized_cities_B := map (str_replace " " "[\s_]") normalized_cities in
  let R := re_compile_or_ normalized_cities_B in
  let city_A :=
    arrow_parse
      (with_stops_on
         (new_AddressComponent "city" (re_compile_or_ (normalized_cities_B ++ ["\w+"%string])))
         (__make_stops_on__ [us_state_R; re_compile "\d+"])) in
  let st_name := __make_st_name__ [R] in
  mkParser blank known_cities R
    (fun s => (let? prs := city_A s in
               Ok (map (fun pr => mkParseStep (label pr) (str_replace "_" " " (value pr))) prs))%res)
    st_name.

(** [Parser(known_cities=..)]. *)
Definition Parser_init (known_cities : list string) : Parser :=
  let known_cities := filter (fun c => c ≠ ""%string) known_cities in
  match known_cities with
  | [] => Parser_new None known_cities
  | _ => Parser_new (Some (Parser_new None [])) known_cities
  end.

(** [Parser.__ex_types__]. *)
Definition __ex_types__ : list ex_type := [ParseError_t].

Definition __hn_nesw__ (self : Parser) : list (@Apply.step string ParseStep) :=
  [ Apply.consume_with _HOUSE_NUMBER __ex_types__;
    Apply.consume_with _ST_NESW __ex_types__;
    Apply.takewhile (st_name self) false __ex_types__;
    Apply.takewhile _ST_SUFFIX false __ex_types__;
    Apply.consume_with _ST_NESW __ex_types__ ].

(** The dictionary [d] of [__collect_results__] before the loop. *)
Definition empty_buckets : gmap string (list string) :=
  list_to_map
    [ ("house_number"%string, []); ("st_name"%string, []);
      ("st_suffix"%string, []); ("st_NESW"%string, []);
      ("unit"%string, []); ("city"%string, []);
      ("us_state"%string, []); ("zip_code"%string, []) ].

(** [for p_r in results: if p_r.label != "junk": d[p_r.label] += [p_r.value]]. *)
Fixpoint fill_buckets (d : gmap string (list string)) (results : list ParseStep)
    : result (gmap string (list string)) :=
  match results with
  | [] => Ok d
  | p_r :: results' =>
      if String.eqb (label p_r) "junk" then fill_buckets d results'
      else match d !! label p_r with
           | Some vs => fill_buckets (<[label p_r := vs ++ [value p_r]]> d) results'
           | None => Raise (KeyError (label p_r))
           end
  end.

(** [for req in self.required: if not d[req]: raise ParseError(..)]. *)
Fixpoint check_required (_s : string) (d : gmap string (list string))
    (reqs : list string) : result unit :=
  match reqs with
  | [] => Ok tt
  | req :: reqs' =>
      match d !! req with
      | None => Raise (KeyError req)
      | Some [] => Raise (ParseError _s ("Could not identify " +:+ req))
      | Some _ => check_required _s d reqs'
      end
  end.

(** [for opt in Parser.optional: str_d[opt] = str_to_opt(str_d[opt])]. *)
Fixpoint collapse_optional (str_d : gmap string (option string))
    (opts : list string) : result (gmap string (option string)) :=
  match opts with
  | [] => Ok str_d
  | opt :: opts' =>
      match str_d !! opt with
      | None => Raise (KeyError opt)
      | Some v => collapse_optional (<[opt := str_to_opt v]> str_d) opts'
      end
  end.

(** The end of [__collect_results__], from the clean-up of the unit values
    to [Address.from_dict]. *)
Definition build_address (_s : string) (d : gmap string (list string))
    : result RawAddress :=
  (let d := <["unit"%string := map (str_replace "#" "") (default [] (d !! "unit"%string))]> d in
   let str_d : gmap string (option string) := (fun values => Some (str_join " " values)) <$> d in
   let? str_d := collapse_optional str_d optional in
   let str_d := <["is_raw"%string := Some "true"%string]> str_d in
   let str_d := <["orig"%string := Some _s]> str_d in
   Address_from_dict str_d)%res.

(** [__collect_results__], on the steps that iterating [results] yields. *)
Definition __collect_results__ (_s : string) (results : list ParseStep)
    (checked : bool) : result RawAddress :=
  (let? d := fill_buckets empty_buckets results in
   let? _ := if checked then check_required _s d required else Ok tt in
   build_address _s d)%res.

(** The list [funcs] of [__call__] for the normalised string [s]. *)
Definition pipeline (self : Parser) (s : string) : list (@Apply.step string ParseStep) :=
  let unit :=
    if truthy (regex_match s unit_R)
    then Apply.chomp_n 2 __chomp_unit__ __ex_types__
    else Apply.identity in
  let data := str_split s in
  let zip_code :=
    match last data with
    | Some w =>
        if truthy (regex_match w zip_code_R)
        then Apply.consume_with _ZIP_CODE __ex_types__
        else Apply.identity
    | None => Apply.identity
    end in
  __hn_nesw__ self ++
  [ unit;
    Apply.takewhile (city self) false default_ex_types;
    Apply.consume_with _US_STATE default_ex_types;
    zip_code ].

(** [__call__] after the attempt with [blank_parse]: the pipeline runs on a
    fresh engine state, its results are iterated by [__collect_results__]. *)
Definition parse_with (self : Parser) (_s : string) (checked : bool) : result RawAddress :=
  let s := __tokenize__ (Some (known_cities_R self)) _s in
  let data := str_split s in
  match Apply.reduce (pipeline self s) (new_Zipper (input data)) [] with
  | (Raise e, _) =>
      if isinstance e EndOfInputError_t then Raise (new_EndOfAddressError _s "unknown")
      else if isinstance e ParseError_t then Raise (ParseError _s (reason_of e))
      else Raise e
  | (Ok z, h) => __collect_results__ _s (fst (list_ (results z) h)) checked
  end.

(** [Parser.__call__]; the bare [except] around the blank attempt discards
    every exception. *)
Fixpoint Parser_call (self : Parser) (_s : string) (checked : bool) : result RawAddress :=
  match blank_parse self with
  | Some blank =>
      match Parser_call blank _s checked with
      | Ok a => Ok a
      | Raise _ => parse_with self _s checked
      end
  | None => parse_with self _s checked
  end.

(** ** [smart_batch] *)

(** What a caller that iterates the generator to its end observes: the
    values yielded, the calls made to [report_error], and the exception
    that ended the iteration, if any. *)
Record batch : Type := mkBatch {
  yielded : list RawAddress;
  reported : list (exn * string);
  raised : option exn
}.

(** The first loop: [errs] and [cities] are the two accumulators. *)
Fixpoint pass1 (p : Parser) (adds : list string) (errs : list string)
    (cities : gset string)
    : list RawAddress * result (list string * gset string) :=
  match adds with
  | [] => ([], Ok (errs, cities))
  | add :: adds' =>
      match Parser_call p add true with
      | Ok a =>
          let '(ys, r) := pass1 p adds' errs ({[RawAddress_city a]} ∪ cities) in
          (a :: ys, r)
      | Raise e =>
          if isinstance e EndOfInputError_t then pass1 p adds' (errs ++ [add]) cities
          else if isinstance e ParseError_t then pass1 p adds' (errs ++ [add]) cities
          else ([], Raise e)
      end
  end.

(** The second loop, over [errs]. *)
Fixpoint pass2 (p : Parser) (report_error : exn → string → result unit)
    (errs : list string) : batch :=
  match errs with
  | [] => mkBatch [] [] None
  | add :: errs' =>
      match Parser_call p add true with
      | Ok a =>
          let b := pass2 p report_error errs' in
          mkBatch (a :: yielded b) (reported b) (raised b)
      | Raise e =>
          if isinstance e ParseError_t then
            match report_error e add with
            | Ok _ =>
                let b := pass2 p report_error errs' in
                mkBatch (yielded b) ((e, add) :: reported b) (raised b)
            | Raise e' => mkBatch [] [(e, add)] (Some e')
            end
          else mkBatch [] [] (Some e)
      end
  end.

Definition smart_batch (p : Parser) (adds : list string)
    (report_error : exn → string → result unit) : batch :=
  match pass1 p adds [] ∅ with
  | (ys, Raise e) => mkBatch ys [] (Some e)
  | (ys, Ok (errs, cities)) =>
      let p := Parser_init (known_cities p ++ elements cities) in
      let b := pass2 p report_error errs in
      mkBatch (ys ++ yielded b) (reported b) (raised b)
  end.
End Parser.

(** ** A model of the collaborators *)

(** The word-list files, the [__regex__] helpers and the [__address__]
    module are not among the source files.  This module gives one value of
    [Collaborators] that follows what the spec says of them; the closed
    examples below are evaluated with it. *)
Module SpecModel.

(** Modelled from the spec: the file [st_suffices.txt] is missing; the spec
    describes a flat list of uppercase street suffixes.  A few entries. *)
Definition suffix_words : list string :=
  ["ST"; "AVE"; "RD"; "BLVD"; "DR"; "LN"; "CT"; "WAY"]%string.

(** Modelled from the spec: the file [us_states.txt] is missing; a flat list
    of uppercase state names.  A few entries. *)
Definition state_words : list string :=
  ["TX"; "OH"; "MI"; "NY"; "CA"]%string.

(** Modelled from the spec: the file [unit_types.txt] is missing; a flat
    list of uppercase unit-type names.  A few entries. *)
Definition unit_words : list string :=
  ["APT"; "STE"; "TRLR"; "UNIT"]%string.

Definition is_digit (c : ascii) : bool :=
  let n := nat_of_ascii c in ((48 <=? n) && (n <=? 57))%nat.
Definition is_upper (c : ascii) : bool :=
  let n := nat_of_ascii c in ((65 <=? n) && (n <=? 90))%nat.
Definition is_lower (c : ascii) : bool :=
  let n := nat_of_ascii c in ((97 <=? n) && (n <=? 122))%nat.
Definition is_word (c : ascii) : bool :=
  is_digit c || is_upper c || is_lower c || Ascii.eqb c "_".

Fixpoint all_chars (p : ascii → bool) (s : string) : bool :=
  match s with
  | EmptyString => true
  | String c s' => p c && all_chars p s'
  end.

(** One or more characters of a class, and nothing else. *)
Definition some_chars (p : ascii → bool) (s : string) : bool :=
  negb (String.eqb s "") && all_chars p s.

(** A token against one alternative of an alternation: the alternative
    [\w+], or a literal in which [[\s_]] stands for one whitespace
    character or underscore. *)
Fixpoint literal_match (fuel : nat) (alt s : string) : bool :=
  match fuel with
  | 0%nat => false
  | S fuel' =>
      if String.prefix "[\s_]" alt then
        match s with
        | String c s' =>
            (is_space c || Ascii.eqb c "_")
            && literal_match fuel' (String.substring 5 (String.length alt - 5) alt) s'
        | EmptyString => false
        end
      else
        match alt, s with
        | EmptyString, EmptyString => true
        | String a alt', String c s' => Ascii.eqb a c && literal_match fuel' alt' s'
        | _, _ => false
        end
  end.

Definition alt_match (alt s : string) : bool :=
  if String.eqb alt "\w+" then some_chars is_word s
  else literal_match (S (String.length alt)) alt s.

(** The unit identifier pattern on one token: an optional hash sign, then
    digits with an optional final capital, or a capital followed by
    digits. *)
Definition unit_identifier (s : string) : bool :=
  let s := match s with
           | String c s' => if Ascii.eqb c "#" then s' else s
           | EmptyString => s
           end in
  match s with
  | EmptyString => false
  | String c s' =>
      if is_upper c then all_chars is_digit s'
      else is_digit c
           && (all_chars is_digit s'
               || match String.rev s' with
                  | String z r => is_upper z && all_chars is_digit r
                  | EmptyString => false
                  end)
  end.

Definition token_match (pat : Pattern) (t : string) : bool :=
  match pat with
  | re_compile_or_ alts => existsb (fun alt => alt_match alt t) alts
  | re_compile src =>
      if String.eqb src "[\d/]+" then some_chars (fun c => is_digit c || Ascii.eqb c "/") t
      else if String.eqb src "\w+" then some_chars is_word t
      else if String.eqb src "\d+" then some_chars is_digit t
      else if String.eqb src "\d{5}" then (String.length t =? 5)%nat && all_chars is_digit t
      else if String.eqb src unit_identifier_src then unit_identifier t
      else false
  end.

(** Modelled from the spec: [regex.match(s, pat)] is missing.  A token is
    tested against a pattern as a whole ("does this token fully match any of
    these alternative patterns"), and a unit-type token is detected anywhere
    in the normalised string: the result is the first token of [s] that
    matches [pat]. *)
Definition match_ (s : string) (pat : Pattern) : option string :=
  List.find (token_match pat) (str_split s).

(** Modelled from the spec: [regex.remove_punc] is missing; "punctuation
    stripping".  Letters, digits, whitespace and the characters the grammar
    itself reads ([#], [/], [_]) are kept. *)
Fixpoint remove_punc (s : string) : string :=
  match s with
  | EmptyString => EmptyString
  | String c s' =>
      if is_word c || is_space c || Ascii.eqb c "#" || Ascii.eqb c "/"
      then String c (remove_punc s')
      else remove_punc s'
  end.

(** Modelled from the spec: [regex.normalize_whitespace] is missing;
    "whitespace collapsing". *)
Definition normalize_whitespace (s : string) : string := str_join " " (str_split s).

(** The longest run of at most [n] leading tokens that spells a known
    city. *)
Fixpoint city_run (alts : list string) (ts : list string) (n : nat) : option nat :=
  match n with
  | 0%nat => None
  | S n' =>
      if existsb (fun alt => alt_match alt (str_join " " (take n ts))) alts then Some n
      else city_run alts ts n'
  end.

Fixpoint sub_tokens (alts : list string) (repl : string → string)
    (skip : nat) (ts : list string) : list string :=
  match ts with
  | [] => []
  | t :: ts' =>
      match skip with
      | S k => sub_tokens alts repl k ts'
      | 0%nat =>
          match city_run alts ts (length ts) with
          | Some n => repl (str_join " " (take n ts)) :: sub_tokens alts repl (n - 1) ts'
          | None => t :: sub_tokens alts repl 0 ts'
          end
      end
  end.

(** Modelled from the spec: [re.sub] of the alternation built by the missing
    [regex.or_]; "each occurrence of a known city's name inside free text"
    is replaced.  Token by token: a run of tokens that spells a known city
    is replaced by [repl] of that run; with no known city nothing is
    replaced. *)
Definition sub (pat : Pattern) (repl : string → string) (s : string) : string :=
  match pat with
  | re_compile_or_ [] => s
  | re_compile_or_ alts => str_join " " (sub_tokens alts repl 0 (str_split s))
  | re_compile _ => s
  end.

(** Modelled from the spec: the [__address__] module is missing; the
    address collaborator receives the field mapping and owns its
    validation, house_number, st_name, city and us_state are required,
    st_suffix, st_NESW, unit and zip_code are optional.  Here the address is
    the mapping itself. *)
#[global] Instance collaborators : Collaborators := {|
  st_suffices := suffix_words;
  us_states := state_words;
  unit_types := unit_words;
  regex_match := match_;
  regex_remove_punc := remove_punc;
  regex_normalize_whitespace := normalize_whitespace;
  re_sub := sub;
  RawAddress := gmap string (option string);
  RawAddress_city := fun a => default ""%string (a !! "city"%string ≫= id);
  Address_from_dict := Ok;
  required := ["house_number"; "st_name"; "city"; "us_state"]%string;
  optional := ["st_suffix"; "st_NESW"; "unit"; "zip_code"]%string
|}.
End SpecModel.

(** ** Definitions used to state the properties *)

(** The two rules of the module's own [test()]. *)
Definition fan_odd (n : Z) : result (list Z) :=
  if n mod 2 =? 0 then Ok [] else Ok [n + 0; n + 1; n + 2].
Definition fan_even (n : Z) : result (list Z) :=
  if n mod 2 =? 1 then Ok [] else Ok [n + 0; n + 1; n + 2].
Definition _id (x : list Z) : result (list Z) := Ok x.

(** [Zipper.test]: the list of the results of the state a chain of
    operators returns, started on an empty heap. *)
Definition test_results {I O} (m : M (Zipper I O)) : result (list O) :=
  match m [] with
  | (Ok z, h) => Ok (fst (list_ (results z) h))
  | (Raise e, _) => Raise e
  end.

(** The computation returned. *)
Definition is_Ok {A} (r : result A) : bool :=
  match r with
  | Ok _ => true
  | Raise _ => false
  end.

(** The number of tokens a cursor has not consumed yet. *)
Definition remaining {T} (c : GenericInput T) : Z := len (data c) - state c.

(** [old] occurs in [s]. *)
Fixpoint contains (old s : string) : bool :=
  String.prefix old s
  || match s with
     | String _ s' => contains old s'
     | EmptyString => false
     end.

(** The labels of the grammar atoms, and the two shapes of parse error a
    [Parser] call reports about the grammar: a [ParseError] whose reason is
    the label of the atom that did not match, and a [ParseError] whose
    reason names a required field without a value. *)
Definition grammar_labels : list string :=
  ["house_number"; "st_name"; "st_suffix"; "st_NESW"; "unit"; "city";
   "us_state"; "zip_code"]%string.

(** Modelled from the spec: [address.HARD_COMPONENTS] is missing; the spec
    lists the required fields as house_number, st_name, city, us_state. *)
Definition hard_components : list string :=
  ["house_number"; "st_name"; "city"; "us_state"]%string.

(** The eight address fields of a parse made with the model of the
    collaborators, in the order of [grammar_labels]. *)
Definition fields (r : result (gmap string (option string))) : result (list (option string)) :=
  match r with
  | Ok a => Ok (map (fun f => a !! f ≫= id) grammar_labels)
  | Raise e => Raise e
  end.

Definition GrammarMismatch (e : exn) : Prop :=
  isinstance e ParseError_t = true ∧ reason_of e ∈ grammar_labels.
Definition FieldNotIdentified (e : exn) : Prop :=
  isinstance e ParseError_t = true
  ∧ ∃ f, f ∈ hard_components ∧ reason_of e = ("Could not identify " +:+ f)%string.

Section BatchDefs.
Context `{Collaborators}.

(** A token that no stop pattern of the street-name atom of a parser
    without known cities matches, and that the street-name pattern
    matches. *)
Definition street_word (w : string) : Prop :=
  regex_match w st_suffix_R = None
  ∧ regex_match w st_NESW_R = None
  ∧ regex_match w unit_R = None
  ∧ regex_match w (re_compile_or_ []) = None
  ∧ ∃ m, regex_match w (re_compile "\w+") = Some m.

(** The exceptions the two [except] clauses of the first loop catch. *)
Definition deferred (e : exn) : bool :=
  isinstance e EndOfInputError_t || isinstance e ParseError_t.

(** The results of the inputs that [p] parses, in input order. *)
Fixpoint successes (p : Parser) (adds : list string) : list RawAddress :=
  match adds with
  | [] => []
  | add :: adds' =>
      match Parser_call p add true with
      | Ok a => a :: successes p adds'
      | Raise _ => successes p adds'
      end
  end.

(** No input makes [p] raise an exception that the first loop lets
    through. *)
Definition pass1_completes (p : Parser) (adds : list string) : bool :=
  forallb (fun add => match Parser_call p add true with
                      | Ok _ => true
                      | Raise e => deferred e
                      end) adds.
End BatchDefs.

Section RunDefs.
Context `{Collaborators}.

(** The parsers whose pipelines a call of [p] may run, in the order in
    which they are tried: its blank parser, if it has one, before [p]
    itself. *)
Fixpoint attempts (p : Parser) : list Parser :=
  match blank_parse p with
  | Some blank => attempts blank ++ [p]
  | None => [p]
  end.

(** The attempt of [__call__] with the blank parser, if there is one, has
    raised, so that the call goes on with the pipeline of [p] itself. *)
Definition blank_failed (p : Parser) (_s : string) (checked : bool) : Prop :=
  match blank_parse p with
  | Some blank => is_Ok (Parser_call blank _s checked) = false
  | None => True
  end.

(** The dictionary [d] of [__collect_results__] after its first loop, in
    the run of the pipeline of [p] itself on [_s]: the buckets filled from
    the steps that [z.results] yields.  There is none when the pipeline
    raises or a step has an unknown label. *)
Definition run_buckets (p : Parser) (_s : string) : option (gmap string (list string)) :=
  let s := __tokenize__ (Some (known_cities_R p)) _s in
  match Apply.reduce (pipeline p s) (new_Zipper (input (str_split s))) [] with
  | (Ok z, h) =>
      match fill_buckets empty_buckets (fst (list_ (results z) h)) with
      | Ok d => Some d
      | Raise _ => None
      end
  | (Raise _, _) => None
  end.
End RunDefs.

(** ** The rest of [GenericInput] *)

(** [l[a:]]. *)
Definition py_slice_from {A} (l : list A) (a : Z) : list A :=
  drop (Z.to_nat (py_clamp l a)) l.

Section Printing.
Context {T : Type}.

(** [str] is Python's [str()] on the tokens. *)
Context (str : T → string).
Implicit Type c : GenericInput T.

Definition orig_str c : string := str_join " " (map str (data c)).

Definition as_str c : string :=
  let idx := len (data c) - state c in
  str_join " " (map str (py_slice_from (data c) (- idx))).

Definition rest_as_str c : string :=
  let idx := len (data c) - state c - 1 in
  str_join " " (map str (py_slice_from (data c) (- idx))).
End Printing.

(** [GenericInput.from_str]. *)
Definition from_str (s : string) : GenericInput string := input (str_split (str_upper s)).

(** ** Vocabulary for the properties of the operators *)

(** What iterating the results of [z] yields in heap [h]. *)
Definition yields {I O} (z : Zipper I O) (h : heap) : list O := fst (list_ (results z) h).

(** The rule [f] returns at least one result on [i]. *)
Definition hits {I O} (f : I → list O) (i : I) : bool := negb (len (f i) =? 0).

(** The length of the longest prefix of [l] whose elements satisfy [p]. *)
Fixpoint run_length {I} (p : I → bool) (l : list I) : nat :=
  match l with
  | i :: l' => if p i then S (run_length p l') else 0%nat
  | [] => 0%nat
  end.

(** The tokens a cursor has not consumed yet. *)
Definition tokens_left {T} (c : GenericInput T) : list T :=
  drop (Z.to_nat (state c)) (data c).

(** Every character of [s] satisfies [p]. *)
Fixpoint chars_all (p : ascii → bool) (s : string) : bool :=
  match s with
  | EmptyString => true
  | String c s' => p c && chars_all p s'
  end.

(** A character that is not whitespace and that [upper] leaves alone. *)
Definition upper_token_char (c : ascii) : bool :=
  negb (is_space c) && Ascii.eqb (upper_ascii c) c.

(** A character of the ASCII range.  A string stands for the text of its
    UTF-8 bytes; on ASCII text [str.upper] and [str.split] are the
    byte-wise [str_upper] and [str_split]. *)
Definition is_ascii (c : ascii) : bool := (nat_of_ascii c <? 128)%nat.

(** A token as [from_str] produces them from ASCII text. *)
Definition upper_token (t : string) : Prop :=
  t ≠ ""%string ∧ chars_all is_ascii t = true ∧ chars_all upper_token_char t = true.

(** The relation between the cursor of a state and the cursor of the state
    an operator returns: the same tokens, a position that is not smaller,
    and not past the end unless it was already. *)
Definition moves_forward {I O : Type} (z z' : Zipper I O) : Prop :=
  data (leftover z') = data (leftover z)
  ∧ state (leftover z) <= state (leftover z')
  ∧ state (leftover z') <= Z.max (state (leftover z)) (len (data (leftover z))).

(** A character other than the hash sign. *)
Definition not_hash (c : ascii) : bool := negb (Ascii.eqb c "#").

(** Every result held anywhere in a results sequence satisfies [P]. *)
Fixpoint iter_all {O} (P : O → Prop) (r : Iter O) : Prop :=
  match r with
  | RList l => Forall P l
  | RGen _ a b => iter_all P a ∧ iter_all P b
  end.

(** The outcome of an operator that keeps the invariant: a state at a
    non-negative position whose results all satisfy [P], or one of the
    exceptions [E]. *)
Definition keeps {I O} (P : O → Prop) (E : exn → Prop)
    (out : result (Zipper I O) * heap) : Prop :=
  match fst out with
  | Ok z' => 0 <= state (leftover z') ∧ iter_all P (results z')
  | Raise e => E e
  end.

(** A step of the eight address fields. *)
Definition field_step (p_r : ParseStep) : Prop := label p_r ∈ grammar_labels.

(** The exceptions a run of the address pipeline ends with: the end of the
    input, the length assertion of the unit rule, and the mismatch of the
    two atoms whose [ParseError] no step catches. *)
Definition pipeline_error (e : exn) : Prop :=
  e = EndOfInputError ""
  ∨ e = AssertionError
  ∨ ∃ tok, e = ParseError tok "city" ∨ e = ParseError tok "us_state".

Section CallErrors.
Context `{Collaborators}.

(** The exceptions of a call of a parser on [_s]. *)
Definition call_error (_s : string) (checked : bool) (e : exn) : Prop :=
  e = EndOfAddressError _s "unknown: end of input"
  ∨ e = AssertionError
  ∨ e = ParseError _s "city"
  ∨ e = ParseError _s "us_state"
  ∨ (checked = true
     ∧ ∃ f, f ∈ required ∧ e = ParseError _s ("Could not identify " +:+ f))
  ∨ ∃ str_d, Address_from_dict str_d = Raise e.
End CallErrors.

(** ** Vocabulary for the normalisation *)

(** A character other than the underscore. *)
Definition not_underscore (c : ascii) : bool := negb (Ascii.eqb c "_").

(** [s] starts with a character that is not whitespace. *)
Definition starts_word (s : string) : bool :=
  match s with
  | String c _ => negb (is_space c)
  | EmptyString => false
  end.

(** Every hash sign of [s] is followed by a character that is not
    whitespace: none is followed by whitespace and none ends [s]. *)
Fixpoint hash_attached (s : string) : bool :=
  match s with
  | EmptyString => true
  | String c s' => (negb (Ascii.eqb c "#") || starts_word s') && hash_attached s'
  end.

(** The two [replace] calls of [__tokenize__] on the unit marker. *)
Definition unit_markers (s : string) : string :=
  str_replace "APT APT" "APT" (str_replace "#" "APT " s).

Section NormalDefs.
Context `{Collaborators}.

(** The value of [s] in [__tokenize__] before the hash signs are
    replaced. *)
Definition first_normal (s : string) : string :=
  regex_normalize_whitespace (str_upper (regex_remove_punc (str_replace "," " " s))).
End NormalDefs.

(** [s] without its first [n] characters. *)
Fixpoint str_drop (n : nat) (s : string) : string :=
  match n, s with
  | S n', String _ s' => str_drop n' s'
  | _, _ => s
  end.

(** [x] read after a whitespace character ([prev_space]) or after another
    character has no whitespace but single spaces between two other
    characters, and does not end with one. *)
Fixpoint tidy_from (prev_space : bool) (x : string) : bool :=
  match x with
  | EmptyString => negb prev_space
  | String c x' =>
      if is_space c then negb prev_space && Ascii.eqb c " " && tidy_from true x'
      else tidy_from false x'
  end.

(** The words of [x] are separated by single spaces and nothing else is
    whitespace in [x]. *)
Definition tidy (x : string) : bool :=
  match x with
  | EmptyString => true
  | String _ _ => tidy_from true x
  end.

(** The characters that the model of [regex.remove_punc] keeps. *)
Definition kept_char (c : ascii) : bool :=
  SpecModel.is_word c || is_space c || Ascii.eqb c "#" || Ascii.eqb c "/".

(** The characters of a normalised text. *)
Definition norm_char (c : ascii) : bool :=
  (SpecModel.is_word c || Ascii.eqb c " " || Ascii.eqb c "#" || Ascii.eqb c "/")
  && Ascii.eqb (upper_ascii c) c.

(** A token: not empty, without whitespace. *)
Definition token (t : string) : Prop :=
  t ≠ ""%string ∧ chars_all (fun c => negb (is_space c)) t = true.

(** The last character of [String d x]. *)
Fixpoint last_char (x : string) (d : ascii) : ascii :=
  match x with
  | EmptyString => d
  | String c x' => last_char x' c
  end.

(** What [city_repl] puts between the two spaces. *)
Definition city_core (group0 : string) : string := str_replace " " "_" (str_strip group0).

(** [g] is the token [c], or [c] between two spaces. *)
Definition padded (g c : string) : Prop :=
  token c ∧ (g = c ∨ g = (" " +:+ c +:+ " ")%string).

(** The alternative that [Parser.__init__] builds for a normalised city
    name. *)
Definition alt_of (k : string) : string := str_replace " " "[\s_]" k.

(** A normalised city name against a text: a space of the name stands for
    one whitespace character or underscore of the text. *)
Fixpoint kmatch (k a : string) : bool :=
  match k, a with
  | EmptyString, EmptyString => true
  | String kc k', String c a' =>
      (if Ascii.eqb kc " " then is_space c || Ascii.eqb c "_" else Ascii.eqb kc c)
      && kmatch k' a'
  | _, _ => false
  end.

Definition sp_us (c : ascii) : bool := Ascii.eqb c " " || Ascii.eqb c "_".

(** Two texts that differ only in that one has a space where the other has
    an underscore. *)
Fixpoint us_eq (a b : string) : bool :=
  match a, b with
  | EmptyString, EmptyString => true
  | String c a', String d b' => (Ascii.eqb c d || (sp_us c && sp_us d)) && us_eq a' b'
  | _, _ => false
  end.

(** The first [n] tokens of [ts] spell a known city. *)
Definition city_at (alts : list string) (ts : list string) (n : nat) : bool :=
  existsb (fun alt => SpecModel.alt_match alt (str_join " " (take n ts))) alts.

(** [cs] is [us] with runs of tokens joined by underscores. *)
Inductive grouping : list string → list string → Prop :=
  | grouping_nil : grouping [] []
  | grouping_cons (xs us cs : list string) :
      xs ≠ [] → grouping us cs → grouping (xs ++ us) (str_join "_" xs :: cs).

(** * Properties *)

Lemma is_Ok_inv {A} (r : result A) : is_Ok r = true → ∃ a, r = Ok a.
Proof. destruct r; [eauto | discriminate]. Qed.

(** ** Strings *)

Lemma string_app_cons (x : ascii) (a b : string) :
  (String x a +:+ b = String x (a +:+ b))%string.
Proof. reflexivity. Qed.

Lemma string_app_nil_l (b : string) : ("" +:+ b = b)%string.
Proof. reflexivity. Qed.

Lemma string_app_nil_r (a : string) : (a +:+ "" = a)%string.
Proof.
  induction a as [|x a IH]; [reflexivity|].
  now rewrite string_app_cons, IH.
Qed.

Lemma string_app_assoc (a b c : string) : ((a +:+ b) +:+ c = a +:+ (b +:+ c))%string.
Proof.
  induction a as [|x a IH]; [reflexivity|].
  now rewrite !string_app_cons, IH.
Qed.

Lemma chars_all_app (p : ascii → bool) (a b : string) :
  chars_all p (a +:+ b) = chars_all p a && chars_all p b.
Proof.
  induction a as [|x a IH]; [reflexivity|].
  rewrite string_app_cons. simpl. now rewrite IH, andb_assoc.
Qed.

Lemma chars_all_impl (p q : ascii → bool) (s : string) :
  (∀ c, p c = true → q c = true) → chars_all p s = true → chars_all q s = true.
Proof.
  intros Hpq. induction s as [|c s IH]; simpl; [done|].
  intros [Hc Hs]%andb_true_iff. rewrite (Hpq c Hc). simpl. auto.
Qed.

Lemma upper_ascii_idem (c : ascii) : upper_ascii (upper_ascii c) = upper_ascii c.
Proof. destruct c as [[] [] [] [] [] [] [] []]; reflexivity. Qed.

Lemma upper_ascii_space (c : ascii) : is_space (upper_ascii c) = is_space c.
Proof. destruct c as [[] [] [] [] [] [] [] []]; reflexivity. Qed.

Lemma str_upper_chars (s : string) :
  chars_all (fun c => is_space c || upper_token_char c) (str_upper s) = true.
Proof.
  induction s as [|c s IH]; simpl; [reflexivity|]. rewrite IH, andb_true_r.
  unfold upper_token_char. rewrite upper_ascii_idem, Ascii.eqb_refl, andb_true_r.
  now destruct (is_space (upper_ascii c)).
Qed.

Lemma str_upper_fixed (s : string) :
  chars_all (fun c => Ascii.eqb (upper_ascii c) c) s = true → str_upper s = s.
Proof.
  induction s as [|c s IH]; simpl; [done|].
  intros [Hc Hs]%andb_true_iff. apply Ascii.eqb_eq in Hc. now rewrite Hc, IH.
Qed.

(** The tokens [split] returns are not empty and are made of the
    non-whitespace characters of the string. *)
Lemma str_split_from_tokens (p : ascii → bool) (s cur : string) :
  chars_all p cur = true →
  chars_all (fun c => is_space c || p c) s = true →
  (∀ c, p c = true → is_space c = false) →
  Forall (fun t => t ≠ ""%string ∧ chars_all p t = true) (str_split_from cur s).
Proof.
  intros Hcur Hs Hp. revert cur Hcur.
  induction s as [|c s IH]; intros cur Hcur; simpl.
  - destruct (String.eqb cur "") eqn:E; [constructor|].
    apply String.eqb_neq in E. repeat constructor; assumption.
  - simpl in Hs. apply andb_true_iff in Hs as [Hc Hs].
    destruct (is_space c) eqn:Esp.
    + destruct (String.eqb cur "") eqn:E; [now apply IH|].
      apply String.eqb_neq in E. constructor; [done | now apply IH].
    + apply IH; [done|]. rewrite chars_all_app, Hcur. simpl in *.
      now rewrite andb_true_r in *.
Qed.

Lemma str_split_from_token (t cur rest : string) :
  chars_all (fun c => negb (is_space c)) t = true →
  str_split_from cur (t +:+ rest) = str_split_from (cur +:+ t) rest.
Proof.
  revert cur. induction t as [|c t IH]; intros cur Ht.
  - now rewrite string_app_nil_l, string_app_nil_r.
  - simpl in Ht. apply andb_true_iff in Ht as [Hc Ht].
    apply negb_true_iff in Hc. rewrite string_app_cons. simpl.
    rewrite Hc, IH by done.
    now rewrite string_app_assoc.
Qed.

Lemma str_split_join (ts : list string) :
  Forall (fun t => t ≠ ""%string ∧ chars_all (fun c => negb (is_space c)) t = true) ts →
  str_split (str_join " " ts) = ts.
Proof.
  unfold str_split. induction 1 as [|t ts [Hne Ht] Hts IH]; [reflexivity|].
  assert (Et : String.eqb t "" = false) by now apply String.eqb_neq.
  destruct ts as [|t2 ts].
  - simpl. rewrite <- (string_app_nil_r t) at 1.
    rewrite str_split_from_token by done. rewrite string_app_nil_l. simpl.
    now rewrite Et.
  - change (str_join " " (t :: t2 :: ts))
      with (t +:+ " " +:+ str_join " " (t2 :: ts))%string.
    rewrite str_split_from_token by done.
    rewrite string_app_nil_l, string_app_cons, string_app_nil_l.
    cbn [str_split_from]. change (is_space " ") with true. cbv iota.
    now rewrite Et, IH.
Qed.

Lemma str_replace_from_chars (p : ascii → bool) (skip : nat) (old new s : string) :
  chars_all p s = true → chars_all p new = true →
  chars_all p (str_replace_from skip old new s) = true.
Proof.
  intros Hs Hnew. revert skip Hs. induction s as [|c s IH]; intros skip Hs; [reflexivity|].
  simpl in Hs. apply andb_true_iff in Hs as [Hc Hs]. cbn [str_replace_from].
  destruct skip as [|k]; [|now apply IH].
  destruct (String.prefix old (String c s)); cbv beta iota.
  - rewrite chars_all_app, Hnew. simpl. now apply IH.
  - cbn [chars_all]. rewrite Hc. simpl. now apply IH.
Qed.

Lemma str_replace_hash (skip : nat) (new s : string) :
  chars_all not_hash new = true →
  chars_all not_hash (str_replace_from skip "#" new s) = true.
Proof.
  intros Hnew. revert skip. induction s as [|c s IH]; intros skip; [reflexivity|].
  cbn [str_replace_from]. destruct skip as [|k]; [|apply IH].
  cbn [String.prefix]. destruct (Ascii.ascii_dec "#" c) as [<-|Hne]; cbv beta iota.
  - replace (String.prefix "" s) with true by (now destruct s).
    rewrite chars_all_app, Hnew. simpl. apply IH.
  - cbn [chars_all]. rewrite IH, andb_true_r. unfold not_hash. apply negb_true_iff.
    apply Ascii.eqb_neq. congruence.
Qed.

Lemma str_replace_absent (old new s : string) :
  contains old s = false → str_replace old new s = s.
Proof.
  unfold str_replace. induction s as [|c s IH]; simpl; intros Hc; [reflexivity|].
  apply orb_false_iff in Hc as [Hp Hc]. rewrite Hp. f_equal. auto.
Qed.

(** ** The positional token view *)

Section CursorFacts.
Context {T : Type}.
Implicit Type c : GenericInput T.

Lemma py_index_nonneg (l : list T) (i : Z) :
  0 <= i < len l → ∃ t, l !! Z.to_nat i = Some t ∧ py_index l i = Ok t.
Proof.
  intros Hi. unfold py_index.
  destruct (i <? 0) eqn:E; [apply Z.ltb_lt in E; lia|].
  rewrite E. simpl.
  destruct (len l <=? i) eqn:E2; [apply Z.leb_le in E2; lia|].
  destruct (l !! Z.to_nat i) as [t|] eqn:E3; [eauto|].
  apply lookup_ge_None in E3. unfold len in Hi. lia.
Qed.

Lemma py_index_not_EndOfInput (l : list T) (i : Z) (orig : string) :
  py_index l i ≠ Raise (EndOfInputError orig).
Proof.
  unfold py_index.
  destruct ((_ <? 0) || (_ <=? _)); [discriminate|].
  destruct (l !! _); discriminate.
Qed.

Lemma item_EndOfInput c :
  (∃ orig, item c = Raise (EndOfInputError orig)) ↔ len (data c) <= state c.
Proof.
  unfold item. destruct (len (data c) <? state c + 1) eqn:E.
  - apply Z.ltb_lt in E. split; [lia | eauto].
  - apply Z.ltb_ge in E. split; [|lia].
    intros [orig Ho]. now apply py_index_not_EndOfInput in Ho.
Qed.

Lemma advance_EndOfInput c (n : Z) :
  (∃ orig, advance c n = Raise (EndOfInputError orig)) ↔ state c + n > len (data c).
Proof.
  unfold advance. destruct (len (data c) <? state c + n) eqn:E.
  - apply Z.ltb_lt in E. split; [lia | eauto].
  - apply Z.ltb_ge in E. split; [|lia]. intros [orig Ho]. discriminate.
Qed.

(** The slice taken by [chomp_n] when fewer than [n] tokens are left is
    the block of all remaining tokens. *)
Lemma py_slice_truncated (l : list T) (s n : Z) :
  0 <= s → len l < s + n → py_slice l s (s + n) = drop (Z.to_nat s) l.
Proof.
  intros Hs Hn. unfold py_slice, py_clamp.
  destruct (s <? 0) eqn:E; [apply Z.ltb_lt in E; lia|].
  destruct (s + n <? 0) eqn:E2; [apply Z.ltb_lt in E2; unfold len in *; lia|].
  rewrite (Z.min_r (s + n)) by lia.
  destruct (Z.le_gt_cases s (len l)) as [Hle|Hgt].
  - rewrite Z.min_l by lia. apply take_ge. rewrite length_drop. unfold len. lia.
  - rewrite Z.min_r by lia.
    rewrite !drop_ge by (unfold len in *; lia). now rewrite take_nil.
Qed.
End CursorFacts.

(** C7.  [item] raises [EndOfInputError] exactly when the position has
    reached the number of tokens; below that it returns [data[state]], the
    token at the position.  [advance(n)] raises [EndOfInputError] exactly
    when [state + n] exceeds the number of tokens; advancing onto the end is
    legal and gives an empty cursor over the same tokens.  Both are pure:
    the cursor they are applied to is a value and is not changed. *)
Theorem cursor_end_of_input {T : Type} (c : GenericInput T) :
  ((∃ orig, item c = Raise (EndOfInputError orig)) ↔ len (data c) <= state c)
  ∧ (state c < len (data c) → item c = py_index (data c) (state c))
  ∧ (0 <= state c < len (data c) →
     ∃ t, data c !! Z.to_nat (state c) = Some t ∧ item c = Ok t)
  ∧ (∀ n : Z, 0 <= n →
       ((∃ orig, advance c n = Raise (EndOfInputError orig))
        ↔ state c + n > len (data c))
       ∧ (state c + n = len (data c) →
          ∃ c', advance c n = Ok c' ∧ data c' = data c
                ∧ state c' = len (data c) ∧ empty c' = true)).
Proof.
  split; [apply item_EndOfInput|].
  split.
  { intros Hlt. unfold item.
    destruct (len (data c) <? state c + 1) eqn:E; [apply Z.ltb_lt in E; lia | done]. }
  split.
  { intros Hr. unfold item.
    destruct (len (data c) <? state c + 1) eqn:E; [apply Z.ltb_lt in E; lia|].
    now apply py_index_nonneg. }
  intros n Hn. split; [apply advance_EndOfInput|].
  intros Heq. unfold advance.
  destruct (len (data c) <? state c + n) eqn:E; [apply Z.ltb_lt in E; lia|].
  eexists. split; [reflexivity|]. simpl. repeat split; [done|].
  unfold empty. simpl. apply Z.ltb_lt. lia.
Qed.

(** A cursor on the last of two tokens: [item] returns it, advancing by one
    is legal and exhausts the input, advancing by two raises. *)
Lemma cursor_end_of_input_witness :
  item (mkInput ["A"; "B"]%string 1) = Ok "B"%string
  ∧ (∃ c', advance (mkInput ["A"; "B"]%string 1) 1 = Ok c'
           ∧ data c' = ["A"; "B"]%string ∧ state c' = 2 ∧ empty c' = true)
  ∧ (∃ orig, advance (mkInput ["A"; "B"]%string 1) 2 = Raise (EndOfInputError orig)).
Proof.
  destruct (cursor_end_of_input (mkInput ["A"; "B"]%string 1))
    as (_ & _ & Hitem & Hadv).
  split.
  - destruct Hitem as (t & Ht & ->); [simpl; unfold len; simpl; lia|].
    simpl in Ht. now inversion Ht.
  - destruct (Hadv 1 ltac:(lia)) as [_ Hend].
    destruct (Hadv 2 ltac:(lia)) as [Hraise _].
    split.
    + apply Hend. reflexivity.
    + apply Hraise. simpl. unfold len. simpl. lia.
Defined.

(** ** Grammar atoms *)

(** C1.  Stop-predicate precedence: when the stop predicate of an atom holds
    of a token, the rule built by [arrow_parse] returns the empty sequence
    for it; no step is emitted and nothing is raised, whatever the compiled
    pattern of the atom would do with the token. *)
Theorem stop_predicate_precedence `{Collaborators} (a : AddressComponent) (s : string) :
  stops_on a s = true → arrow_parse a s = Ok [].
Proof. intros Hstop. unfold arrow_parse. now rewrite Hstop. Qed.

(** The street-name atom of a parser without known cities stops on the
    suffix "AVE", although its pattern matches that token. *)
Lemma stop_predicate_precedence_witness :
  let a := with_stops_on
             (new_AddressComponent "st_name" (re_compile "\w+"))
             (__make_stops_on__ [st_suffix_R; st_NESW_R; unit_R]) in
  regex_match "AVE" (compiled_pattern a) = Some "AVE"%string
  ∧ arrow_parse a "AVE" = Ok [].
Proof.
  intros a. split; [reflexivity|].
  apply (stop_predicate_precedence a "AVE"). reflexivity.
Defined.

(** ** The combinator engine *)

Lemma spent_fresh (h : heap) : spent (h ++ [false]) (length h) = false.
Proof. unfold spent. now rewrite lookup_app_r, Nat.sub_diag by lia. Qed.

(** C2.  Merge law: [A.merge(B)] returns an engine state whose cursor is the
    cursor of [B] and whose results, when iterated, are what iterating the
    results of [A] yields followed by what iterating the results of [B]
    then yields. *)
Theorem merge_law {I O : Type} (A B : Zipper I O) (h : heap) :
  ∃ Z h', merge A B h = (Ok Z, h')
    ∧ leftover Z = leftover B
    ∧ list_ (results Z) h'
      = (let '(xs, h1) := list_ (results A) h' in
         let '(ys, h2) := list_ (results B) h1 in
         (xs ++ ys, exhaust (length h) h2)).
Proof.
  eexists _, _. split; [reflexivity|]. split; [reflexivity|].
  simpl. now rewrite spent_fresh.
Qed.

(** When both states hold lists, the merged results are the concatenation
    of the two lists. *)
Lemma merge_lists {I O : Type} (c1 c2 : GenericInput I) (xs ys : list O) (h : heap) :
  ∃ Z h', merge (mkZipper c1 (RList xs)) (mkZipper c2 (RList ys)) h = (Ok Z, h')
    ∧ leftover Z = c2 ∧ fst (list_ (results Z) h') = xs ++ ys.
Proof.
  eexists _, _. split; [reflexivity|]. split; [reflexivity|].
  simpl. now rewrite spent_fresh.
Qed.

(** C10, as amended.  When fewer than [n] tokens are left, [chomp_n] with
    the default [ex_types] applies the rule to the block of all remaining
    tokens, which is shorter than [n].  If the rule returns, the advance by
    [n] raises [EndOfInputError]; if the rule raises, its exception
    propagates, except [Uncatchable], which is caught and gives back the
    state it was applied to. *)
Theorem chomp_n_truncated {I O : Type} (z : Zipper I O) (n : Z)
    (rule : list I → result (list O)) (h : heap) :
  0 <= state (leftover z) →
  remaining (leftover z) < n →
  chomp_n z n rule default_ex_types h
  = match rule (drop (Z.to_nat (state (leftover z))) (data (leftover z))) with
    | Ok _ => (Raise (EndOfInputError ""), h)
    | Raise e => if isinstance e Uncatchable_t then (Ok z, h) else (Raise e, h)
    end.
Proof.
  unfold remaining. intros Hs Hn.
  unfold chomp_n, try_except, bind, lift.
  rewrite py_slice_truncated by lia.
  destruct (rule _) as [rs|e].
  - unfold advance.
    destruct (len (data (leftover z)) <? state (leftover z) + n) eqn:E;
      [reflexivity | apply Z.ltb_ge in E; lia].
  - unfold caught, default_ex_types. simpl. rewrite orb_false_r.
    now destruct (isinstance e Uncatchable_t).
Qed.

(** The third and fourth case of the module's own test: one token left,
    two asked for. *)
Lemma chomp_n_truncated_witness :
  chomp_n (new_Zipper (input [0])) 2 _id default_ex_types []
  = (Raise (EndOfInputError ""), []).
Proof.
  rewrite (chomp_n_truncated (new_Zipper (input [0])) 2 _id []).
  - reflexivity.
  - simpl. lia.
  - unfold remaining, len. simpl. lia.
Defined.

(** C10 as stated fails: one token is left, two are asked for, the rule
    raises [Uncatchable], and [chomp_n] returns the state unchanged. *)
Lemma chomp_n_truncated_counterexample :
  let z : Zipper Z Z := new_Zipper (input [0]) in
  remaining (leftover z) < 2
  ∧ chomp_n z 2 (fun _ => Raise Uncatchable) default_ex_types [] = (Ok z, []).
Proof. split; [unfold remaining, len; simpl; lia | reflexivity]. Qed.

(** C3.  The results of a state returned by an operator are a generator
    over the results of the state the operator was applied to.  Here [z1]
    yields nine results; [takewhile] is applied to it and the results of the
    state it returns are iterated; after that [z1] yields nothing. *)
Theorem results_consumed_through_derived_state :
  ∃ z1 h1 z2 h2 h3,
    takewhile (new_Zipper (input [1; 3; 7])) fan_odd false default_ex_types [] = (Ok z1, h1)
    ∧ fst (list_ (results z1) h1) = [1; 2; 3; 3; 4; 5; 7; 8; 9]
    ∧ takewhile z1 fan_even false default_ex_types h1 = (Ok z2, h2)
    ∧ list_ (results z2) h2 = ([1; 2; 3; 3; 4; 5; 7; 8; 9], h3)
    ∧ state (leftover z1) = 3
    ∧ fst (list_ (results z1) h3) = [].
Proof. eexists _, _, _, _, _. repeat split. Qed.

(** [successful] itself iterates the results of the state it is asked
    about: the second answer differs from the first. *)
Lemma successful_consumes :
  ∃ z1 h1 h2,
    takewhile (new_Zipper (input [1; 3; 7])) fan_odd false default_ex_types [] = (Ok z1, h1)
    ∧ successful z1 h1 = (Ok true, h2)
    ∧ successful z1 h2 = (Ok false, h2).
Proof. eexists _, _, _. repeat split. Qed.

(** Applying [merge] consumes nothing: the generators that exist keep their
    flag, and so does every operator, which touches the heap through
    [merge] only. *)
Lemma merge_consumes_nothing {I O : Type} (A B : Zipper I O) (h : heap) (g : nat) :
  (g < length h)%nat → spent (snd (merge A B h)) g = spent h g.
Proof. intros Hg. simpl. unfold spent. now rewrite lookup_app_l. Qed.

(** The loop of [takewhile] over the cursor makes at most [turns] turns:
    more fuel does not change its result. *)
Lemma takewhile_input_fuel {I O : Type} (pred_arrow : I → result (list O))
    (ex_types : list ex_type) (f1 f2 : nat) (it : GenericInput I) (acc : Z * list O) :
  (turns it <= f1)%nat → (turns it <= f2)%nat →
  takewhile_input f1 pred_arrow ex_types it acc
  = takewhile_input f2 pred_arrow ex_types it acc.
Proof.
  revert f2 it acc. induction f1 as [|f1 IH]; intros f2 it acc H1 H2.
  - destruct f2 as [|f2]; [reflexivity|]. simpl.
    destruct (InputIter_next it) as [[[i it']|]|e] eqn:E; try reflexivity.
    unfold InputIter_next, item in E.
    destruct (len (data it) <? state it + 1) eqn:El; [discriminate|].
    apply Z.ltb_ge in El. unfold turns in H1. lia.
  - simpl. destruct (InputIter_next it) as [[[i it']|]|e] eqn:E.
    + pose proof E as E'. unfold InputIter_next, item in E'.
      destruct (len (data it) <? state it + 1) eqn:El; [discriminate|].
      apply Z.ltb_ge in El.
      assert (it' = rest it) as ->.
      { destruct (py_index (data it) (state it)) as [x|[]]; congruence. }
      destruct f2 as [|f2]; [unfold turns in H2; lia|]. simpl.
      rewrite E.
      destruct (takewhile_body pred_arrow ex_types i acc) as [[acc'|]|]; try reflexivity.
      apply IH; unfold turns, rest in *; simpl; lia.
    + destruct f2; simpl; now rewrite E.
    + destruct f2; simpl; now rewrite E.
Qed.

(** ** [__collect_results__] and the required fields *)

Section RequiredFields.
Context `{Collaborators}.

Lemma fill_buckets_keys (steps : list ParseStep) (d d' : gmap string (list string)) (k : string) :
  fill_buckets d steps = Ok d' → is_Some (d !! k) → is_Some (d' !! k).
Proof.
  revert d. induction steps as [|p_r steps IH]; intros d Hfill Hk; simpl in Hfill.
  - now inversion Hfill; subst.
  - destruct (String.eqb (label p_r) "junk"); [eauto|].
    destruct (d !! label p_r) as [vs|] eqn:E; [|discriminate].
    apply (IH _ Hfill).
    destruct (decide (label p_r = k)) as [->|Hne].
    + rewrite lookup_insert_eq. eauto.
    + now rewrite lookup_insert_ne.
Qed.

Lemma empty_buckets_hard (f : string) :
  f ∈ hard_components → is_Some (empty_buckets !! f).
Proof.
  unfold hard_components. rewrite !elem_of_cons, elem_of_nil.
  intros [->|[->|[->|[->|[]]]]]; vm_compute; eauto.
Qed.

Lemma check_required_ok (_s : string) (d : gmap string (list string)) (reqs : list string) :
  check_required _s d reqs = Ok tt →
  ∀ f, f ∈ reqs → ∃ v vs, d !! f = Some (v :: vs).
Proof.
  induction reqs as [|req reqs IH]; intros Hc f Hf.
  - now apply elem_of_nil in Hf.
  - simpl in Hc. destruct (d !! req) as [[|v vs]|] eqn:E; try discriminate.
    apply elem_of_cons in Hf as [->|Hf]; [eauto | now apply IH].
Qed.

Lemma check_required_fails (_s : string) (d : gmap string (list string)) (reqs : list string) :
  (∀ f, f ∈ reqs → is_Some (d !! f)) →
  (∃ f, f ∈ reqs ∧ d !! f = Some []) →
  ∃ f, f ∈ reqs ∧ d !! f = Some []
       ∧ check_required _s d reqs = Raise (ParseError _s ("Could not identify " +:+ f)).
Proof.
  induction reqs as [|req reqs IH]; intros Hkeys (f & Hf & Hempty).
  - now apply elem_of_nil in Hf.
  - simpl. destruct (d !! req) as [[|v vs]|] eqn:E.
    + exists req. split; [apply list_elem_of_here | done].
    + destruct IH as (g & Hg & Hge & Hgr).
      * intros g Hg. apply Hkeys. now apply list_elem_of_further.
      * exists f. split; [|done].
        apply elem_of_cons in Hf as [->|Hf]; [congruence | done].
      * exists g. split; [now apply list_elem_of_further | done].
    + destruct (Hkeys req) as [x Hx]; [apply list_elem_of_here | congruence].
Qed.

Lemma collect_results_checked_ok (_s : string) (steps : list ParseStep) (a : RawAddress) :
  __collect_results__ _s steps true = Ok a →
  ∃ d, fill_buckets empty_buckets steps = Ok d
       ∧ (∀ f, f ∈ required → ∃ v vs, d !! f = Some (v :: vs))
       ∧ build_address _s d = Ok a.
Proof.
  unfold __collect_results__, rbind. intros Hc.
  destruct (fill_buckets empty_buckets steps) as [d|] eqn:Ef; [|discriminate].
  destruct (check_required _s d required) as [[]|] eqn:Ec; [|discriminate].
  exists d. split; [done|]. split; [|done].
  now apply check_required_ok with (_s := _s).
Qed.

Lemma parse_with_run (p : Parser) (_s : string) (checked : bool)
    (d : gmap string (list string)) :
  run_buckets p _s = Some d →
  parse_with p _s checked
  = (let? _ := if checked then check_required _s d required else Ok tt in
     build_address _s d)%res.
Proof.
  unfold run_buckets, parse_with, __collect_results__. cbv zeta.
  destruct (Apply.reduce _ _ _) as [[z|e] h]; [|discriminate].
  destruct (fill_buckets empty_buckets _) as [d'|e]; [|discriminate].
  now intros [= ->].
Qed.

Lemma parse_with_checked_ok (p : Parser) (_s : string) (a : RawAddress) :
  parse_with p _s true = Ok a →
  ∃ d, run_buckets p _s = Some d
       ∧ (∀ f, f ∈ required → ∃ v vs, d !! f = Some (v :: vs))
       ∧ build_address _s d = Ok a.
Proof.
  unfold parse_with, run_buckets. cbv zeta. intros Hp.
  destruct (Apply.reduce _ _ _) as [[z|e] h].
  - apply collect_results_checked_ok in Hp as (d & Hd & Hreq & Hb).
    rewrite Hd. eauto.
  - destruct (isinstance e EndOfInputError_t); [discriminate|].
    destruct (isinstance e ParseError_t); discriminate.
Qed.

Lemma Parser_call_blank_failed (p : Parser) (_s : string) (checked : bool) :
  blank_failed p _s checked → Parser_call p _s checked = parse_with p _s checked.
Proof.
  unfold blank_failed. destruct p as [[b|] kc R c st]; simpl; [|reflexivity].
  now destruct (Parser_call b _s checked).
Qed.

Lemma Parser_call_checked_ok (p : Parser) (_s : string) (a : RawAddress) :
  Parser_call p _s true = Ok a →
  ∃ q d, q ∈ attempts p ∧ parse_with q _s true = Ok a ∧ run_buckets q _s = Some d
       ∧ (∀ f, f ∈ required → ∃ v vs, d !! f = Some (v :: vs))
       ∧ build_address _s d = Ok a.
Proof.
  revert p a. fix IH 1. intros [blank kc R c st] a. simpl.
  destruct blank as [b|].
  - destruct (Parser_call b _s true) as [a'|e] eqn:E.
    + intros [= <-]. destruct (IH b a' E) as (q & d & Hq & Hrest).
      exists q, d. split; [|exact Hrest]. apply elem_of_app. now left.
    + intros Hp. pose proof Hp as Hp'. apply parse_with_checked_ok in Hp' as (d & Hrest).
      eexists _, d. split; [|split; [exact Hp | exact Hrest]].
      apply elem_of_app. right. apply list_elem_of_here.
  - intros Hp. pose proof Hp as Hp'. apply parse_with_checked_ok in Hp' as (d & Hrest).
    eexists _, d. split; [apply list_elem_of_here | split; [exact Hp | exact Hrest]].
Qed.

Lemma run_buckets_keys (p : Parser) (_s : string) (d : gmap string (list string)) (f : string) :
  run_buckets p _s = Some d → f ∈ hard_components → is_Some (d !! f).
Proof.
  unfold run_buckets. cbv zeta.
  destruct (Apply.reduce _ _ _) as [[z|e] h]; [|discriminate].
  destruct (fill_buckets empty_buckets _) as [d'|e] eqn:Ef; [|discriminate].
  intros [= ->] Hf. eapply fill_buckets_keys; [exact Ef|]. now apply empty_buckets_hard.
Qed.
End RequiredFields.

(** C4.  Required-field completeness, for a [Parser] whose required fields
    are house_number, st_name, city and us_state.  (1) When a checked call
    returns, the address is the one returned by the run of one of the
    parsers the call tries (its blank parser or itself); it is built from
    the buckets of that run, and these buckets hold at least one value for
    each required field.  (2) When the bucket of a required field is empty
    after the run of the parser's own pipeline (the attempt with its blank
    parser, if it has one, having failed), the checked call raises a
    [ParseError] whose reason names a required field with an empty bucket.
    (3) The unchecked call skips the check: in the same situation, and
    whatever the buckets hold, it goes from the buckets straight to building
    the address.  (4, 5) The same two facts for [__collect_results__] on any
    steps. *)
Theorem required_field_completeness `{Collaborators} :
  (∀ f, f ∈ required ↔ f ∈ hard_components) →
  (∀ (p : Parser) (_s : string) (a : RawAddress),
     Parser_call p _s true = Ok a →
     ∃ q d, q ∈ attempts p ∧ parse_with q _s true = Ok a ∧ run_buckets q _s = Some d
       ∧ (∀ f, f ∈ hard_components → ∃ v vs, d !! f = Some (v :: vs))
       ∧ build_address _s d = Ok a)
  ∧ (∀ (p : Parser) (_s : string) (d : gmap string (list string)),
       blank_failed p _s true →
       run_buckets p _s = Some d →
       (∃ f, f ∈ hard_components ∧ d !! f = Some []) →
       ∃ f, f ∈ hard_components ∧ d !! f = Some []
         ∧ Parser_call p _s true
           = Raise (ParseError _s ("Could not identify " +:+ f)))
  ∧ (∀ (p : Parser) (_s : string) (d : gmap string (list string)),
       blank_failed p _s false →
       run_buckets p _s = Some d →
       Parser_call p _s false = build_address _s d)
  ∧ (∀ (_s : string) (steps : list ParseStep) (d : gmap string (list string)),
       fill_buckets empty_buckets steps = Ok d →
       (∃ f, f ∈ hard_components ∧ d !! f = Some []) →
       ∃ f, f ∈ hard_components ∧ d !! f = Some []
         ∧ __collect_results__ _s steps true
           = Raise (ParseError _s ("Could not identify " +:+ f)))
  ∧ (∀ (_s : string) (steps : list ParseStep) (d : gmap string (list string)),
       fill_buckets empty_buckets steps = Ok d →
       __collect_results__ _s steps false = build_address _s d).
Proof.
  intros Hreq.
  assert (Hcheck : ∀ (_s : string) (d : gmap string (list string)),
       (∀ f, f ∈ hard_components → is_Some (d !! f)) →
       (∃ f, f ∈ hard_components ∧ d !! f = Some []) →
       ∃ f, f ∈ hard_components ∧ d !! f = Some []
         ∧ check_required _s d required
           = Raise (ParseError _s ("Could not identify " +:+ f))).
  { intros _s d Hkeys (f & Hf & Hempty).
    destruct (check_required_fails _s d required) as (g & Hg & Hge & Hgr).
    - intros g Hg. apply Hkeys. now apply Hreq.
    - exists f. split; [now apply Hreq | done].
    - exists g. split; [now apply Hreq|]. now split. }
  split; [|split; [|split; [|split]]].
  - intros p _s a Hcall.
    destruct (Parser_call_checked_ok p _s a Hcall) as (q & d & Hq & Hpw & Hd & Hne & Hb).
    exists q, d. split; [done|]. split; [done|]. split; [done|]. split; [|done].
    intros f Hf. apply Hne. now apply Hreq.
  - intros p _s d Hblank Hrun Hex.
    destruct (Hcheck _s d) as (f & Hf & Hfe & Hr); [|exact Hex|].
    { intros g Hg. now apply (run_buckets_keys p _s d g). }
    exists f. split; [done|]. split; [done|].
    rewrite (Parser_call_blank_failed p _s true Hblank), (parse_with_run p _s true d Hrun).
    now rewrite Hr.
  - intros p _s d Hblank Hrun.
    now rewrite (Parser_call_blank_failed p _s false Hblank), (parse_with_run p _s false d Hrun).
  - intros _s steps d Hfill Hex.
    destruct (Hcheck _s d) as (f & Hf & Hfe & Hr); [|exact Hex|].
    { intros g Hg. apply (fill_buckets_keys steps empty_buckets d g Hfill).
      now apply empty_buckets_hard. }
    exists f. split; [done|]. split; [done|].
    unfold __collect_results__, rbind. now rewrite Hfill, Hr.
  - intros _s steps d Hfill. unfold __collect_results__, rbind. now rewrite Hfill.
Qed.

(** A checked call that returns ("50 Elm St Springfield OH 12123"); and
    "MAIN ST DALLAS TX", which has no house number: the checked call raises
    the error of a required field, the unchecked call returns an address. *)
Lemma required_field_completeness_witness :
  let p := Parser_init [] in
  (∃ d, run_buckets p "50 Elm St Springfield OH 12123" = Some d
        ∧ ∀ f, f ∈ hard_components → ∃ v vs, d !! f = Some (v :: vs))
  ∧ (∃ f, f ∈ hard_components
          ∧ Parser_call p "MAIN ST DALLAS TX" true
            = Raise (ParseError "MAIN ST DALLAS TX" ("Could not identify " +:+ f)))
  ∧ is_Ok (Parser_call p "MAIN ST DALLAS TX" false) = true
  ∧ (∃ f, __collect_results__ "MAIN ST"
            [mkParseStep "st_name" "MAIN"; mkParseStep "st_suffix" "ST"] true
          = Raise (ParseError "MAIN ST" ("Could not identify " +:+ f)))
  ∧ is_Ok (__collect_results__ "MAIN ST"
             [mkParseStep "st_name" "MAIN"; mkParseStep "st_suffix" "ST"] false) = true.
Proof.
  intros p.
  destruct (required_field_completeness (H := SpecModel.collaborators))
    as (H1 & H2 & H3 & H4 & H5); [done|].
  assert (Hrun : ∃ d, run_buckets p "MAIN ST DALLAS TX" = Some d
                      ∧ d !! "house_number"%string = Some []
                      ∧ is_Ok (build_address "MAIN ST DALLAS TX" d) = true).
  { assert (Hobs : match run_buckets p "MAIN ST DALLAS TX" with
                   | Some d => d !! "house_number"%string = Some []
                               ∧ is_Ok (build_address "MAIN ST DALLAS TX" d) = true
                   | None => False
                   end) by (vm_compute; split; reflexivity).
    destruct (run_buckets p "MAIN ST DALLAS TX") as [d|]; [|contradiction]. eauto. }
  destruct Hrun as (d & Hd & Hhouse & Hbuild).
  set (steps0 := [mkParseStep "st_name" "MAIN"; mkParseStep "st_suffix" "ST"]).
  destruct (is_Ok_inv (fill_buckets empty_buckets steps0)) as [d0 Hd0];
    [vm_compute; reflexivity|].
  split; [|split; [|split; [|split]]].
  - destruct (is_Ok_inv (Parser_call p "50 Elm St Springfield OH 12123" true))
      as [a Ha]; [vm_compute; reflexivity|].
    destruct (H1 _ _ a Ha) as (q & d1 & Hq & _ & Hd1 & Hne & _).
    apply list_elem_of_singleton in Hq as ->. eauto.
  - destruct (H2 p "MAIN ST DALLAS TX"%string d I Hd) as (f & Hf & _ & Hr); [|eauto].
    exists "house_number"%string. split; [|exact Hhouse].
    unfold hard_components. rewrite !elem_of_cons. tauto.
  - now rewrite (H3 p "MAIN ST DALLAS TX"%string d I Hd).
  - destruct (H4 "MAIN ST"%string steps0 d0 Hd0) as (f & _ & _ & Hr); [|eauto].
    exists "city"%string. split.
    + unfold hard_components. rewrite !elem_of_cons. tauto.
    + assert (Hobs : (let? d := fill_buckets empty_buckets steps0 in Ok (d !! "city"%string))%res
                     = Ok (Some [])) by (vm_compute; reflexivity).
      rewrite Hd0 in Hobs. simpl in Hobs. congruence.
  - rewrite (H5 "MAIN ST"%string steps0 d0 Hd0).
    assert (Hobs : match fill_buckets empty_buckets steps0 with
                   | Ok d => is_Ok (build_address "MAIN ST" d)
                   | Raise _ => false
                   end = true) by (vm_compute; reflexivity).
    now rewrite Hd0 in Hobs.
Defined.

(** ** [smart_batch] *)

Section Batch.
Context `{Collaborators}.

Lemma pass1_app (p : Parser) (pre post errs : list string) (cities : gset string) :
  pass1 p (pre ++ post) errs cities
  = match pass1 p pre errs cities with
    | (ys, Ok (errs', cities')) =>
        let '(ys', r) := pass1 p post errs' cities' in (ys ++ ys', r)
    | (ys, Raise e) => (ys, Raise e)
    end.
Proof.
  revert errs cities. induction pre as [|add pre IH]; intros errs cities; simpl.
  - now destruct (pass1 p post errs cities).
  - destruct (Parser_call p add true) as [a|e].
    + rewrite IH. destruct (pass1 p pre errs _) as [ys [[errs' cities']|e]]; [|done].
      now destruct (pass1 p post errs' cities').
    + destruct (isinstance e EndOfInputError_t); [apply IH|].
      destruct (isinstance e ParseError_t); [apply IH | done].
Qed.

Lemma pass1_completes_run (p : Parser) (adds errs : list string) (cities : gset string) :
  pass1_completes p adds = true →
  ∃ errs' cities', pass1 p adds errs cities = (successes p adds, Ok (errs', cities')).
Proof.
  revert errs cities. induction adds as [|add adds IH]; intros errs cities Hc; simpl.
  - eauto.
  - simpl in Hc. apply andb_true_iff in Hc as [Hadd Hc].
    destruct (Parser_call p add true) as [a|e].
    + destruct (IH errs ({[RawAddress_city a]} ∪ cities) Hc) as (errs' & cities' & ->).
      eauto.
    + unfold deferred in Hadd.
      destruct (isinstance e EndOfInputError_t); [now apply IH|].
      destruct (isinstance e ParseError_t); [now apply IH | discriminate].
Qed.
End Batch.

(** C5.  The error policy of the first loop of [smart_batch].  When the
    parser raises [e] on an input: if [e] is an [EndOfInputError] or a
    [ParseError] (or a subclass of it), nothing is yielded for the input,
    the input is appended to the failure list (after the inputs that failed
    before it, with the set of cities as it was), the loop goes on with the
    next input, and the second loop of the batch is run on the failure list
    with that input in it; otherwise the loop ends there with [e], and the
    batch, whatever it yielded before, raises [e] to its caller without
    calling the reporter (the second loop lets such an [e] through as
    well).  A [ParserConfigError] is of the second kind. *)
Theorem smart_batch_error_policy `{Collaborators} (p : Parser) (add : string) (e : exn) :
  Parser_call p add true = Raise e →
  (deferred e = true →
     (∀ pre errs0 cities0 ys errs cities,
        pass1 p pre errs0 cities0 = (ys, Ok (errs, cities)) →
        pass1 p (pre ++ [add]) errs0 cities0 = (ys, Ok (errs ++ [add], cities)))
     ∧ (∀ pre post errs0 cities0 ys errs cities,
          pass1 p pre errs0 cities0 = (ys, Ok (errs, cities)) →
          pass1 p (pre ++ add :: post) errs0 cities0
          = (let '(ys', r) := pass1 p post (errs ++ [add]) cities in (ys ++ ys', r)))
     ∧ (∀ pre report_error ys errs cities,
          pass1 p pre [] ∅ = (ys, Ok (errs, cities)) →
          smart_batch p (pre ++ [add]) report_error
          = (let b := pass2 (Parser_init (known_cities p ++ elements cities))
                        report_error (errs ++ [add]) in
             mkBatch (ys ++ yielded b) (reported b) (raised b))))
  ∧ (deferred e = false →
       (∀ adds errs cities, pass1 p (add :: adds) errs cities = ([], Raise e))
       ∧ (∀ pre post report_error ys errs cities,
            pass1 p pre [] ∅ = (ys, Ok (errs, cities)) →
            smart_batch p (pre ++ add :: post) report_error = mkBatch ys [] (Some e))
       ∧ (∀ report_error errs, pass2 p report_error (add :: errs) = mkBatch [] [] (Some e)))
  ∧ (∀ orig, deferred (EndOfInputError orig) = true)
  ∧ (∀ orig reason, deferred (ParseError orig reason) = true)
  ∧ (∀ orig reason, deferred (EndOfAddressError orig reason) = true)
  ∧ (∀ msg, deferred (ParserConfigError msg) = false).
Proof.
  intros Hcall.
  assert (Hnot : deferred e = false →
                 ∀ adds errs cities, pass1 p (add :: adds) errs cities = ([], Raise e)).
  { unfold deferred. intros Hd adds errs cities. simpl. rewrite Hcall.
    apply orb_false_iff in Hd as [-> ->]. reflexivity. }
  assert (Hdef : deferred e = true →
                 ∀ adds errs cities,
                   pass1 p (add :: adds) errs cities = pass1 p adds (errs ++ [add]) cities).
  { unfold deferred. intros Hd adds errs cities. simpl. rewrite Hcall.
    destruct (isinstance e EndOfInputError_t); [reflexivity|].
    simpl in Hd. now rewrite Hd. }
  split; [|split; [|repeat split]].
  - intros Hd.
    assert (Hstep : ∀ pre post errs0 cities0 ys errs cities,
              pass1 p pre errs0 cities0 = (ys, Ok (errs, cities)) →
              pass1 p (pre ++ add :: post) errs0 cities0
              = (let '(ys', r) := pass1 p post (errs ++ [add]) cities in (ys ++ ys', r))).
    { intros pre post errs0 cities0 ys errs cities Hpre.
      now rewrite pass1_app, Hpre, (Hdef Hd). }
    split; [|split; [exact Hstep|]].
    + intros pre errs0 cities0 ys errs cities Hpre.
      rewrite (Hstep pre [] _ _ _ _ _ Hpre). simpl. now rewrite app_nil_r.
    + intros pre report_error ys errs cities Hpre.
      unfold smart_batch. rewrite (Hstep pre [] _ _ _ _ _ Hpre). simpl.
      now rewrite app_nil_r.
  - intros Hd. split; [now apply Hnot|]. split.
    + intros pre post report_error ys errs cities Hpre.
      unfold smart_batch. rewrite pass1_app, Hpre, (Hnot Hd).
      now rewrite app_nil_r.
    + intros report_error errs. simpl. rewrite Hcall.
      unfold deferred in Hd. apply orb_false_iff in Hd as [_ ->]. reflexivity.
Qed.

(** With the model of the collaborators: "123 STRAIGHT AUSTIN TX" raises a
    deferred error; after "50 Elm St Springfield OH" it is the one entry of
    the failure list, one result has been yielded, and the batch of the two
    reports it, as the second loop fails on it too.  "123 MAIN ST APT"
    raises an [AssertionError], which ends the batch after the one result
    yielded before it. *)
Lemma smart_batch_error_policy_witness :
  let p := Parser_init [] in
  let bad := "123 STRAIGHT AUSTIN TX"%string in
  let adds := ["50 Elm St Springfield OH"; "123 MAIN ST APT"; "1 Elm St Springfield OH"]%string in
  match pass1 p ["50 Elm St Springfield OH"; bad]%string [] ∅ with
  | (ys, Ok (errs, _)) => length ys = 1%nat ∧ errs = [bad]
  | (_, Raise _) => False
  end
  ∧ map snd (reported (smart_batch p ["50 Elm St Springfield OH"; bad]%string (fun _ _ => Ok tt)))
    = [bad]
  ∧ raised (smart_batch p adds (fun _ _ => Ok tt)) = Some AssertionError
  ∧ length (yielded (smart_batch p adds (fun _ _ => Ok tt))) = 1%nat.
Proof.
  intros p bad adds.
  assert (Hobs : match pass1 p ["50 Elm St Springfield OH"%string] [] ∅ with
                 | (ys, Ok (errs, _)) => length ys = 1%nat ∧ errs = []
                 | (_, Raise _) => False
                 end) by (vm_compute; split; reflexivity).
  destruct (pass1 p ["50 Elm St Springfield OH"%string] [] ∅)
    as [ys [[errs cities]|e]] eqn:E; [|contradiction].
  destruct Hobs as [Hys ->].
  split; [|split].
  - destruct (smart_batch_error_policy p bad (EndOfAddressError bad "unknown: end of input"))
      as (Hdef & _); [vm_compute; reflexivity|].
    destruct (Hdef eq_refl) as (Hlist & _).
    pose proof (Hlist ["50 Elm St Springfield OH"%string] [] ∅ ys [] cities E) as Hl.
    cbn [app] in Hl. rewrite Hl. split; [exact Hys | reflexivity].
  - vm_compute. reflexivity.
  - destruct (smart_batch_error_policy p "123 MAIN ST APT" AssertionError)
      as (_ & Hprop & _); [vm_compute; reflexivity|].
    destruct (Hprop eq_refl) as (_ & Hbatch & _).
    pose proof (Hbatch ["50 Elm St Springfield OH"%string]
                  ["1 Elm St Springfield OH"%string] (fun _ _ => Ok tt) ys [] cities E)
      as Hb.
    cbn [app] in Hb. unfold adds. rewrite Hb.
    simpl. split; [reflexivity | exact Hys].
Defined.

(** C6.  Repair monotonicity is broken by the assertion of
    [__chomp_unit__].  In "123 MAIN ST APT" a unit type is found, so the
    unit step is [chomp_n(2, __chomp_unit__)]; one token is left when it
    runs, the rule is called with that one token and its [assert len(words)
    == 2] fails.  No handler of [__call__] and none of the first loop of
    [smart_batch] catches the [AssertionError]: the batch raises it at the
    first input, yields nothing and reports nothing, although the parser
    parses the second input. *)
Theorem repair_aborted_by_assertion :
  let p := Parser_init [] in
  let adds := ["123 MAIN ST APT"; "50 Elm St Springfield OH 12123"]%string in
  let b := smart_batch p adds (fun _ _ => Ok tt) in
  __chomp_unit__ ["APT"%string] = Raise AssertionError
  ∧ Parser_call p "123 MAIN ST APT" true = Raise AssertionError
  ∧ is_Ok (Parser_call p "50 Elm St Springfield OH 12123" true) = true
  ∧ length (successes p adds) = 1%nat
  ∧ yielded b = []
  ∧ reported b = []
  ∧ raised b = Some AssertionError.
Proof. vm_compute. repeat split. Qed.

(** ** The ambiguous address *)

Lemma reduce_app {I O : Type} (fs gs : list (@Apply.step I O)) (z : Zipper I O) (h : heap) :
  Apply.reduce (fs ++ gs) z h
  = match Apply.reduce fs z h with
    | (Ok z', h') => Apply.reduce gs z' h'
    | (Raise e, h') => (Raise e, h')
    end.
Proof.
  revert z h. induction fs as [|f fs IH]; intros z h; simpl.
  - reflexivity.
  - unfold bind. destruct (f z h) as [[z'|e] h']; [apply IH | reflexivity].
Qed.

(** The first five steps of the pipeline on four tokens, for any rules that
    take the first token as house number, refuse the second as directional
    and take the last three as street name: the street-name step consumes
    every token left, and the directional step after the suffix step asks for
    an item past the end. *)
Lemma greedy_street_name_exhausts (house nesw stname suffix : ArrowParse)
    (t0 t1 t2 t3 : string) (r0 r1 r2 r3 : ParseStep) (o l : string) :
  house t0 = Ok [r0] →
  nesw t1 = Raise (ParseError o l) →
  stname t1 = Ok [r1] → stname t2 = Ok [r2] → stname t3 = Ok [r3] →
  ∃ h, Apply.reduce
         [ Apply.consume_with house __ex_types__;
           Apply.consume_with nesw __ex_types__;
           Apply.takewhile stname false __ex_types__;
           Apply.takewhile suffix false __ex_types__;
           Apply.consume_with nesw __ex_types__ ]
         (new_Zipper (input [t0; t1; t2; t3])) []
       = (Raise (EndOfInputError ""), h).
Proof.
  intros Hh Hn H1 H2 H3.
  cbv. rewrite Hh.
  cbv. rewrite Hn.
  cbv. rewrite H1. cbv. rewrite H2. cbv. rewrite H3. cbv.
  eauto.
Qed.

Section Ambiguous.
Context `{Collaborators}.

(** The street-name rule of a parser without known cities takes a
    [street_word]. *)
Lemma st_name_takes (w : string) :
  street_word w → ∃ m, st_name (Parser_init []) w = Ok [mkParseStep "st_name" m].
Proof.
  intros (H1 & H2 & H3 & H4 & m & H5). exists m.
  cbn -[regex_match st_suffix_R st_NESW_R unit_R].
  unfold __make_st_name__, arrow_parse.
  cbn -[regex_match st_suffix_R st_NESW_R unit_R].
  now rewrite H1, H2, H3, H4, H5.
Qed.

Lemma parse_with_ambiguous (checked : bool) (v : string) :
  let _s := "123 STRAIGHT AUSTIN TX"%string in
  regex_remove_punc _s = _s →
  regex_normalize_whitespace _s = _s →
  re_sub (re_compile_or_ []) city_repl _s = _s →
  regex_match "123" (re_compile "[\d/]+") = Some v →
  street_word "STRAIGHT" → street_word "AUSTIN" → street_word "TX" →
  parse_with (Parser_init []) _s checked
  = Raise (EndOfAddressError _s "unknown: end of input").
Proof.
  intros _s Hpunc Hws Hsub Hhouse Hw1 Hw2 Hw3.
  assert (Htok : __tokenize__ (Some (known_cities_R (Parser_init []))) _s = _s).
  { unfold __tokenize__.
    change (str_replace "," " " _s) with _s. rewrite Hpunc.
    change (str_upper _s) with _s. rewrite Hws.
    change (str_replace "#" "APT " _s) with _s.
    change (str_replace "APT APT" "APT" _s) with _s.
    exact Hsub. }
  unfold parse_with. rewrite Htok.
  change (str_split _s) with ["123"; "STRAIGHT"; "AUSTIN"; "TX"]%string.
  unfold pipeline. rewrite reduce_app.
  destruct (st_name_takes _ Hw1) as [m1 Hs1].
  destruct (st_name_takes _ Hw2) as [m2 Hs2].
  destruct (st_name_takes _ Hw3) as [m3 Hs3].
  destruct Hw1 as (_ & Hnesw & _).
  destruct (greedy_street_name_exhausts _HOUSE_NUMBER _ST_NESW
              (st_name (Parser_init [])) _ST_SUFFIX
              "123" "STRAIGHT" "AUSTIN" "TX"
              (mkParseStep "house_number" v) (mkParseStep "st_name" m1)
              (mkParseStep "st_name" m2) (mkParseStep "st_name" m3)
              "STRAIGHT" "st_NESW")
    as [h Hrun]; [| | exact Hs1 | exact Hs2 | exact Hs3 |].
  - unfold _HOUSE_NUMBER, arrow_parse. simpl. now rewrite Hhouse.
  - unfold _ST_NESW, arrow_parse. simpl. now rewrite Hnesw.
  - unfold __hn_nesw__. rewrite Hrun. reflexivity.
Qed.
End Ambiguous.




(** ** Normalisation *)

(** *** Replacing and splitting *)

Lemma string_length_app (a b : string) :
  String.length (a +:+ b) = (String.length a + String.length b)%nat.
Proof.
  induction a as [|x a IH]; [reflexivity|].
  rewrite string_app_cons. simpl. now rewrite IH.
Qed.

Lemma prefix_nil (s : string) : String.prefix "" s = true.
Proof. now destruct s. Qed.

Lemma prefix_app (old r : string) : String.prefix old (old +:+ r) = true.
Proof.
  induction old as [|o old IH]; [apply prefix_nil|].
  rewrite string_app_cons. simpl. now destruct (ascii_dec o o).
Qed.

Lemma prefix_inv (old x : string) :
  String.prefix old x = true → x = (old +:+ str_drop (String.length old) x)%string.
Proof.
  revert x. induction old as [|o old IH]; intros x Hp.
  - now destruct x.
  - destruct x as [|c x]; [discriminate|]. simpl in Hp.
    destruct (ascii_dec o c) as [->|]; [|discriminate].
    rewrite string_app_cons. simpl. f_equal. now apply IH.
Qed.

Lemma str_replace_from_skip (old new a r : string) :
  str_replace_from (String.length a) old new (a +:+ r) = str_replace_from 0 old new r.
Proof.
  induction a as [|c a IH]; [reflexivity|].
  rewrite string_app_cons. simpl. exact IH.
Qed.

Lemma str_replace_match (o : ascii) (old' new r : string) :
  str_replace (String o old') new (String o old' +:+ r)
  = (new +:+ str_replace (String o old') new r)%string.
Proof.
  unfold str_replace. rewrite string_app_cons. cbn [str_replace_from].
  rewrite <- string_app_cons, prefix_app.
  replace (String.length (String o old') - 1)%nat with (String.length old')
    by (simpl; lia).
  f_equal. apply str_replace_from_skip.
Qed.

Lemma str_replace_miss (old new : string) (c : ascii) (x : string) :
  String.prefix old (String c x) = false →
  str_replace old new (String c x) = String c (str_replace old new x).
Proof. unfold str_replace. intros Hp. cbn [str_replace_from]. now rewrite Hp. Qed.

Lemma prefix_head_miss (o c : ascii) (old' x : string) :
  o ≠ c → String.prefix (String o old') (String c x) = false.
Proof.
  intros Hne. cbn [String.prefix]. now destruct (ascii_dec o c).
Qed.

Lemma chars_all_and (p q : ascii → bool) (s : string) :
  chars_all (fun c => p c && q c) s = chars_all p s && chars_all q s.
Proof.
  induction s as [|c s IH]; [reflexivity|]. simpl. rewrite IH.
  destruct (p c), (q c), (chars_all p s); reflexivity.
Qed.

Lemma contains_char (o : ascii) (x : string) :
  chars_all (fun c => negb (Ascii.eqb c o)) x = true → contains (String o "") x = false.
Proof.
  induction x as [|c x IH]; [reflexivity|]. simpl.
  intros [Hc Hx]%andb_true_iff. rewrite (IH Hx), orb_false_r.
  destruct (ascii_dec o c) as [->|]; [|reflexivity].
  now rewrite Ascii.eqb_refl in Hc.
Qed.

Lemma str_join_chars (p : ascii → bool) (ts : list string) :
  p " "%char = true → Forall (fun t => chars_all p t = true) ts →
  chars_all p (str_join " " ts) = true.
Proof.
  intros Hsp. induction 1 as [|t ts Ht Hts IH]; [reflexivity|].
  destruct ts as [|t2 ts]; [exact Ht|].
  change (str_join " " (t :: t2 :: ts)) with (t +:+ " " +:+ str_join " " (t2 :: ts))%string.
  rewrite !chars_all_app, Ht, IH. simpl. now rewrite Hsp.
Qed.

(** *** Tidy texts *)

Lemma tidy_from_nonspace (b : bool) (c : ascii) (x : string) :
  is_space c = false → tidy_from b (String c x) = tidy_from false x.
Proof. intros Hc. simpl. now rewrite Hc. Qed.

Lemma tidy_from_space (b : bool) (x : string) :
  tidy_from b (String " " x) = negb b && tidy_from true x.
Proof. simpl. now rewrite andb_true_r. Qed.

Lemma tidy_from_token (b : bool) (t r : string) :
  token t → tidy_from b (t +:+ r) = tidy_from false r.
Proof.
  intros [Hne Ht]. revert b. induction t as [|c t IH]; intros b; [done|].
  simpl in Ht. apply andb_true_iff in Ht as [Hc Ht]. apply negb_true_iff in Hc.
  rewrite string_app_cons, tidy_from_nonspace by done.
  destruct t as [|c' t]; [reflexivity|]. now apply IH.
Qed.

Lemma tidy_from_join (ts : list string) (b : bool) :
  Forall token ts → ts ≠ [] → tidy_from b (str_join " " ts) = true.
Proof.
  intros Hts. revert b. induction Hts as [|t ts Ht Hts IH]; intros b Hne; [done|].
  destruct ts as [|t2 ts].
  - simpl. rewrite <- (string_app_nil_r t). now rewrite tidy_from_token.
  - change (str_join " " (t :: t2 :: ts)) with (t +:+ String " " (str_join " " (t2 :: ts)))%string.
    rewrite tidy_from_token, tidy_from_space by done. now apply IH.
Qed.

Lemma tidy_of_from (x : string) : tidy_from true x = true → tidy x = true.
Proof. now destruct x. Qed.

Lemma tidy_inv (x : string) : tidy x = true → x = ""%string ∨ tidy_from true x = true.
Proof. destruct x; auto. Qed.

Lemma tidy_join (ts : list string) : Forall token ts → tidy (str_join " " ts) = true.
Proof.
  intros Hts. destruct ts as [|t ts]; [reflexivity|].
  apply tidy_of_from. now apply tidy_from_join.
Qed.

Lemma str_split_from_nonempty (cur x : string) : cur ≠ ""%string → str_split_from cur x ≠ [].
Proof.
  revert cur. induction x as [|c x IH]; intros cur Hc; simpl.
  - apply String.eqb_neq in Hc. now rewrite Hc.
  - destruct (is_space c).
    + apply String.eqb_neq in Hc. now rewrite Hc.
    + apply IH. now destruct cur.
Qed.

Lemma str_join_split_tidy (x : string) :
  (∀ cur, cur ≠ ""%string → tidy_from false x = true →
     str_join " " (str_split_from cur x) = (cur +:+ x)%string)
  ∧ (tidy_from true x = true →
     ∃ r rs, str_split_from "" x = r :: rs ∧ str_join " " (r :: rs) = x).
Proof.
  induction x as [|c x [IHa IHb]]; (split; [intros cur Hc Ht | intros Ht]).
  - simpl. apply String.eqb_neq in Hc. rewrite Hc. simpl. now rewrite string_app_nil_r.
  - discriminate.
  - cbn [str_split_from]. simpl in Ht. destruct (is_space c) eqn:E.
    + apply andb_true_iff in Ht as [Hsp Ht]. apply Ascii.eqb_eq in Hsp. subst c.
      destruct (IHb Ht) as (r & rs & Hsplit & Hjoin).
      pose proof Hc as Hc'. apply String.eqb_neq in Hc'. rewrite Hc', Hsplit.
      change (str_join " " (cur :: r :: rs)) with (cur +:+ String " " (str_join " " (r :: rs)))%string.
      now rewrite Hjoin.
    + rewrite IHa; [now rewrite string_app_assoc | now destruct cur | exact Ht].
  - simpl in Ht. destruct (is_space c) eqn:E; [discriminate|].
    cbn [str_split_from]. rewrite E, string_app_nil_l.
    destruct (str_split_from (String c "") x) as [|r rs] eqn:Es.
    + now apply str_split_from_nonempty in Es.
    + exists r, rs. split; [reflexivity|]. rewrite <- Es. now rewrite IHa.
Qed.

Lemma str_split_tidy (x : string) : tidy x = true → str_join " " (str_split x) = x.
Proof.
  intros [->|Ht]%tidy_inv; [reflexivity|].
  destruct (proj2 (str_join_split_tidy x) Ht) as (r & rs & Hsplit & Hjoin).
  unfold str_split. now rewrite Hsplit.
Qed.

Lemma str_split_tokens (x : string) : Forall token (str_split x).
Proof.
  apply (str_split_from_tokens (fun c => negb (is_space c))); [reflexivity| |].
  - induction x as [|c x IH]; [reflexivity|]. simpl. rewrite IH. now destruct (is_space c).
  - intros c Hc. now apply negb_true_iff.
Qed.

Lemma tidy_from_true (x : string) :
  tidy_from true x = tidy_from false x && starts_word x.
Proof.
  destruct x as [|c x]; [reflexivity|]. simpl.
  destruct (is_space c); simpl; [now rewrite andb_false_r | now rewrite andb_true_r].
Qed.

Lemma str_replace_nonempty (o : ascii) (old' new x : string) :
  new ≠ ""%string → x ≠ ""%string → str_replace (String o old') new x ≠ ""%string.
Proof.
  intros Hnew Hx. destruct x as [|c x]; [done|].
  destruct (String.prefix (String o old') (String c x)) eqn:Ep.
  - apply prefix_inv in Ep. rewrite Ep, str_replace_match.
    destruct new; [done | discriminate].
  - now rewrite str_replace_miss.
Qed.

(** Replacing the hash signs keeps a text tidy exactly when its hash signs
    are attached. *)
Lemma tidy_replace_hash (y : string) (b : bool) :
  tidy_from b (str_replace "#" "APT " y) = tidy_from b y && hash_attached y.
Proof.
  revert b. induction y as [|c y IH]; intros b; [now rewrite andb_true_r|].
  cbn [hash_attached].
  destruct (Ascii.eqb c "#") eqn:Ec.
  - apply Ascii.eqb_eq in Ec. subst c.
    change (String "#" y) with ("#" +:+ y)%string at 1. rewrite str_replace_match.
    change ("APT " +:+ str_replace "#" "APT " y)%string
      with (String "A" (String "P" (String "T" (String " " (str_replace "#" "APT " y))))).
    rewrite !tidy_from_nonspace, tidy_from_space by reflexivity.
    rewrite IH, tidy_from_true. cbn [negb orb andb].
    rewrite (tidy_from_nonspace b "#" y) by reflexivity.
    now destruct (tidy_from false y), (starts_word y), (hash_attached y).
  - rewrite str_replace_miss by (apply prefix_head_miss; intros <-; discriminate).
    cbn [tidy_from negb orb andb]. destruct (is_space c).
    + rewrite IH. now destruct (negb b), (Ascii.eqb c " "), (tidy_from true y).
    + apply IH.
Qed.

(** Replacing a doubled unit type changes nothing to the tidiness. *)
Lemma tidy_replace_apt (n : nat) (x : string) (b : bool) :
  (String.length x <= n)%nat →
  tidy_from b (str_replace "APT APT" "APT" x) = tidy_from b x.
Proof.
  revert x b. induction n as [|n IH]; intros x b Hlen.
  - destruct x; [reflexivity | simpl in Hlen; lia].
  - destruct x as [|c x]; [reflexivity|].
    destruct (String.prefix "APT APT" (String c x)) eqn:Ep.
    + apply prefix_inv in Ep. remember (str_drop _ (String c x)) as r eqn:Er. clear Er.
      rewrite Ep in Hlen |- *. rewrite str_replace_match.
      rewrite string_length_app in Hlen. simpl in Hlen.
      change ("APT APT" +:+ r)%string
        with (String "A" (String "P" (String "T" (String " "
               (String "A" (String "P" (String "T" r))))))).
      change ("APT" +:+ str_replace "APT APT" "APT" r)%string
        with (String "A" (String "P" (String "T" (str_replace "APT APT" "APT" r)))).
      rewrite !tidy_from_nonspace, tidy_from_space, !tidy_from_nonspace by reflexivity.
      cbn [negb andb]. apply IH. lia.
    + rewrite str_replace_miss by exact Ep. simpl in Hlen.
      cbn [tidy_from]. destruct (is_space c).
      * f_equal. apply IH. lia.
      * apply IH. lia.
Qed.

Lemma tidy_from_unit_markers (y : string) (b : bool) :
  tidy_from b (unit_markers y) = tidy_from b y && hash_attached y.
Proof.
  unfold unit_markers. rewrite (tidy_replace_apt _ _ _ (le_n _)). apply tidy_replace_hash.
Qed.

Lemma unit_markers_nonempty (y : string) : y ≠ ""%string → unit_markers y ≠ ""%string.
Proof.
  intros Hy. unfold unit_markers.
  apply str_replace_nonempty; [discriminate|]. now apply str_replace_nonempty.
Qed.

Lemma tidy_unit_markers (y : string) :
  tidy y = true → tidy (unit_markers y) = hash_attached y.
Proof.
  intros [->|Ht]%tidy_inv; [reflexivity|].
  assert (Hy : y ≠ ""%string) by (intros ->; discriminate).
  pose proof (unit_markers_nonempty y Hy) as Hne.
  pose proof (tidy_from_unit_markers y true) as Heq. rewrite Ht in Heq.
  destruct (unit_markers y); [done | exact Heq].
Qed.

(** *** The characters of a normalised text *)

Lemma norm_char_kept (c : ascii) : norm_char c = true → kept_char c = true.
Proof.
  destruct c as [[] [] [] [] [] [] [] []]; vm_compute; intros Hc;
    first [reflexivity | discriminate Hc].
Qed.

Lemma norm_char_upper (c : ascii) : norm_char c = true → Ascii.eqb (upper_ascii c) c = true.
Proof. now intros [_ Hc]%andb_true_iff. Qed.

Lemma norm_char_comma (c : ascii) : norm_char c = true → negb (Ascii.eqb c ",") = true.
Proof.
  destruct c as [[] [] [] [] [] [] [] []]; vm_compute; intros Hc;
    first [reflexivity | discriminate Hc].
Qed.

Lemma kept_upper_norm (c : ascii) :
  kept_char c = true → is_space (upper_ascii c) || norm_char (upper_ascii c) = true.
Proof.
  destruct c as [[] [] [] [] [] [] [] []]; vm_compute; intros Hc;
    first [reflexivity | discriminate Hc].
Qed.

Lemma remove_punc_chars (x : string) : chars_all kept_char (SpecModel.remove_punc x) = true.
Proof.
  induction x as [|c x IH]; [reflexivity|]. cbn [SpecModel.remove_punc].
  change (SpecModel.is_word c || is_space c || Ascii.eqb c "#" || Ascii.eqb c "/")
    with (kept_char c).
  destruct (kept_char c) eqn:E; [|exact IH]. cbn [chars_all]. now rewrite E, IH.
Qed.

Lemma remove_punc_fixed (x : string) :
  chars_all kept_char x = true → SpecModel.remove_punc x = x.
Proof.
  induction x as [|c x IH]; [reflexivity|]. cbn [chars_all SpecModel.remove_punc].
  change (SpecModel.is_word c || is_space c || Ascii.eqb c "#" || Ascii.eqb c "/")
    with (kept_char c).
  intros [-> Hx]%andb_true_iff. now rewrite IH.
Qed.

Lemma str_upper_kept (x : string) :
  chars_all kept_char x = true →
  chars_all (fun c => is_space c || norm_char c) (str_upper x) = true.
Proof.
  induction x as [|c x IH]; [reflexivity|]. cbn [chars_all str_upper].
  intros [Hc Hx]%andb_true_iff. now rewrite kept_upper_norm, IH.
Qed.

Lemma normalize_whitespace_chars (p : ascii → bool) (x : string) :
  p " "%char = true →
  chars_all (fun c => is_space c || p c) x = true →
  chars_all p (SpecModel.normalize_whitespace x) = true.
Proof.
  intros Hsp Hx. unfold SpecModel.normalize_whitespace. apply str_join_chars; [exact Hsp|].
  assert (Htok : Forall (fun t => t ≠ ""%string
                                  ∧ chars_all (fun c => negb (is_space c) && p c) t = true)
                   (str_split x)).
  { apply str_split_from_tokens; [reflexivity| |].
    - eapply chars_all_impl; [|exact Hx]. intros c. cbv beta. destruct (is_space c); simpl; auto.
    - intros c [Hc _]%andb_true_iff. now apply negb_true_iff. }
  eapply Forall_impl; [exact Htok|]. intros t [_ Ht].
  eapply chars_all_impl; [|exact Ht]. now intros c [_ Hc]%andb_true_iff.
Qed.

Lemma first_normal_chars (s : string) : chars_all norm_char (first_normal s) = true.
Proof.
  unfold first_normal. apply (normalize_whitespace_chars norm_char); [reflexivity|].
  apply str_upper_kept, remove_punc_chars.
Qed.

Lemma first_normal_tidy (s : string) : tidy (first_normal s) = true.
Proof. apply tidy_join, str_split_tokens. Qed.

Lemma unit_markers_chars (p : ascii → bool) (y : string) :
  chars_all p "APT " = true → chars_all p y = true →
  chars_all (fun c => p c && not_hash c) (unit_markers y) = true.
Proof.
  intros Hnew Hy. rewrite chars_all_and. unfold unit_markers, str_replace.
  assert (HA : chars_all p "APT" = true).
  { simpl in Hnew |- *. destruct (p "A"%char), (p "P"%char), (p "T"%char);
      first [reflexivity | discriminate Hnew]. }
  apply andb_true_iff. split.
  - apply str_replace_from_chars; [|exact HA].
    now apply str_replace_from_chars.
  - apply str_replace_from_chars; [|reflexivity]. now apply str_replace_hash.
Qed.

Lemma first_normal_of_norm (x : string) :
  chars_all norm_char x = true → first_normal x = SpecModel.normalize_whitespace x.
Proof.
  intros Hx. unfold first_normal. cbn [regex_normalize_whitespace regex_remove_punc
                                      SpecModel.collaborators].
  rewrite (str_replace_absent "," " " x).
  - rewrite remove_punc_fixed, str_upper_fixed; [reflexivity| |].
    + eapply chars_all_impl; [|exact Hx]. apply norm_char_upper.
    + eapply chars_all_impl; [|exact Hx]. apply norm_char_kept.
  - apply contains_char. eapply chars_all_impl; [|exact Hx]. apply norm_char_comma.
Qed.

Lemma unit_markers_of_plain (x : string) :
  chars_all not_hash x = true → contains "APT APT" x = false → unit_markers x = x.
Proof.
  intros Hx Hc. unfold unit_markers.
  rewrite (str_replace_absent "#" "APT " x) by now apply contains_char.
  now apply str_replace_absent.
Qed.

Lemma tokenize_eq (R : option Pattern) (s : string) :
  __tokenize__ R s
  = match R with
    | Some pat => SpecModel.sub pat city_repl (unit_markers (first_normal s))
    | None => unit_markers (first_normal s)
    end.
Proof. reflexivity. Qed.

(** Without a substitution of known cities. *)
Lemma unit_markers_stable (s : string) :
  hash_attached (first_normal s) = true →
  contains "APT APT" (unit_markers (first_normal s)) = false →
  unit_markers (first_normal (unit_markers (first_normal s))) = unit_markers (first_normal s).
Proof.
  intros Hh Hc. set (t := unit_markers (first_normal s)) in *.
  assert (Hchars : chars_all (fun c => norm_char c && not_hash c) t = true).
  { apply unit_markers_chars; [reflexivity | apply first_normal_chars]. }
  rewrite chars_all_and in Hchars. apply andb_true_iff in Hchars as [Hnorm Hhash].
  assert (Htidy : tidy t = true).
  { unfold t. now rewrite tidy_unit_markers by apply first_normal_tidy. }
  rewrite first_normal_of_norm by exact Hnorm.
  unfold SpecModel.normalize_whitespace. rewrite str_split_tidy by exact Htidy.
  now apply unit_markers_of_plain.
Qed.

(** *** The replacement of a known city *)

Lemma rev_app_rev_app (a b c : string) :
  String.rev_app (String.rev_app a b) c = String.rev_app b (a +:+ c).
Proof.
  revert b c. induction a as [|x a IH]; intros b c; [reflexivity|].
  simpl. rewrite IH. simpl. now rewrite string_app_cons.
Qed.

Lemma rev_rev (x : string) : String.rev (String.rev x) = x.
Proof. unfold String.rev. rewrite rev_app_rev_app. simpl. apply string_app_nil_r. Qed.

Lemma rev_app_head (x : string) (c : ascii) (acc : string) :
  ∃ r, String.rev_app x (String c acc) = String (last_char x c) r.
Proof.
  revert c acc. induction x as [|d x IH]; intros c acc; simpl; [eauto|]. apply IH.
Qed.

Lemma tidy_last (x : string) (c : ascii) (b : bool) :
  tidy_from b (String c x) = true → is_space (last_char x c) = false.
Proof.
  revert c b. induction x as [|d x IH]; intros c b Ht.
  - simpl in Ht |- *. destruct (is_space c); [|reflexivity].
    now rewrite andb_false_r in Ht.
  - cbn [last_char]. cbn [tidy_from] in Ht. destruct (is_space c).
    + apply andb_true_iff in Ht as [_ Ht]. exact (IH d true Ht).
    + exact (IH d false Ht).
Qed.

Lemma str_strip_tidy (x : string) : tidy_from true x = true → str_strip x = x.
Proof.
  intros Ht. destruct x as [|c x]; [discriminate|].
  assert (Hc : is_space c = false).
  { simpl in Ht. now destruct (is_space c). }
  unfold str_strip. cbn [str_lstrip]. rewrite Hc.
  destruct (rev_app_head x c "") as [r Hr].
  unfold String.rev at 2. cbn [String.rev_app]. rewrite Hr. cbn [str_lstrip].
  rewrite (tidy_last x c true Ht), <- Hr.
  change (String.rev_app x (String c "")) with (String.rev (String c x)).
  apply rev_rev.
Qed.

Lemma str_replace_space_token (t r : string) :
  chars_all (fun c => negb (is_space c)) t = true →
  str_replace " " "_" (t +:+ r) = (t +:+ str_replace " " "_" r)%string.
Proof.
  induction t as [|c t IH]; intros Ht; [reflexivity|].
  simpl in Ht. apply andb_true_iff in Ht as [Hc Ht]. apply negb_true_iff in Hc.
  rewrite !string_app_cons, str_replace_miss, IH by
    (try done; apply prefix_head_miss; intros <-; discriminate).
  reflexivity.
Qed.

Lemma str_join_cons (sep t t2 : string) (ts : list string) :
  str_join sep (t :: t2 :: ts) = (t +:+ sep +:+ str_join sep (t2 :: ts))%string.
Proof. reflexivity. Qed.

Lemma str_replace_join (xs : list string) :
  Forall token xs → str_replace " " "_" (str_join " " xs) = str_join "_" xs.
Proof.
  induction 1 as [|t ts [Hne Ht] Hts IH]; [reflexivity|].
  destruct ts as [|t2 ts].
  - simpl. rewrite <- (string_app_nil_r t) at 1.
    rewrite str_replace_space_token by done. apply string_app_nil_r.
  - rewrite !str_join_cons, str_replace_space_token by done.
    rewrite (str_replace_match " " "" "_"), IH. reflexivity.
Qed.

Lemma city_core_join (xs : list string) :
  Forall token xs → xs ≠ [] → city_core (str_join " " xs) = str_join "_" xs.
Proof.
  intros Hxs Hne. unfold city_core.
  rewrite str_strip_tidy by now apply tidy_from_join.
  now apply str_replace_join.
Qed.

Lemma city_repl_core (x : string) : city_repl x = (" " +:+ city_core x +:+ " ")%string.
Proof. reflexivity. Qed.

Lemma str_join_sep_chars (p : ascii → bool) (sep : string) (ts : list string) :
  chars_all p sep = true → Forall (fun t => chars_all p t = true) ts →
  chars_all p (str_join sep ts) = true.
Proof.
  intros Hsp. induction 1 as [|t ts Ht Hts IH]; [reflexivity|].
  destruct ts as [|t2 ts]; [exact Ht|].
  now rewrite str_join_cons, !chars_all_app, Ht, Hsp, IH.
Qed.

Lemma str_join_nonempty (sep : string) (xs : list string) :
  Forall token xs → xs ≠ [] → str_join sep xs ≠ ""%string.
Proof.
  intros Hxs Hne. destruct Hxs as [|t ts [Ht _] Hts]; [done|].
  destruct ts; [exact Ht|]. rewrite str_join_cons. destruct t; [done | discriminate].
Qed.

Lemma token_join (xs : list string) :
  Forall token xs → xs ≠ [] → token (str_join "_" xs).
Proof.
  intros Hxs Hne. split; [now apply str_join_nonempty|].
  apply str_join_sep_chars; [reflexivity|].
  eapply Forall_impl; [exact Hxs|]. now intros t [_ Ht].
Qed.

(** Splitting a text made of tokens of which some stand between two
    spaces. *)
Lemma str_split_from_space (rest : string) :
  str_split_from "" (String " " rest) = str_split_from "" rest.
Proof. reflexivity. Qed.

Lemma str_split_token_sep (c rest : string) :
  token c → str_split_from "" (c +:+ String " " rest) = c :: str_split_from "" rest.
Proof.
  intros [Hne Hc]. rewrite str_split_from_token by exact Hc.
  rewrite string_app_nil_l. cbn [str_split_from]. change (is_space " ") with true.
  cbv iota. apply String.eqb_neq in Hne. now rewrite Hne.
Qed.

Lemma str_split_padded_sep (g c rest : string) :
  padded g c → str_split_from "" (g +:+ String " " rest) = c :: str_split_from "" rest.
Proof.
  intros [Hc [->| ->]]; [now apply str_split_token_sep|].
  rewrite !string_app_assoc.
  change (" " +:+ c +:+ " " +:+ String " " rest)%string
    with (String " " (c +:+ String " " (String " " rest))).
  rewrite str_split_from_space, str_split_token_sep by exact Hc.
  now rewrite str_split_from_space.
Qed.

Lemma str_split_padded_end (g c : string) : padded g c → str_split_from "" g = [c].
Proof.
  intros Hp. pose proof (str_split_padded_sep g c "" Hp) as Hs.
  destruct Hp as [Hc [->| ->]].
  - destruct Hc as [Hne Hc]. rewrite <- (string_app_nil_r c) at 1.
    rewrite str_split_from_token by exact Hc. rewrite string_app_nil_l. simpl.
    apply String.eqb_neq in Hne. now rewrite Hne.
  - change (" " +:+ c +:+ " ")%string with (String " " (c +:+ String " " "")).
    rewrite str_split_from_space. now rewrite str_split_token_sep.
Qed.

Lemma str_split_padded (G cs : list string) :
  Forall2 padded G cs → str_split (str_join " " G) = cs.
Proof.
  unfold str_split. induction 1 as [|g c G cs Hp HG IH]; [reflexivity|].
  destruct G as [|g2 G].
  - inversion HG; subst. simpl. now apply str_split_padded_end.
  - rewrite str_join_cons.
    change (g +:+ " " +:+ str_join " " (g2 :: G))%string
      with (g +:+ String " " (str_join " " (g2 :: G)))%string.
    rewrite (str_split_padded_sep g c) by exact Hp. now rewrite IH.
Qed.

(** *** Matching a known city *)

Lemma alt_of_nil : alt_of "" = ""%string.
Proof. reflexivity. Qed.

Lemma alt_of_space (k : string) : alt_of (String " " k) = ("[\s_]" +:+ alt_of k)%string.
Proof. unfold alt_of. apply (str_replace_match " " "" "[\s_]" k). Qed.

Lemma alt_of_other (c : ascii) (k : string) :
  c ≠ " "%char → alt_of (String c k) = String c (alt_of k).
Proof.
  intros Hc. unfold alt_of. apply str_replace_miss, prefix_head_miss. congruence.
Qed.

Lemma substring_all (r : string) : String.substring 0 (String.length r) r = r.
Proof. induction r as [|c r IH]; [reflexivity|]. simpl. now rewrite IH. Qed.

Lemma norm_char_plain (c : ascii) :
  norm_char c = true → c ≠ "["%char ∧ c ≠ "\"%char.
Proof.
  destruct c as [[] [] [] [] [] [] [] []]; vm_compute; intros Hc;
    first [discriminate Hc | split; discriminate].
Qed.

Lemma literal_match_alt_of (k : string) (fuel : nat) (x : string) :
  chars_all norm_char k = true →
  (String.length (alt_of k) < fuel)%nat →
  SpecModel.literal_match fuel (alt_of k) x = kmatch k x.
Proof.
  revert fuel x. induction k as [|kc k IH]; intros fuel x Hk Hfuel;
    (destruct fuel as [|fuel]; [lia|]).
  - now destruct x.
  - cbn [chars_all] in Hk. apply andb_true_iff in Hk as [Hkc Hk].
    destruct (Ascii.eqb kc " ") eqn:Esp.
    + apply Ascii.eqb_eq in Esp. subst kc. rewrite alt_of_space in Hfuel |- *.
      rewrite string_length_app in Hfuel. simpl in Hfuel.
      cbn [SpecModel.literal_match]. rewrite prefix_app.
      destruct x as [|c x]; [reflexivity|].
      cbn [kmatch]. change (Ascii.eqb " " " ") with true. cbv iota.
      f_equal.
      replace (String.substring 5 (String.length ("[\s_]" +:+ alt_of k) - 5)
                 ("[\s_]" +:+ alt_of k))
        with (alt_of k).
      * apply IH; [exact Hk | lia].
      * rewrite string_length_app. simpl String.length.
        replace (5 + String.length (alt_of k) - 5)%nat with (String.length (alt_of k)) by lia.
        change (String.substring 5 (String.length (alt_of k)) ("[\s_]" +:+ alt_of k))
          with (String.substring 0 (String.length (alt_of k)) (alt_of k)).
        now rewrite substring_all.
    + assert (Hne : kc ≠ " "%char) by now apply Ascii.eqb_neq.
      destruct (norm_char_plain kc Hkc) as [Hbr _].
      rewrite alt_of_other in Hfuel |- * by exact Hne. simpl in Hfuel.
      cbn [SpecModel.literal_match].
      rewrite prefix_head_miss by congruence.
      destruct x as [|c x]; [reflexivity|].
      cbn [kmatch]. rewrite Esp. f_equal. apply IH; [exact Hk | lia].
Qed.

Lemma alt_match_alt_of (k x : string) :
  chars_all norm_char k = true → SpecModel.alt_match (alt_of k) x = kmatch k x.
Proof.
  intros Hk. unfold SpecModel.alt_match.
  replace (String.eqb (alt_of k) "\w+") with false.
  - apply literal_match_alt_of; [exact Hk | lia].
  - symmetry. apply String.eqb_neq. destruct k as [|kc k]; [discriminate|].
    cbn [chars_all] in Hk. apply andb_true_iff in Hk as [Hkc Hk].
    destruct (norm_char_plain kc Hkc) as [_ Hbs].
    destruct (Ascii.eqb kc " ") eqn:Esp.
    + apply Ascii.eqb_eq in Esp. subst kc. rewrite alt_of_space. discriminate.
    + rewrite alt_of_other by now apply Ascii.eqb_neq. congruence.
Qed.

Lemma us_eq_refl (a : string) : us_eq a a = true.
Proof. induction a as [|c a IH]; [reflexivity|]. simpl. now rewrite Ascii.eqb_refl, IH. Qed.

Lemma us_eq_app (a a' b b' : string) :
  us_eq a a' = true → us_eq b b' = true → us_eq (a +:+ b) (a' +:+ b') = true.
Proof.
  revert a'. induction a as [|c a IH]; intros [|c' a'] Ha Hb; try discriminate; [exact Hb|].
  rewrite !string_app_cons. simpl in Ha |- *.
  apply andb_true_iff in Ha as [-> Ha]. simpl. now apply IH.
Qed.

Lemma us_eq_join (xs : list string) : us_eq (str_join "_" xs) (str_join " " xs) = true.
Proof.
  induction xs as [|t ts IH]; [reflexivity|].
  destruct ts as [|t2 ts]; [apply us_eq_refl|].
  rewrite !str_join_cons. apply us_eq_app; [apply us_eq_refl|].
  apply us_eq_app; [reflexivity | exact IH].
Qed.

Lemma kmatch_us_eq (k a b : string) :
  chars_all not_underscore k = true → us_eq a b = true → kmatch k a = kmatch k b.
Proof.
  revert a b. induction k as [|kc k IH]; intros [|c a] [|d b] Hk Hab;
    try discriminate; try reflexivity.
  cbn [chars_all] in Hk. apply andb_true_iff in Hk as [Hkc Hk].
  simpl in Hab. apply andb_true_iff in Hab as [Hcd Hab].
  cbn [kmatch]. rewrite (IH a b Hk Hab). f_equal.
  apply orb_true_iff in Hcd as [Hcd|Hcd].
  - apply Ascii.eqb_eq in Hcd. now subst d.
  - apply andb_true_iff in Hcd as [Hc Hd]. unfold sp_us in Hc, Hd.
    unfold not_underscore in Hkc. apply negb_true_iff, Ascii.eqb_neq in Hkc.
    apply orb_true_iff in Hc as [Hc|Hc], Hd as [Hd|Hd];
      apply Ascii.eqb_eq in Hc, Hd; subst c d;
      destruct (Ascii.eqb kc " ") eqn:Esp; try reflexivity;
      apply Ascii.eqb_neq in Esp;
      repeat match goal with
             | |- context [Ascii.eqb kc ?x] =>
                 replace (Ascii.eqb kc x) with false by (symmetry; now apply Ascii.eqb_neq)
             end; reflexivity.
Qed.

(** An alternation whose alternatives come from normalised city names
    without underscore does not tell a space from an underscore. *)
Lemma city_alts_us_eq (ks : list string) (x y : string) :
  Forall (fun k => chars_all norm_char k = true ∧ chars_all not_underscore k = true) ks →
  us_eq x y = true →
  existsb (fun alt => SpecModel.alt_match alt x) (map alt_of ks)
  = existsb (fun alt => SpecModel.alt_match alt y) (map alt_of ks).
Proof.
  intros Hks Hxy. induction Hks as [|k ks [Hn Hu] Hks IH]; [reflexivity|].
  cbn [map existsb]. rewrite IH, !alt_match_alt_of by exact Hn.
  now rewrite (kmatch_us_eq k x y Hu Hxy).
Qed.

(** *** The substitution of known cities, twice *)

Lemma city_run_spec (alts ts : list string) (m : nat) :
  match SpecModel.city_run alts ts m with
  | Some n => (1 <= n <= m)%nat ∧ city_at alts ts n = true
              ∧ ∀ k, (n < k <= m)%nat → city_at alts ts k = false
  | None => ∀ k, (1 <= k <= m)%nat → city_at alts ts k = false
  end.
Proof.
  induction m as [|m IH]; [intros k Hk; lia|].
  cbn [SpecModel.city_run]. fold (city_at alts ts (S m)).
  destruct (city_at alts ts (S m)) eqn:E.
  - split; [lia|]. split; [exact E|]. intros k Hk. lia.
  - destruct (SpecModel.city_run alts ts m) as [n|].
    + destruct IH as (Hn & Hc & Hmax). split; [lia|]. split; [exact Hc|].
      intros k Hk. destruct (decide (k = S m)) as [->|]; [exact E | apply Hmax; lia].
    + intros k Hk. destruct (decide (k = S m)) as [->|]; [exact E | apply IH; lia].
Qed.

Lemma city_run_Some (alts ts : list string) (m n : nat) :
  (1 <= n <= m)%nat → city_at alts ts n = true →
  (∀ k, (n < k <= m)%nat → city_at alts ts k = false) →
  SpecModel.city_run alts ts m = Some n.
Proof.
  intros Hn Hc Hmax. pose proof (city_run_spec alts ts m) as Hs.
  destruct (SpecModel.city_run alts ts m) as [n'|].
  - destruct Hs as (Hn' & Hc' & Hmax'). f_equal.
    destruct (lt_eq_lt_dec n n') as [[Hlt|Heq]|Hgt]; [|exact (eq_sym Heq)|].
    + rewrite Hmax in Hc' by lia. discriminate.
    + rewrite Hmax' in Hc by lia. discriminate.
  - rewrite Hs in Hc by lia. discriminate.
Qed.

Lemma city_run_None (alts ts : list string) (m : nat) :
  (∀ k, (1 <= k <= m)%nat → city_at alts ts k = false) →
  SpecModel.city_run alts ts m = None.
Proof.
  intros Hno. pose proof (city_run_spec alts ts m) as Hs.
  destruct (SpecModel.city_run alts ts m) as [n|]; [|reflexivity].
  destruct Hs as (Hn & Hc & _). rewrite Hno in Hc by lia. discriminate.
Qed.

Lemma sub_tokens_skip (alts : list string) (repl : string → string) (k : nat)
    (ts : list string) :
  SpecModel.sub_tokens alts repl k ts = SpecModel.sub_tokens alts repl 0 (drop k ts).
Proof.
  revert k. induction ts as [|t ts IH]; intros k; [now destruct k|].
  destruct k as [|k]; [reflexivity|]. cbn [SpecModel.sub_tokens drop]. apply IH.
Qed.

Lemma sub_tokens_step (alts : list string) (repl : string → string) (t : string)
    (ts : list string) :
  SpecModel.sub_tokens alts repl 0 (t :: ts)
  = match SpecModel.city_run alts (t :: ts) (length (t :: ts)) with
    | Some n => repl (str_join " " (take n (t :: ts)))
                :: SpecModel.sub_tokens alts repl 0 (drop n (t :: ts))
    | None => t :: SpecModel.sub_tokens alts repl 0 ts
    end.
Proof.
  cbn [SpecModel.sub_tokens].
  pose proof (city_run_spec alts (t :: ts) (length (t :: ts))) as Hs.
  destruct (SpecModel.city_run alts (t :: ts) (length (t :: ts))) as [n|]; [|reflexivity].
  destruct Hs as (Hn & _). f_equal. rewrite sub_tokens_skip.
  destruct n as [|n]; [lia|]. simpl. now rewrite Nat.sub_0_r.
Qed.

Lemma take_tokens (n : nat) (us : list string) : Forall token us → Forall token (take n us).
Proof. intros Hus. apply Forall_take, Hus. Qed.

Lemma sub_tokens_padded (alts : list string) (n : nat) (us : list string) :
  (length us <= n)%nat → Forall token us →
  Forall2 padded (SpecModel.sub_tokens alts city_repl 0 us)
    (SpecModel.sub_tokens alts city_core 0 us).
Proof.
  revert us. induction n as [|n IH]; intros us Hlen Hus.
  - destruct us; [constructor | simpl in Hlen; lia].
  - destruct us as [|t ts]; [constructor|].
    rewrite !sub_tokens_step.
    pose proof (city_run_spec alts (t :: ts) (length (t :: ts))) as Hs.
    destruct (SpecModel.city_run alts (t :: ts) (length (t :: ts))) as [k|].
    + destruct Hs as (Hk & _). constructor.
      * rewrite city_repl_core. split; [|now right].
        rewrite city_core_join; [|now apply take_tokens|].
        -- apply token_join; [now apply take_tokens|]. destruct k; [lia | discriminate].
        -- destruct k; [lia | discriminate].
      * apply IH; [|now apply Forall_drop].
        rewrite length_drop. simpl in Hlen |- *. lia.
    + constructor.
      * split; [|now left]. now inversion Hus.
      * apply IH; [simpl in Hlen; lia | now inversion Hus].
Qed.

Lemma grouping_sub_tokens (alts : list string) (n : nat) (us : list string) :
  (length us <= n)%nat → Forall token us →
  grouping us (SpecModel.sub_tokens alts city_core 0 us).
Proof.
  revert us. induction n as [|n IH]; intros us Hlen Hus.
  - destruct us; [constructor | simpl in Hlen; lia].
  - destruct us as [|t ts]; [constructor|].
    rewrite sub_tokens_step.
    pose proof (city_run_spec alts (t :: ts) (length (t :: ts))) as Hs.
    destruct (SpecModel.city_run alts (t :: ts) (length (t :: ts))) as [k|].
    + destruct Hs as (Hk & _).
      assert (Hne : take k (t :: ts) ≠ []) by (destruct k; [lia | discriminate]).
      rewrite city_core_join by (try done; now apply take_tokens).
      rewrite <- (take_drop k (t :: ts)) at 1.
      constructor; [exact Hne|].
      apply IH; [|now apply Forall_drop].
      rewrite length_drop. simpl in Hlen |- *. lia.
    + change (t :: ts) with ([t] ++ ts) at 1.
      change t with (str_join "_" [t]) at 2.
      constructor; [discriminate|].
      apply IH; [simpl in Hlen; lia | now inversion Hus].
Qed.

Lemma str_join_app (xs l : list string) :
  xs ≠ [] → l ≠ [] →
  str_join " " (xs ++ l) = (str_join " " xs +:+ " " +:+ str_join " " l)%string.
Proof.
  intros Hxs Hl. induction xs as [|x xs IH]; [done|].
  destruct xs as [|x2 xs].
  - destruct l as [|y l]; [done|]. reflexivity.
  - change ((x :: x2 :: xs) ++ l) with (x :: x2 :: (xs ++ l)).
    rewrite !str_join_cons. change (x2 :: xs ++ l) with ((x2 :: xs) ++ l).
    rewrite IH by discriminate. now rewrite !string_app_assoc.
Qed.

Lemma take_nil_iff {A} (l : list A) (n : nat) :
  (n <= length l)%nat → take n l = [] ↔ n = 0%nat.
Proof.
  intros Hn. split; [|now intros ->].
  destruct n; [done|]. destruct l; [simpl in Hn; lia | discriminate].
Qed.

Lemma us_eq_run (xs l1 l2 : list string) :
  xs ≠ [] → (l1 = [] ↔ l2 = []) →
  us_eq (str_join " " l1) (str_join " " l2) = true →
  us_eq (str_join " " (str_join "_" xs :: l1)) (str_join " " (xs ++ l2)) = true.
Proof.
  intros Hxs Hnil Heq. destruct l1 as [|c1 l1].
  - rewrite (proj1 Hnil eq_refl), app_nil_r. simpl. apply us_eq_join.
  - assert (Hl2 : l2 ≠ []) by (intros Hl2; now apply Hnil in Hl2).
    rewrite str_join_app, str_join_cons by done.
    apply us_eq_app; [apply us_eq_join|].
    apply us_eq_app; [reflexivity | exact Heq].
Qed.

Lemma grouping_expand (us cs : list string) :
  grouping us cs →
  ∀ m, (m <= length cs)%nat →
    ∃ M, (m <= M <= length us)%nat ∧ (m = 0%nat → M = 0%nat)
         ∧ us_eq (str_join " " (take m cs)) (str_join " " (take M us)) = true.
Proof.
  induction 1 as [|xs us cs Hxs Hg IH]; intros m Hm.
  - exists 0%nat. simpl in Hm. assert (m = 0%nat) as -> by lia. repeat split; lia.
  - destruct m as [|m]; [exists 0%nat; repeat split; simpl; lia|].
    simpl in Hm. destruct (IH m ltac:(lia)) as (M & HM & H0 & Heq).
    exists (length xs + M)%nat.
    split; [rewrite length_app; destruct xs; [done | simpl; lia]|].
    split; [lia|].
    rewrite take_app_add' by reflexivity. cbn [take].
    apply us_eq_run; [exact Hxs | | exact Heq].
    rewrite !take_nil_iff by lia. split; [exact H0 | lia].
Qed.

Section CityTwice.
Variable alts : list string.
Hypothesis Hinv : ∀ x y, us_eq x y = true →
  existsb (fun alt => SpecModel.alt_match alt x) alts
  = existsb (fun alt => SpecModel.alt_match alt y) alts.

Lemma city_at_expand (xs us cs : list string) (m : nat) :
  xs ≠ [] → grouping us cs → (1 <= m <= S (length cs))%nat →
  ∃ M, (m - 1 <= M <= length us)%nat ∧ (m = 1%nat → M = 0%nat)
       ∧ city_at alts (str_join "_" xs :: cs) m = city_at alts (xs ++ us) (length xs + M).
Proof.
  intros Hxs Hg Hm. destruct m as [|m]; [lia|].
  destruct (grouping_expand us cs Hg m ltac:(lia)) as (M & HM & H0 & Heq).
  exists M. split; [lia|]. split; [intros [= ->]; auto|].
  unfold city_at. apply Hinv.
  rewrite take_app_add' by reflexivity. cbn [take].
  apply us_eq_run; [exact Hxs | | exact Heq].
  rewrite !take_nil_iff by lia. split; [exact H0 | lia].
Qed.

Lemma city_core_token (c : string) : token c → city_core c = c.
Proof.
  intros Hc. change c with (str_join " " [c]) at 1.
  rewrite city_core_join; [reflexivity | now constructor | discriminate].
Qed.

Lemma sub_tokens_twice (n : nat) (us : list string) :
  (length us <= n)%nat → Forall token us →
  SpecModel.sub_tokens alts city_repl 0 (SpecModel.sub_tokens alts city_core 0 us)
  = SpecModel.sub_tokens alts city_repl 0 us.
Proof.
  revert us. induction n as [|n IH]; intros us Hlen Hus.
  - destruct us; [reflexivity | simpl in Hlen; lia].
  - destruct us as [|t ts]; [reflexivity|].
    rewrite (sub_tokens_step alts city_core t ts), (sub_tokens_step alts city_repl t ts).
    pose proof (city_run_spec alts (t :: ts) (length (t :: ts))) as Hs.
    destruct (SpecModel.city_run alts (t :: ts) (length (t :: ts))) as [k|].
    + destruct Hs as (Hk & Hc & Hmax).
      remember (take k (t :: ts)) as xs eqn:Exs.
      remember (drop k (t :: ts)) as us' eqn:Eus.
      assert (Hxs : xs ≠ []) by (subst xs; destruct k; [lia | discriminate]).
      assert (Htx : Forall token xs) by (subst xs; now apply Forall_take).
      assert (Hus' : Forall token us') by (subst us'; now apply Forall_drop).
      assert (Hlen' : (length us' <= n)%nat).
      { subst us'. rewrite length_drop. simpl in Hlen |- *. lia. }
      assert (Hlu : (length (t :: ts) = k + length us')%nat).
      { subst us'. rewrite length_drop. lia. }
      assert (Hsplit : t :: ts = xs ++ us') by (subst; symmetry; apply take_drop).
      assert (Hlx : length xs = k) by (subst xs; apply length_take_le; lia).
      rewrite city_repl_core, city_core_join by done.
      pose proof (grouping_sub_tokens alts n us' Hlen' Hus') as Hg.
      remember (SpecModel.sub_tokens alts city_core 0 us') as cs' eqn:Ecs.
      assert (Hlc : (length cs' <= length us')%nat).
      { destruct (grouping_expand us' cs' Hg (length cs') (le_n _)) as (M & HM & _). lia. }
      rewrite sub_tokens_step.
      assert (Hrun : SpecModel.city_run alts (str_join "_" xs :: cs')
                       (length (str_join "_" xs :: cs')) = Some 1%nat).
      { apply city_run_Some; [simpl; lia | |].
        - destruct (city_at_expand xs us' cs' 1 Hxs Hg ltac:(simpl; lia)) as (M & HM & H0 & ->).
          rewrite (H0 eq_refl), Nat.add_0_r, <- Hsplit, Hlx. exact Hc.
        - intros m Hm.
          destruct (city_at_expand xs us' cs' m Hxs Hg ltac:(simpl in Hm; lia))
            as (M & HM & _ & ->).
          rewrite <- Hsplit, Hlx. apply Hmax. lia. }
      rewrite Hrun. cbn [take drop].
      change (str_join " " [str_join "_" xs]) with (str_join "_" xs).
      rewrite city_repl_core, city_core_token by now apply token_join.
      f_equal. subst cs'. now apply IH.
    + assert (Hts : Forall token ts) by now inversion Hus.
      assert (Hlen' : (length ts <= n)%nat) by (simpl in Hlen; lia).
      pose proof (grouping_sub_tokens alts n ts Hlen' Hts) as Hg.
      remember (SpecModel.sub_tokens alts city_core 0 ts) as cs' eqn:Ecs.
      rewrite sub_tokens_step.
      assert (Hrun : SpecModel.city_run alts (t :: cs') (length (t :: cs')) = None).
      { apply city_run_None. intros m Hm.
        change (city_at alts (t :: cs') m) with (city_at alts (str_join "_" [t] :: cs') m).
        destruct (city_at_expand [t] ts cs' m ltac:(discriminate) Hg ltac:(simpl in Hm; lia))
          as (M & HM & _ & ->).
        apply Hs. simpl. lia. }
      rewrite Hrun. f_equal. subst cs'. now apply IH.
Qed.

Lemma str_split_chars (p : ascii → bool) (x : string) :
  chars_all p x = true → Forall (fun t => chars_all p t = true) (str_split x).
Proof.
  intros Hx.
  assert (Htok : Forall (fun t => t ≠ ""%string
                                  ∧ chars_all (fun c => negb (is_space c) && p c) t = true)
                   (str_split x)).
  { apply str_split_from_tokens; [reflexivity| |].
    - eapply chars_all_impl; [|exact Hx]. intros c Hc. cbv beta. rewrite Hc.
      now destruct (is_space c).
    - intros c [Hc _]%andb_true_iff. now apply negb_true_iff. }
  eapply Forall_impl; [exact Htok|]. intros t [_ Ht].
  eapply chars_all_impl; [|exact Ht]. now intros c [_ Hc]%andb_true_iff.
Qed.

Lemma grouping_chars (p : ascii → bool) (us cs : list string) :
  p "_"%char = true → grouping us cs →
  Forall (fun t => chars_all p t = true) us → Forall (fun t => chars_all p t = true) cs.
Proof.
  intros Hus. induction 1 as [|xs us cs Hxs Hg IH]; intros Hall; [constructor|].
  apply Forall_app in Hall as [Hx Hu]. constructor; [|now apply IH].
  apply str_join_sep_chars; [|exact Hx]. simpl. now rewrite Hus.
Qed.

Lemma padded_chars (p : ascii → bool) (G cs : list string) :
  p " "%char = true → Forall2 padded G cs →
  Forall (fun t => chars_all p t = true) cs → Forall (fun t => chars_all p t = true) G.
Proof.
  intros Hsp. induction 1 as [|g c G cs [_ Hg] HG IH]; intros Hall; [constructor|].
  inversion Hall as [|? ? Hc Hcs]; subst. constructor; [|now apply IH].
  destruct Hg as [->| ->]; [exact Hc|].
  rewrite !chars_all_app, Hc. simpl. now rewrite Hsp.
Qed.

(** A second normalisation of a text in which the known cities have been
    replaced, when the text before the replacement was tidy. *)
Lemma city_sub_stable (a : string) (alts' : list string) (t0 : string) :
  alts = a :: alts' →
  tidy t0 = true →
  chars_all (fun c => norm_char c && not_hash c) t0 = true →
  let R := re_compile_or_ alts in
  contains "APT APT" (SpecModel.normalize_whitespace (SpecModel.sub R city_repl t0)) = false →
  SpecModel.sub R city_repl (unit_markers (first_normal (SpecModel.sub R city_repl t0)))
  = SpecModel.sub R city_repl t0.
Proof.
  intros Ealts Htidy Hchars R. subst R.
  assert (Hsub : ∀ x, SpecModel.sub (re_compile_or_ alts) city_repl x
                      = str_join " " (SpecModel.sub_tokens alts city_repl 0 (str_split x))).
  { intros x. now rewrite Ealts. }
  rewrite !Hsub.
  pose proof (str_split_tokens t0) as Hus.
  pose proof (str_split_chars _ t0 Hchars) as Huc.
  remember (str_split t0) as us eqn:Eus.
  pose proof (sub_tokens_padded alts _ us (le_n _) Hus) as Hpad.
  pose proof (grouping_sub_tokens alts _ us (le_n _) Hus) as Hg.
  pose proof (sub_tokens_twice _ us (le_n _) Hus) as Htwice.
  remember (SpecModel.sub_tokens alts city_repl 0 us) as G eqn:EG.
  remember (SpecModel.sub_tokens alts city_core 0 us) as cs eqn:Ecs.
  assert (Hcc : Forall (fun t => chars_all (fun c => norm_char c && not_hash c) t = true) cs).
  { now apply (grouping_chars _ us). }
  assert (HGc : Forall (fun t => chars_all (fun c => norm_char c && not_hash c) t = true) G).
  { now apply (padded_chars _ G cs). }
  assert (Hct : Forall token cs).
  { clear -Hpad. induction Hpad as [|g c G cs [Hc _] _ IH]; constructor; assumption. }
  assert (Hnorm : SpecModel.normalize_whitespace (str_join " " G) = str_join " " cs).
  { unfold SpecModel.normalize_whitespace. now rewrite (str_split_padded G cs). }
  rewrite Hnorm. intros Hapt.
  assert (HcG : chars_all (fun c => norm_char c && not_hash c) (str_join " " G) = true).
  { now apply str_join_chars. }
  assert (Hcj : chars_all (fun c => norm_char c && not_hash c) (str_join " " cs) = true).
  { now apply str_join_chars. }
  rewrite chars_all_and in HcG, Hcj.
  apply andb_true_iff in HcG as [HGn _], Hcj as [_ Hjh].
  rewrite first_normal_of_norm, Hnorm by exact HGn.
  rewrite unit_markers_of_plain by assumption.
  rewrite str_split_join.
  - now rewrite Htwice.
  - exact Hct.
Qed.
End CityTwice.

(** *** Idempotence *)

Lemma remove_punc_sub (p : ascii → bool) (x : string) :
  chars_all p x = true → chars_all p (SpecModel.remove_punc x) = true.
Proof.
  induction x as [|c x IH]; [reflexivity|]. cbn [chars_all SpecModel.remove_punc].
  intros [Hc Hx]%andb_true_iff.
  destruct (SpecModel.is_word c || is_space c || Ascii.eqb c "#" || Ascii.eqb c "/");
    [|now apply IH].
  cbn [chars_all]. now rewrite Hc, IH.
Qed.

Lemma str_upper_closed (p : ascii → bool) (x : string) :
  (∀ c, p c = true → p (upper_ascii c) = true) →
  chars_all p x = true → chars_all p (str_upper x) = true.
Proof.
  intros Hp. induction x as [|c x IH]; [reflexivity|]. cbn [chars_all str_upper].
  intros [Hc Hx]%andb_true_iff. now rewrite Hp, IH.
Qed.

Lemma upper_ascii_underscore (c : ascii) :
  not_underscore c = true → not_underscore (upper_ascii c) = true.
Proof.
  destruct c as [[] [] [] [] [] [] [] []]; vm_compute; intros Hc;
    first [reflexivity | discriminate Hc].
Qed.

Lemma tokenize_none_chars (p : ascii → bool) (s : string) :
  chars_all p "APT " = true →
  (∀ c, p c = true → p (upper_ascii c) = true) →
  chars_all p s = true → chars_all p (__tokenize__ None s) = true.
Proof.
  intros Hnew Hup Hs. rewrite tokenize_eq.
  assert (Hsp : p " "%char = true).
  { simpl in Hnew. destruct (p " "%char); [reflexivity|]. now rewrite !andb_false_r in Hnew. }
  assert (Hchars : chars_all (fun c => p c && not_hash c) (unit_markers (first_normal s)) = true).
  { apply unit_markers_chars; [exact Hnew|]. unfold first_normal.
    apply (normalize_whitespace_chars p); [exact Hsp|].
    apply (chars_all_impl p); [intros c Hc; cbv beta; rewrite Hc; apply orb_true_r|].
    apply str_upper_closed; [exact Hup|]. apply remove_punc_sub.
    apply str_replace_from_chars; [exact Hs|]. simpl. now rewrite Hsp. }
  rewrite chars_all_and in Hchars. now apply andb_true_iff in Hchars as [Hp _].
Qed.

Lemma known_cities_R_init (known_cities : list string) :
  known_cities_R (Parser_init known_cities)
  = re_compile_or_
      (map alt_of (map (__tokenize__ None) (filter (fun c => c ≠ ""%string) known_cities))).
Proof.
  unfold Parser_init. now destruct (filter (fun c => c ≠ ""%string) known_cities).
Qed.

Lemma hash_attached_plain (x : string) : chars_all not_hash x = true → hash_attached x = true.
Proof.
  induction x as [|c x IH]; [reflexivity|]. cbn [chars_all hash_attached].
  intros [Hc Hx]%andb_true_iff. unfold not_hash in Hc. now rewrite Hc, IH.
Qed.

Lemma str_replace_apt_length (n : nat) (x : string) :
  (String.length x <= n)%nat →
  (String.length (str_replace "APT APT" "APT" x) <= String.length x)%nat
  ∧ (contains "APT APT" x = true →
     (String.length (str_replace "APT APT" "APT" x) < String.length x)%nat).
Proof.
  revert x. induction n as [|n IH]; intros x Hlen.
  - destruct x; [split; [reflexivity | discriminate] | simpl in Hlen; lia].
  - destruct x as [|c x]; [split; [reflexivity | discriminate]|].
    destruct (String.prefix "APT APT" (String c x)) eqn:Ep.
    + apply prefix_inv in Ep. remember (str_drop _ (String c x)) as r eqn:Er. clear Er.
      rewrite Ep in Hlen |- *. rewrite str_replace_match, !string_length_app in *.
      simpl String.length in *. destruct (IH r ltac:(lia)) as [Hle _]. lia.
    + rewrite str_replace_miss by exact Ep. simpl in Hlen.
      destruct (IH x ltac:(lia)) as [Hle Hlt].
      cbn [contains]. rewrite Ep. cbn [orb String.length]. split; [lia|].
      intros Hc. specialize (Hlt Hc). lia.
Qed.

Lemma str_replace_apt_fixed (x : string) :
  str_replace "APT APT" "APT" x = x → contains "APT APT" x = false.
Proof.
  intros Hx. destruct (contains "APT APT" x) eqn:E; [|reflexivity].
  destruct (str_replace_apt_length _ x (le_n _)) as [_ Hlt].
  specialize (Hlt E). rewrite Hx in Hlt. lia.
Qed.

(** Without known cities the two conditions are also necessary. *)
Lemma tokenize_none_idempotent (s : string) :
  __tokenize__ None (__tokenize__ None s) = __tokenize__ None s
  ↔ hash_attached (first_normal s) = true ∧ contains "APT APT" (__tokenize__ None s) = false.
Proof.
  rewrite !tokenize_eq. set (t := unit_markers (first_normal s)).
  split; [|intros [Hh Hc]; now apply unit_markers_stable].
  intros Hid.
  assert (Hchars : chars_all (fun c => norm_char c && not_hash c) t = true).
  { apply unit_markers_chars; [reflexivity | apply first_normal_chars]. }
  rewrite chars_all_and in Hchars. apply andb_true_iff in Hchars as [Hnorm Hhash].
  rewrite first_normal_of_norm in Hid by exact Hnorm.
  assert (Hnh : chars_all not_hash (SpecModel.normalize_whitespace t) = true).
  { apply normalize_whitespace_chars; [reflexivity|].
    eapply chars_all_impl; [|exact Hhash]. intros c Hc. cbv beta. rewrite Hc.
    apply orb_true_r. }
  assert (Htidy : tidy t = true).
  { rewrite <- Hid. rewrite tidy_unit_markers by (apply tidy_join, str_split_tokens).
    now apply hash_attached_plain. }
  split.
  - unfold t in Htidy. now rewrite tidy_unit_markers in Htidy by apply first_normal_tidy.
  - unfold SpecModel.normalize_whitespace in Hid. rewrite str_split_tidy in Hid by exact Htidy.
    unfold unit_markers in Hid.
    rewrite (str_replace_absent "#" "APT " t) in Hid by now apply contains_char.
    now apply str_replace_apt_fixed.
Qed.




(** A known city name with an underscore can make the second normalisation
    find a city that the first did not: with the cities "A_B C" and "A B",
    "A B C" is normalised to " A_B  C" and this to " A_B_C ". *)
Example tokenize_underscore_city :
  let R := Some (known_cities_R (Parser_init ["A_B C"; "A B"]%string)) in
  __tokenize__ R "A B C" = " A_B  C"%string
  ∧ __tokenize__ R (__tokenize__ R "A B C") = " A_B_C "%string.
Proof. split; reflexivity. Qed.

(** ** What applying an operator leaves alone *)

(** Applying an operator consumes no generator: every generator that
    exists keeps its flag (the operators reach the heap through [merge]
    only, which allocates).  The results of the state an operator is applied
    to are lost only later, when the results of the returned state are
    iterated. *)
Lemma operators_consume_nothing {I O : Type} (z : Zipper I O) (h : heap) (g : nat) :
  (g < length h)%nat →
  (∀ n list_func ex_types, spent (snd (chomp_n z n list_func ex_types h)) g = spent h g)
  ∧ (∀ funcs ex_types, spent (snd (or_ z funcs ex_types h)) g = spent h g)
  ∧ (∀ pred_arrow single ex_types,
       spent (snd (takewhile z pred_arrow single ex_types h)) g = spent h g)
  ∧ (∀ func ex_types, spent (snd (consume_with z func ex_types h)) g = spent h g).
Proof.
  intros Hg.
  assert (Hm : ∀ B : Zipper I O, spent (snd (merge z B h)) g = spent h g)
    by (intros B; now apply merge_consumes_nothing).
  assert (Htw : ∀ pred_arrow single ex_types,
             spent (snd (takewhile z pred_arrow single ex_types h)) g = spent h g).
  { intros pred_arrow single ex_types. unfold takewhile, bind, lift.
    destruct (if single then _ else _) as [nr|e]; [|reflexivity].
    destruct (advance (leftover z) (fst nr)) as [c|e]; [apply Hm | reflexivity]. }
  split; [|split; [|split]].
  - intros n list_func ex_types. unfold chomp_n, try_except, bind, lift.
    destruct (list_func _) as [rs|e].
    + destruct (advance (leftover z) n) as [c|e]; [apply Hm|].
      now destruct (caught ex_types e).
    + now destruct (caught ex_types e).
  - intros funcs ex_types. induction funcs as [|f funcs IH]; [reflexivity|].
    simpl. unfold rbind.
    destruct (item (leftover z)) as [i|e].
    + destruct (f i) as [rs|e].
      * destruct (0 <? len rs); [|exact IH].
        destruct (advance (leftover z) 1) as [c|e]; [apply Hm|].
        now destruct (caught ex_types e).
      * now destruct (caught ex_types e).
    + now destruct (caught ex_types e).
  - exact Htw.
  - intros func ex_types. apply Htw.
Qed.

(** ** The module's own tests and the scenarios of the specification *)

(** The cases of [__zipper__.test]. *)
Example test_chomp :
  test_results (chomp_n (new_Zipper (input [2; 3; 4])) 2 _id default_ex_types) = Ok [2; 3]
  ∧ test_results (chomp_n (new_Zipper (input [5; 6])) 2 _id default_ex_types) = Ok [5; 6]
  ∧ test_results (chomp_n (new_Zipper (input [])) 2 _id default_ex_types)
    = Raise (EndOfInputError "")
  ∧ test_results (chomp_n (new_Zipper (input [0])) 2 _id default_ex_types)
    = Raise (EndOfInputError "").
Proof. repeat split. Qed.

Example test_takewhile :
  let odds := [1; 3; 7] in
  let evens := [2; 4; 8] in
  let f_odds := [1; 2; 3; 3; 4; 5; 7; 8; 9] in
  let f_evens := [2; 3; 4; 4; 5; 6; 8; 9; 10] in
  let tw (f : Z → result (list Z)) (z : Zipper Z Z) := takewhile z f false default_ex_types in
  test_results (tw fan_odd (new_Zipper (input odds))) = Ok f_odds
  ∧ test_results (tw fan_odd (new_Zipper (input []))) = Ok []
  ∧ test_results (tw fan_even (new_Zipper (input (evens ++ odds)))) = Ok f_evens
  ∧ test_results (tw fan_even (new_Zipper (input (odds ++ evens)))) = Ok []
  ∧ test_results (let* z := tw fan_odd (new_Zipper (input (odds ++ evens ++ odds))) in
                  let* z := tw fan_even z in
                  tw fan_odd z)%M
    = Ok (f_odds ++ f_evens ++ f_odds)
  ∧ test_results (let* z := tw fan_odd (new_Zipper (input (odds ++ [2]))) in
                  let* z := tw fan_odd z in
                  tw fan_even z)%M
    = Ok (f_odds ++ [2; 3; 4])
  ∧ test_results (let* z := tw fan_odd (new_Zipper (input (odds ++ [2]))) in
                  chomp_n z 2 _id default_ex_types)%M
    = Raise (EndOfInputError "").
Proof. repeat split. Qed.

Example test_or :
  test_results (or_ (new_Zipper (input [1; 2])) [fan_even; fan_odd] default_ex_types)
  = Ok [1; 2; 3]
  ∧ test_results (or_ (new_Zipper (input [2; 1])) [fan_even; fan_odd] default_ex_types)
    = Ok [2; 3; 4]
  ∧ test_results (or_ (new_Zipper (input [2; 1])) [] default_ex_types) = Ok ([] : list Z).
Proof. repeat split. Qed.

(** The end-to-end scenarios of the specification, with the model of the
    collaborators.  The fields are listed in the order house_number,
    st_name, st_suffix, st_NESW, unit, city, us_state, zip_code. *)
Example scenario_full_address :
  fields (Parser_call (Parser_init []) "123 8TH AVE NE STE A DALLAS TX" true)
  = Ok [Some "123"; Some "8TH"; Some "AVE"; Some "NE"; Some "STE A"; Some "DALLAS";
        Some "TX"; None]%string.
Proof. vm_compute. reflexivity. Qed.

Example scenario_known_city_as_street :
  fields (Parser_call (Parser_init ["HOUSTON"; "DALLAS"]%string) "123 DALLAS RD HOUSTON TX" true)
  = Ok [Some "123"; Some "DALLAS"; Some "RD"; None; None; Some "HOUSTON"; Some "TX";
        None]%string.
Proof. vm_compute. reflexivity. Qed.

Example scenario_known_city_splits :
  fields (Parser_call (Parser_init ["Houston"; "Dallas"]%string) "123 Straight Houston TX" true)
  = Ok [Some "123"; Some "STRAIGHT"; None; None; None; Some "HOUSTON"; Some "TX";
        None]%string.
Proof. vm_compute. reflexivity. Qed.

Example scenario_batch_repair :
  let b := smart_batch (Parser_init [])
             ["123 Main, Springfield OH 12123"; "50 Elm St Springfield OH 12123"]%string
             (fun _ _ => Ok tt) in
  map (fun a => fields (Ok a)) (yielded b)
  = [ Ok [Some "50"; Some "ELM"; Some "ST"; None; None; Some "SPRINGFIELD"; Some "OH";
          Some "12123"];
      Ok [Some "123"; Some "MAIN"; None; None; None; Some "SPRINGFIELD"; Some "OH";
          Some "12123"] ]%string
  ∧ reported b = [] ∧ raised b = None.
Proof. vm_compute. repeat split. Qed.

Example scenario_trailer_unit :
  fields (Parser_call (Parser_init []) "0 JOY RD TRLR 105 RED MI 48000" true)
  = Ok [Some "0"; Some "JOY"; Some "RD"; None; Some "TRLR 105"; Some "RED"; Some "MI";
        Some "48000"]%string.
Proof. vm_compute. reflexivity. Qed.

(** An address that ends on a unit type: [chomp_n] hands the one token left
    to [__chomp_unit__], whose length assertion fails. *)
Example unit_type_at_end :
  is_Ok (Parser_call (Parser_init []) "123 MAIN ST APT" true) = false
  ∧ match Parser_call (Parser_init []) "123 MAIN ST APT" true with
    | Raise AssertionError => True
    | _ => False
    end.
Proof. vm_compute. split; [reflexivity | exact I]. Qed.

(** * Further properties of the code *)

(** ** The cursor *)

(** X1.  [rest] is [advance(1)] without the bounds check: below the end the
    two agree; at or past the end [advance(1)] raises [EndOfInputError]
    while [rest] returns a cursor, one that is empty and whose [item]
    raises. *)
Theorem rest_is_unchecked_advance {T : Type} (c : GenericInput T) :
  (state c < len (data c) → advance c 1 = Ok (rest c))
  ∧ (len (data c) <= state c →
     (∃ orig, advance c 1 = Raise (EndOfInputError orig))
     ∧ empty (rest c) = true
     ∧ ∃ orig, item (rest c) = Raise (EndOfInputError orig)).
Proof.
  split.
  - intros Hlt. unfold advance, rest.
    destruct (len (data c) <? state c + 1) eqn:E; [apply Z.ltb_lt in E; lia | reflexivity].
  - intros Hge. split; [apply advance_EndOfInput; lia|].
    assert (He : empty (rest c) = true) by (unfold empty, rest; simpl; apply Z.ltb_lt; lia).
    split; [exact He|]. apply item_EndOfInput. unfold rest. simpl. lia.
Qed.

Lemma rest_is_unchecked_advance_witness :
  advance (mkInput ["A"; "B"]%string 1) 1 = Ok (rest (mkInput ["A"; "B"]%string 1))
  ∧ (∃ orig, advance (mkInput ["A"; "B"]%string 2) 1 = Raise (EndOfInputError orig))
  ∧ state (rest (mkInput ["A"; "B"]%string 2)) = 3
  ∧ empty (rest (mkInput ["A"; "B"]%string 2)) = true.
Proof.
  destruct (rest_is_unchecked_advance (mkInput ["A"; "B"]%string 1)) as [H1 _].
  destruct (rest_is_unchecked_advance (mkInput ["A"; "B"]%string 2)) as [_ H2].
  split; [apply H1; unfold len; simpl; lia|].
  destruct H2 as (Ha & He & _); [unfold len; simpl; lia|].
  repeat split; assumption.
Defined.

(** X2.  [empty] is the guard of [item] and of [view]: it is true exactly
    when [item] raises [EndOfInputError], and exactly when [view] does. *)
Theorem empty_guards_item {T : Type} (c : GenericInput T) :
  (empty c = true ↔ ∃ orig, item c = Raise (EndOfInputError orig))
  ∧ (empty c = true ↔ ∃ orig, view c = Raise (EndOfInputError orig)).
Proof.
  assert (He : empty c = true ↔ len (data c) <= state c).
  { unfold empty. rewrite Z.ltb_lt. lia. }
  split.
  - rewrite He. symmetry. apply item_EndOfInput.
  - rewrite He, <- item_EndOfInput. unfold view, rbind.
    destruct (item c) as [t|e].
    + split; intros [orig Ho]; discriminate.
    + split; intros [orig Ho]; exists orig; congruence.
Qed.

(** X3.  Two advances compose into one when the second step is not
    negative (a negative second step could bring an overshooting first
    step back into range). *)
Theorem advance_advance {T : Type} (c : GenericInput T) (n m : Z) :
  0 <= m →
  (let? c' := advance c n in advance c' m)%res = advance c (n + m).
Proof.
  intros Hm. unfold rbind, advance.
  destruct (len (data c) <? state c + n) eqn:E1;
    destruct (len (data c) <? state c + (n + m)) eqn:E2; simpl;
    try apply Z.ltb_lt in E1; try apply Z.ltb_ge in E1;
    try apply Z.ltb_lt in E2; try apply Z.ltb_ge in E2; try lia; try reflexivity.
  - destruct (len (data c) <? state c + n + m) eqn:E3;
      [reflexivity | apply Z.ltb_ge in E3; lia].
  - destruct (len (data c) <? state c + n + m) eqn:E3;
      [apply Z.ltb_lt in E3; lia|].
    now rewrite Z.add_assoc.
Qed.

Lemma advance_advance_witness :
  (let? c' := advance (input ["A"; "B"; "C"]%string) 1 in advance c' 2)%res
  = Ok (mkInput ["A"; "B"; "C"]%string 3).
Proof.
  rewrite (advance_advance (input ["A"; "B"; "C"]%string) 1 2); [reflexivity | lia].
Defined.

(** X4.  [as_str] prints the tokens that are left while some are left, but
    the whole input once the cursor is exhausted (the slice [data[-0:]] is
    the whole list); [rest_as_str] is [as_str] of [rest]. *)
Theorem as_str_leftover {T : Type} (str : T → string) (c : GenericInput T) :
  (0 <= state c < len (data c) →
   as_str str c = str_join " " (map str (tokens_left c)))
  ∧ (state c = len (data c) → as_str str c = orig_str str c)
  ∧ rest_as_str str c = as_str str (rest c).
Proof.
  unfold as_str, rest_as_str, orig_str, tokens_left, py_slice_from, py_clamp.
  split; [|split].
  - intros Hr.
    destruct (- (len (data c) - state c) <? 0) eqn:E; [|apply Z.ltb_ge in E; lia].
    do 3 f_equal. lia.
  - intros ->. rewrite Z.sub_diag. simpl.
    rewrite Z.min_l by (unfold len; lia). reflexivity.
  - simpl.
    now replace (len (data c) - state c - 1) with (len (data c) - (state c + 1)) by lia.
Qed.

Lemma as_str_leftover_witness :
  as_str id (mkInput ["1"; "3"; "7"; "2"]%string 3) = "2"%string
  ∧ as_str id (mkInput ["1"; "3"; "7"]%string 3) = "1 3 7"%string.
Proof.
  destruct (as_str_leftover id (mkInput ["1"; "3"; "7"; "2"]%string 3)) as (H1 & _).
  destruct (as_str_leftover id (mkInput ["1"; "3"; "7"]%string 3)) as (_ & H2 & _).
  split.
  - rewrite H1; [reflexivity | unfold len; simpl; lia].
  - rewrite H2; reflexivity.
Defined.

(** *** Reading a cursor from a string *)

Lemma str_upper_app (a b : string) : str_upper (a +:+ b) = (str_upper a +:+ str_upper b)%string.
Proof.
  induction a as [|x a IH]; [reflexivity|].
  rewrite string_app_cons. simpl. now rewrite IH.
Qed.

Lemma str_split_from_upper (cur s : string) :
  str_split_from (str_upper cur) (str_upper s) = map str_upper (str_split_from cur s).
Proof.
  revert cur. induction s as [|c s IH]; intros cur.
  - now destruct cur.
  - cbn [str_upper str_split_from]. rewrite upper_ascii_space.
    destruct (is_space c).
    + destruct cur; cbn [str_upper String.eqb map]; [apply (IH "")|].
      f_equal. apply (IH "").
    + rewrite <- IH, str_upper_app. reflexivity.
Qed.

Lemma upper_ascii_ascii (c : ascii) : is_ascii c = true → is_ascii (upper_ascii c) = true.
Proof. destruct c as [[] [] [] [] [] [] [] []]; intros Hc; try reflexivity; discriminate. Qed.

Lemma str_split_from_ascii (s cur : string) :
  chars_all is_ascii cur = true → chars_all is_ascii s = true →
  Forall (fun t => chars_all is_ascii t = true) (str_split_from cur s).
Proof.
  revert cur. induction s as [|c s IH]; intros cur Hcur Hs; simpl.
  - destruct (String.eqb cur ""); repeat constructor; assumption.
  - simpl in Hs. apply andb_true_iff in Hs as [Hc Hs].
    destruct (is_space c).
    + destruct (String.eqb cur ""); [now apply IH|]. constructor; [done | now apply IH].
    + apply IH; [|done]. rewrite chars_all_app, Hcur. simpl. now rewrite Hc.
Qed.

Lemma str_upper_ascii (s : string) :
  chars_all is_ascii s = true → chars_all is_ascii (str_upper s) = true.
Proof.
  induction s as [|c s IH]; simpl; [done|].
  intros [Hc Hs]%andb_true_iff. now rewrite upper_ascii_ascii, IH.
Qed.

Lemma from_str_join (ts : list string) :
  Forall (fun t => t ≠ ""%string ∧ chars_all upper_token_char t = true) ts →
  from_str (str_join " " ts) = input ts.
Proof.
  intros Htok. unfold from_str. f_equal.
  rewrite str_upper_fixed.
  - apply str_split_join. eapply Forall_impl; [exact Htok|].
    intros t [Hne Ht]. split; [done|].
    eapply chars_all_impl; [|exact Ht]. now intros c [Hc _]%andb_true_iff.
  - induction Htok as [|t ts [Hne Ht] Hts IH]; [reflexivity|].
    assert (Hu : chars_all (fun c => Ascii.eqb (upper_ascii c) c) t = true).
    { eapply chars_all_impl; [|exact Ht]. now intros c [_ Hc]%andb_true_iff. }
    destruct ts as [|t2 ts]; [exact Hu|].
    change (str_join " " (t :: t2 :: ts))
      with (t +:+ " " +:+ str_join " " (t2 :: ts))%string.
    rewrite !chars_all_app, Hu, IH. reflexivity.
Qed.

(** X5.  [from_str] on ASCII text.  It reads a cursor at position 0 whose
    tokens are the whitespace-separated words of the text, each in upper
    case; they are not empty, hold no whitespace and are left alone by
    [upper].  Reading is a left inverse of printing: the text that
    [orig_str] prints for a cursor of such tokens is read back as that
    cursor at position 0, and so reading what [orig_str] prints for
    [from_str s] gives [from_str s] again. *)
Theorem from_str_round_trip (s : string) (ts : list string) :
  (chars_all is_ascii s = true →
   state (from_str s) = 0
   ∧ data (from_str s) = map str_upper (str_split s)
   ∧ Forall upper_token (data (from_str s))
   ∧ from_str (orig_str id (from_str s)) = from_str s)
  ∧ (Forall upper_token ts → from_str (orig_str id (input ts)) = input ts).
Proof.
  assert (Hback : ∀ l, Forall upper_token l → from_str (orig_str id (input l)) = input l).
  { intros l Hl. unfold orig_str. simpl. rewrite map_id. apply from_str_join.
    eapply Forall_impl; [exact Hl|]. now intros t (Hne & _ & Ht). }
  split; [|apply Hback]. intros Hs.
  assert (Htok : Forall upper_token (str_split (str_upper s))).
  { apply Forall_forall. intros t Ht. unfold upper_token.
    assert (H1 : Forall (fun t => t ≠ ""%string ∧ chars_all upper_token_char t = true)
                   (str_split (str_upper s))).
    { apply str_split_from_tokens; [reflexivity | apply str_upper_chars |].
      intros c [Hc _]%andb_true_iff. now apply negb_true_iff. }
    assert (H2 : Forall (fun t => chars_all is_ascii t = true) (str_split (str_upper s))).
    { apply str_split_from_ascii; [reflexivity | now apply str_upper_ascii]. }
    rewrite Forall_forall in H1, H2. destruct (H1 t Ht). split; [done|]. split; auto. }
  split; [reflexivity|]. split; [apply (str_split_from_upper "" s)|].
  split; [exact Htok|]. exact (Hback _ Htok).
Qed.

Lemma from_str_round_trip_witness :
  chars_all is_ascii "50 elm St  apt 5b" = true
  ∧ data (from_str "50 elm St  apt 5b") = ["50"; "ELM"; "ST"; "APT"; "5B"]%string
  ∧ from_str (orig_str id (from_str "50 elm St  apt 5b")) = from_str "50 elm St  apt 5b"
  ∧ from_str (orig_str id (input ["12"; "MAIN"]%string)) = input ["12"; "MAIN"]%string.
Proof.
  destruct (from_str_round_trip "50 elm St  apt 5b" ["12"; "MAIN"]%string) as [H1 H2].
  destruct (H1 eq_refl) as (_ & Hdata & _ & Hround).
  split; [reflexivity|]. split; [rewrite Hdata; reflexivity|]. split; [exact Hround|].
  apply H2. repeat constructor; discriminate.
Defined.

(** ** The operators *)

Section OperatorFacts.
Context {I O : Type}.
Implicit Type z : Zipper I O.

Lemma tokens_left_nil (c : GenericInput I) :
  0 <= state c → tokens_left c = [] → InputIter_next c = Ok None.
Proof.
  unfold tokens_left. intros Hs Hd.
  assert (Hlen : len (data c) <= state c).
  { apply (f_equal length) in Hd. rewrite length_drop in Hd. simpl in Hd.
    unfold len. lia. }
  unfold InputIter_next, item.
  destruct (len (data c) <? state c + 1) eqn:E; [reflexivity | apply Z.ltb_ge in E; lia].
Qed.

Lemma tokens_left_cons (c : GenericInput I) (i : I) (l : list I) :
  0 <= state c → tokens_left c = i :: l →
  item c = Ok i ∧ tokens_left (rest c) = l ∧ state c < len (data c).
Proof.
  unfold tokens_left. intros Hs Hd.
  assert (Hi : data c !! Z.to_nat (state c) = Some i).
  { rewrite <- (Nat.add_0_r (Z.to_nat (state c))), <- lookup_drop, Hd. reflexivity. }
  assert (Hlt : state c < len (data c)).
  { apply lookup_lt_Some in Hi. unfold len. lia. }
  split; [|split; [|exact Hlt]].
  - destruct (py_index_nonneg (data c) (state c)) as (t & Ht & Hp); [lia|].
    unfold item.
    destruct (len (data c) <? state c + 1) eqn:E; [apply Z.ltb_lt in E; lia|].
    congruence.
  - unfold rest. simpl.
    replace (Z.to_nat (state c + 1)) with (S (Z.to_nat (state c))) by lia.
    rewrite <- (drop_drop (data c) 1 (Z.to_nat (state c))) || idtac.
    change (S (Z.to_nat (state c))) with (1 + Z.to_nat (state c))%nat.
    rewrite Nat.add_comm, <- drop_drop, Hd. reflexivity.
Qed.

(** The loop over the cursor is the loop over the list of the tokens that
    are left. *)
Lemma takewhile_input_list (pred_arrow : I → result (list O)) (ex_types : list ex_type)
    (c : GenericInput I) (acc : Z * list O) :
  0 <= state c →
  takewhile_input (turns c) pred_arrow ex_types c acc
  = takewhile_list pred_arrow ex_types (tokens_left c) acc.
Proof.
  intros Hs.
  rewrite (takewhile_input_fuel pred_arrow ex_types (turns c) (length (tokens_left c)) c acc);
    [|lia|unfold turns, tokens_left, len; rewrite length_drop; lia].
  remember (tokens_left c) as l eqn:Hl. symmetry in Hl.
  revert c acc Hs Hl. induction l as [|i l IH]; intros c acc Hs Hl.
  - simpl. now rewrite (tokens_left_nil c Hs Hl).
  - destruct (tokens_left_cons c i l Hs Hl) as (Hi & Hr & Hlt).
    simpl. unfold InputIter_next. rewrite Hi.
    destruct (takewhile_body pred_arrow ex_types i acc) as [[acc'|]|e]; try reflexivity.
    apply IH; [unfold rest; simpl; lia | exact Hr].
Qed.

Lemma run_length_le (p : I → bool) (l : list I) : (run_length p l <= length l)%nat.
Proof. induction l as [|i l IH]; simpl; [lia|]. destruct (p i); simpl; lia. Qed.

Lemma takewhile_list_pure (f : I → list O) (ex_types : list ex_type) (l : list I)
    (n : Z) (acc : list O) :
  takewhile_list (fun i => Ok (f i)) ex_types l (n, acc)
  = Ok (n + Z.of_nat (run_length (hits f) l),
        acc ++ concat (map f (take (run_length (hits f) l) l))).
Proof.
  revert n acc. induction l as [|i l IH]; intros n acc.
  - simpl. now rewrite Z.add_0_r, app_nil_r.
  - cbn [takewhile_list run_length]. unfold takewhile_body.
    destruct (len (f i) =? 0) eqn:E.
    + assert (Hh : hits f i = false) by (unfold hits; now rewrite E).
      rewrite Hh. simpl. now rewrite Z.add_0_r, app_nil_r.
    + assert (Hh : hits f i = true) by (unfold hits; now rewrite E).
      rewrite Hh. cbn [fst snd]. rewrite IH. cbn [take map concat].
      rewrite Nat2Z.inj_succ, app_assoc. do 2 f_equal. lia.
Qed.

Lemma yields_merged z (c : GenericInput I) (rs : list O) (h : heap) :
  ∃ z', merge z (mkZipper c (RList rs)) h = (Ok z', h ++ [false])
        ∧ leftover z' = c
        ∧ yields z' (h ++ [false]) = yields z (h ++ [false]) ++ rs.
Proof.
  eexists. split; [reflexivity|]. split; [reflexivity|].
  unfold yields. simpl. rewrite spent_fresh.
  now destruct (list_ (results z) (h ++ [false])).
Qed.
End OperatorFacts.

(** X6.  [takewhile] consumes the longest prefix of the tokens that are
    left on which the rule returns results, not more and not less, and
    appends the results of those tokens in order.  (For a rule that does
    not raise, on a cursor inside its input.) *)
Theorem takewhile_longest_prefix {I O : Type} (z : Zipper I O) (f : I → list O)
    (ex_types : list ex_type) (h : heap) :
  0 <= state (leftover z) <= len (data (leftover z)) →
  ∃ z', takewhile z (fun i => Ok (f i)) false ex_types h = (Ok z', h ++ [false])
    ∧ data (leftover z') = data (leftover z)
    ∧ state (leftover z')
      = state (leftover z) + Z.of_nat (run_length (hits f) (tokens_left (leftover z)))
    ∧ yields z' (h ++ [false])
      = yields z (h ++ [false])
        ++ concat (map f (take (run_length (hits f) (tokens_left (leftover z)))
                              (tokens_left (leftover z)))).
Proof.
  intros Hs. unfold takewhile, bind, lift.
  rewrite takewhile_input_list by lia. rewrite takewhile_list_pure. simpl.
  pose proof (run_length_le (hits f) (tokens_left (leftover z))) as Hle.
  remember (run_length (hits f) (tokens_left (leftover z))) as k eqn:Ek.
  assert (Hk : Z.of_nat k <= len (data (leftover z)) - state (leftover z)).
  { unfold tokens_left in Hle. rewrite length_drop in Hle. unfold len in *. lia. }
  unfold advance.
  destruct (len (data (leftover z)) <? state (leftover z) + (0 + Z.of_nat k)) eqn:E;
    [apply Z.ltb_lt in E; lia|].
  destruct (yields_merged z
              (mkInput (data (leftover z)) (state (leftover z) + (0 + Z.of_nat k)))
              (concat (map f (take k (tokens_left (leftover z))))) h)
    as (z' & Hm & Hl & Hy).
  exists z'. split; [exact Hm|]. rewrite Hl. simpl.
  split; [reflexivity|]. split; [lia | exact Hy].
Qed.

(** The second case of "takewhile 2" in the module's own test: the rule
    takes the three even numbers and stops at the first odd one. *)
Lemma takewhile_longest_prefix_witness :
  ∃ z', takewhile (new_Zipper (input [2; 4; 8; 1; 3; 7]))
          (fun i => Ok (if i mod 2 =? 1 then [] else [i + 0; i + 1; i + 2]))
          false default_ex_types []
        = (Ok z', [false])
    ∧ state (leftover z') = 3
    ∧ yields z' [false] = [2; 3; 4; 4; 5; 6; 8; 9; 10].
Proof.
  destruct (takewhile_longest_prefix (new_Zipper (input [2; 4; 8; 1; 3; 7]))
              (fun i => if i mod 2 =? 1 then [] else [i + 0; i + 1; i + 2])
              default_ex_types [])
    as (z' & Hrun & _ & Hstate & Hy); [unfold len; simpl; lia|].
  exists z'. split; [exact Hrun|]. split; [exact Hstate | exact Hy].
Defined.

(** X7.  At the end of the input ([state = len(data)]) the operators differ.
    [takewhile] returns the cursor where it is and adds no result, without
    calling the rule.  [consume_with] and [or_] (with at least one rule) ask
    for the item first and raise the [EndOfInputError] of [item], unless
    [EndOfInputError] is among [ex_types], in which case they too return
    the state they were applied to ([or_] without rules always does). *)
Theorem operators_at_end_of_input {I O : Type} (z : Zipper I O)
    (ex_types : list ex_type) (h : heap) :
  state (leftover z) = len (data (leftover z)) →
  (∀ pred_arrow,
     ∃ z', takewhile z pred_arrow false ex_types h = (Ok z', h ++ [false])
           ∧ leftover z' = leftover z
           ∧ yields z' (h ++ [false]) = yields z (h ++ [false]))
  ∧ (∀ func,
       if caught ex_types (EndOfInputError "")
       then ∃ z', consume_with z func ex_types h = (Ok z', h ++ [false])
                  ∧ leftover z' = leftover z
                  ∧ yields z' (h ++ [false]) = yields z (h ++ [false])
       else consume_with z func ex_types h = (Raise (EndOfInputError ""), h))
  ∧ (∀ func funcs,
       or_ z (func :: funcs) ex_types h
       = if caught ex_types (EndOfInputError "") then (Ok z, h)
         else (Raise (EndOfInputError ""), h))
  ∧ or_ z [] ex_types h = (Ok z, h).
Proof.
  intros Hend.
  assert (Hitem : item (leftover z) = Raise (EndOfInputError "")).
  { unfold item. destruct (len (data (leftover z)) <? state (leftover z) + 1) eqn:E;
      [reflexivity | apply Z.ltb_ge in E; lia]. }
  assert (Hadv : advance (leftover z) 0 = Ok (leftover z)).
  { unfold advance. rewrite Z.add_0_r.
    destruct (len (data (leftover z)) <? state (leftover z)) eqn:E;
      [apply Z.ltb_lt in E; lia|]. now destruct (leftover z). }
  assert (Hsame : ∃ z', merge z (mkZipper (leftover z) (RList [])) h = (Ok z', h ++ [false])
                        ∧ leftover z' = leftover z
                        ∧ yields z' (h ++ [false]) = yields z (h ++ [false])).
  { destruct (yields_merged z (leftover z) [] h) as (z' & Hm & Hl & Hy).
    exists z'. rewrite app_nil_r in Hy. auto. }
  split; [|split; [|split]].
  - intros pred_arrow. unfold takewhile, bind, lift.
    rewrite takewhile_input_list by (unfold len in *; lia).
    assert (Hnil : tokens_left (leftover z) = []).
    { unfold tokens_left. apply drop_ge. unfold len in Hend. lia. }
    rewrite Hnil. simpl. rewrite Hadv. exact Hsame.
  - intros func. unfold consume_with, takewhile, bind, lift. rewrite Hitem.
    destruct (caught ex_types (EndOfInputError "")); [|reflexivity].
    simpl. rewrite Hadv. exact Hsame.
  - intros func funcs. revert func. induction funcs as [|g funcs IH]; intros func.
    + simpl. unfold rbind. rewrite Hitem.
      now destruct (caught ex_types (EndOfInputError "")).
    + specialize (IH g). cbn [or_] in *. unfold rbind in *. rewrite Hitem in *.
      destruct (caught ex_types (EndOfInputError "")); [exact IH | reflexivity].
  - reflexivity.
Qed.

(** "takewhile 1" of the module's own test, and the failure that the
    parser turns into [EndOfAddressError]. *)
Lemma operators_at_end_of_input_witness :
  (∃ z', takewhile (new_Zipper (input [])) fan_odd false default_ex_types []
         = (Ok z', [false])
         ∧ yields z' [false] = [])
  ∧ consume_with (new_Zipper (input [])) fan_odd default_ex_types []
    = (Raise (EndOfInputError ""), []).
Proof.
  destruct (operators_at_end_of_input (new_Zipper (O := Z) (input ([] : list Z)))
              default_ex_types []) as (Htw & Hcw & _); [reflexivity|].
  split.
  - destruct (Htw fan_odd) as (z' & Hrun & _ & Hy). exists z'. split; [exact Hrun | exact Hy].
  - exact (Hcw fan_odd).
Defined.

Section Monotone.
Context {I O : Type}.

Lemma takewhile_list_counter (pred_arrow : I → result (list O)) (ex_types : list ex_type)
    (l : list I) (acc acc' : Z * list O) :
  takewhile_list pred_arrow ex_types l acc = Ok acc' → fst acc <= fst acc'.
Proof.
  revert acc. induction l as [|i l IH]; intros acc; simpl.
  - intros [= <-]. lia.
  - unfold takewhile_body. destruct (pred_arrow i) as [rs|e].
    + destruct (len rs =? 0); [intros [= <-]; lia|].
      intros Hr. apply IH in Hr. simpl in Hr. lia.
    + destruct (caught ex_types e); [intros [= <-]; lia | discriminate].
Qed.

Lemma takewhile_input_counter (pred_arrow : I → result (list O)) (ex_types : list ex_type)
    (fuel : nat) (c : GenericInput I) (acc acc' : Z * list O) :
  takewhile_input fuel pred_arrow ex_types c acc = Ok acc' → fst acc <= fst acc'.
Proof.
  revert c acc. induction fuel as [|fuel IH]; intros c acc; simpl.
  - destruct (InputIter_next c) as [[[i c']|]|e]; try discriminate; intros [= <-]; lia.
  - destruct (InputIter_next c) as [[[i c']|]|e]; try discriminate;
      [|intros [= <-]; lia].
    unfold takewhile_body. destruct (pred_arrow i) as [rs|e].
    + destruct (len rs =? 0); [intros [= <-]; lia|].
      intros Hr. apply IH in Hr. simpl in Hr. lia.
    + destruct (caught ex_types e); [intros [= <-]; lia | discriminate].
Qed.
End Monotone.

(** X8.  No operator moves the cursor backwards or changes the tokens: the
    state an operator returns has the same token sequence and a position
    that is at least the old one, and at most the number of tokens (unless
    the old position was already past it).  For [chomp_n] this needs
    [n >= 0]. *)
Theorem operators_move_forward {I O : Type} (z z' : Zipper I O) (h h' : heap) :
  (∀ pred_arrow single ex_types,
     takewhile z pred_arrow single ex_types h = (Ok z', h') → moves_forward z z')
  ∧ (∀ func ex_types,
       consume_with z func ex_types h = (Ok z', h') → moves_forward z z')
  ∧ (∀ funcs ex_types, or_ z funcs ex_types h = (Ok z', h') → moves_forward z z')
  ∧ (∀ n list_func ex_types,
       0 <= n → chomp_n z n list_func ex_types h = (Ok z', h') → moves_forward z z').
Proof.
  assert (Hself : moves_forward z z) by (unfold moves_forward; split; [reflexivity | lia]).
  assert (Hadv : ∀ k c rs, 0 <= k → advance (leftover z) k = Ok c →
                   merge z (mkZipper c (RList rs)) h = (Ok z', h') → moves_forward z z').
  { intros k c rs Hk Ha [= <- _]. unfold advance in Ha.
    destruct (len (data (leftover z)) <? state (leftover z) + k) eqn:E; [discriminate|].
    apply Z.ltb_ge in E. injection Ha as <-. unfold moves_forward. simpl.
    split; [reflexivity | lia]. }
  assert (Htw : ∀ pred_arrow single ex_types,
            takewhile z pred_arrow single ex_types h = (Ok z', h') → moves_forward z z').
  { intros pred_arrow single ex_types. unfold takewhile, bind, lift.
    destruct (if single then _ else _) as [[k rs]|e] eqn:Eloop; [|discriminate].
    assert (Hk : 0 <= k).
    { destruct single.
      - destruct (item (leftover z)) as [i|e].
        + now apply takewhile_list_counter in Eloop.
        + destruct (caught ex_types e); [|discriminate].
          now apply takewhile_list_counter in Eloop.
      - now apply takewhile_input_counter in Eloop. }
    simpl. destruct (advance (leftover z) k) as [c|e] eqn:Ea; [|discriminate].
    now apply (Hadv k c rs). }
  split; [exact Htw|]. split; [intros func ex_types; apply Htw|]. split.
  - intros funcs ex_types. induction funcs as [|f funcs IH]; simpl.
    + now intros [= <- _].
    + unfold rbind. destruct (item (leftover z)) as [i|e].
      * destruct (f i) as [rs|e].
        -- destruct (0 <? len rs); [|exact IH].
           destruct (advance (leftover z) 1) as [c|e] eqn:Ea.
           ++ apply (Hadv 1 c rs); [lia | exact Ea].
           ++ destruct (caught ex_types e); [exact IH | discriminate].
        -- destruct (caught ex_types e); [exact IH | discriminate].
      * destruct (caught ex_types e); [exact IH | discriminate].
  - intros n list_func ex_types Hn. unfold chomp_n, try_except, bind, lift.
    destruct (list_func _) as [rs|e].
    + destruct (advance (leftover z) n) as [c|e] eqn:Ea.
      * now apply (Hadv n c rs).
      * destruct (caught ex_types e); [now intros [= <- _] | discriminate].
    + destruct (caught ex_types e); [now intros [= <- _] | discriminate].
Qed.

Lemma operators_move_forward_witness :
  ∃ z' h', takewhile (new_Zipper (input [1; 3; 7; 2])) fan_odd false default_ex_types []
           = (Ok z', h')
    ∧ moves_forward (new_Zipper (O := Z) (input [1; 3; 7; 2])) z'
    ∧ state (leftover z') = 3.
Proof.
  eexists _, _. split; [reflexivity|]. split; [|reflexivity].
  refine (proj1 (operators_move_forward (new_Zipper (input [1; 3; 7; 2])) _ [] _)
            fan_odd false default_ex_types _).
  reflexivity.
Defined.

(** X9.  [or_] on a cursor that has an item: the first rule of the list
    that returns results on the item wins, one token is consumed and those
    results are appended; when no rule returns results the state comes back
    as it is.  (For rules that do not raise.) *)
Theorem or_first_match {I O : Type} (z : Zipper I O) (fs : list (I → list O))
    (ex_types : list ex_type) (h : heap) (i : I) :
  item (leftover z) = Ok i →
  match List.find (fun f => hits f i) fs with
  | Some f =>
      ∃ z', or_ z (map (fun f i => Ok (f i)) fs) ex_types h = (Ok z', h ++ [false])
            ∧ leftover z' = rest (leftover z)
            ∧ yields z' (h ++ [false]) = yields z (h ++ [false]) ++ f i
  | None => or_ z (map (fun f i => Ok (f i)) fs) ex_types h = (Ok z, h)
  end.
Proof.
  intros Hitem.
  assert (Hadv : advance (leftover z) 1 = Ok (rest (leftover z))).
  { unfold item in Hitem. unfold advance, rest.
    destruct (len (data (leftover z)) <? state (leftover z) + 1); [discriminate | reflexivity]. }
  induction fs as [|f fs IH]; [reflexivity|].
  cbn [List.find map or_]. unfold rbind. rewrite Hitem. unfold hits at 1.
  destruct (len (f i) =? 0) eqn:E.
  - assert (Hz : (0 <? len (f i)) = false) by (apply Z.eqb_eq in E; rewrite E; reflexivity).
    rewrite Hz. simpl. exact IH.
  - assert (Hz : (0 <? len (f i)) = true).
    { apply Z.eqb_neq in E. apply Z.ltb_lt. unfold len in *. lia. }
    rewrite Hz, Hadv. simpl. apply yields_merged.
Qed.

(** "or 0" of the module's own test. *)
Lemma or_first_match_witness :
  ∃ z', or_ (new_Zipper (input [1; 2]))
          (map (fun (f : Z → list Z) i => Ok (f i))
             [ (fun n => if n mod 2 =? 1 then [] else [n + 0; n + 1; n + 2]);
               (fun n => if n mod 2 =? 0 then [] else [n + 0; n + 1; n + 2]) ])
          default_ex_types []
        = (Ok z', [false])
    ∧ state (leftover z') = 1
    ∧ yields z' [false] = [1; 2; 3].
Proof.
  pose proof (or_first_match (new_Zipper (input [1; 2]))
                [ (fun n => if n mod 2 =? 1 then [] else [n + 0; n + 1; n + 2]);
                  (fun n => if n mod 2 =? 0 then [] else [n + 0; n + 1; n + 2]) ]
                default_ex_types [] 1 eq_refl) as H.
  cbn [List.find hits] in H. simpl in H.
  destruct H as (z' & Hrun & Hl & Hy). exists z'.
  split; [exact Hrun|]. split; [now rewrite Hl | exact Hy].
Defined.

Lemma py_slice_block {A : Type} (l : list A) (s n : Z) :
  0 <= s → 0 <= n → s + n <= len l →
  py_slice l s (s + n) = take (Z.to_nat n) (drop (Z.to_nat s) l).
Proof.
  intros Hs Hn Hle. unfold py_slice, py_clamp.
  destruct (s <? 0) eqn:E1; [apply Z.ltb_lt in E1; lia|].
  destruct (s + n <? 0) eqn:E2; [apply Z.ltb_lt in E2; lia|].
  rewrite !Z.min_l by lia. do 2 f_equal. lia.
Qed.

(** X10.  With [n] tokens left, [chomp_n] hands the rule the block of the
    next [n] tokens and, when the rule returns, consumes those [n] tokens
    and appends what the rule returned, also when it returned nothing. *)
Theorem chomp_n_consumes_block {I O : Type} (z : Zipper I O) (n : Z)
    (list_func : list I → result (list O)) (ex_types : list ex_type)
    (h : heap) (rs : list O) :
  0 <= state (leftover z) → 0 <= n →
  state (leftover z) + n <= len (data (leftover z)) →
  list_func (take (Z.to_nat n) (tokens_left (leftover z))) = Ok rs →
  len (take (Z.to_nat n) (tokens_left (leftover z))) = n
  ∧ ∃ z', chomp_n z n list_func ex_types h = (Ok z', h ++ [false])
          ∧ data (leftover z') = data (leftover z)
          ∧ state (leftover z') = state (leftover z) + n
          ∧ yields z' (h ++ [false]) = yields z (h ++ [false]) ++ rs.
Proof.
  intros Hs Hn Hle Hrule. split.
  - unfold len, tokens_left in *. rewrite length_take, length_drop. lia.
  - unfold chomp_n, try_except, bind, lift.
    rewrite py_slice_block by lia. fold (tokens_left (leftover z)). rewrite Hrule.
    unfold advance.
    destruct (len (data (leftover z)) <? state (leftover z) + n) eqn:E;
      [apply Z.ltb_lt in E; lia|].
    destruct (yields_merged z (mkInput (data (leftover z)) (state (leftover z) + n)) rs h)
      as (z' & Hm & Hl & Hy).
    rewrite Hm. exists z'. rewrite Hl. auto.
Qed.

(** "chomp 0" of the module's own test, and a rule that returns nothing:
    the two tokens are consumed all the same. *)
Lemma chomp_n_consumes_block_witness :
  (∃ z', chomp_n (new_Zipper (input [2; 3; 4])) 2 _id default_ex_types [] = (Ok z', [false])
         ∧ state (leftover z') = 2 ∧ yields z' [false] = [2; 3])
  ∧ (∃ z', chomp_n (new_Zipper (O := Z) (input [2; 3; 4])) 2 (fun _ => Ok []) default_ex_types []
           = (Ok z', [false])
           ∧ state (leftover z') = 2 ∧ yields z' [false] = []).
Proof.
  split.
  - destruct (chomp_n_consumes_block (new_Zipper (input [2; 3; 4])) 2 _id default_ex_types
                [] [2; 3]) as (_ & z' & Hrun & _ & Hst & Hy);
      [simpl; lia | lia | unfold len; simpl; lia | reflexivity |].
    exists z'. auto.
  - destruct (chomp_n_consumes_block (new_Zipper (O := Z) (input [2; 3; 4])) 2
                (fun _ => Ok []) default_ex_types [] [])
      as (_ & z' & Hrun & _ & Hst & Hy);
      [simpl; lia | lia | unfold len; simpl; lia | reflexivity |].
    exists z'. auto.
Defined.

(** ** Generators *)

Section GeneratorFacts.
Context {O : Type}.

Lemma list__length (r : Iter O) (h : heap) : length (snd (list_ r h)) = length h.
Proof.
  revert h. induction r as [l|g a IHa b IHb]; intros h; simpl; [reflexivity|].
  destruct (spent h g); [reflexivity|].
  specialize (IHa h). destruct (list_ a h) as [xs h1]. simpl in IHa.
  specialize (IHb h1). destruct (list_ b h1) as [ys h2]. simpl in *.
  unfold exhaust. rewrite length_insert. congruence.
Qed.

Lemma spent_exhaust (g g' : nat) (h : heap) :
  spent h g = true → spent (exhaust g' h) g = true.
Proof.
  unfold spent, exhaust. intros Hs.
  destruct (h !! g) as [b|] eqn:E; [simpl in Hs; subst b | discriminate].
  destruct (decide (g' = g)) as [->|Hne].
  - rewrite list_lookup_insert_eq; [reflexivity | now apply lookup_lt_Some in E].
  - now rewrite list_lookup_insert_ne, E.
Qed.

Lemma spent_exhaust_same (g : nat) (h : heap) :
  (g < length h)%nat → spent (exhaust g h) g = true.
Proof. intros Hg. unfold spent, exhaust. now rewrite list_lookup_insert_eq. Qed.

Lemma list__spent (r : Iter O) (h : heap) (g : nat) :
  spent h g = true → spent (snd (list_ r h)) g = true.
Proof.
  revert h. induction r as [l|g' a IHa b IHb]; intros h Hs; simpl; [exact Hs|].
  destruct (spent h g'); [exact Hs|].
  specialize (IHa h Hs). destruct (list_ a h) as [xs h1]. simpl in IHa.
  specialize (IHb h1 IHa). destruct (list_ b h1) as [ys h2]. simpl in *.
  now apply spent_exhaust.
Qed.

(** Iterating an allocated generator leaves it exhausted. *)
Lemma list__exhausts (g : nat) (a b : Iter O) (h : heap) :
  (g < length h)%nat → spent (snd (list_ (RGen g a b) h)) g = true.
Proof.
  intros Hg. simpl. destruct (spent h g) eqn:E; [exact E|].
  pose proof (list__length a h) as La. destruct (list_ a h) as [xs h1]. simpl in La.
  pose proof (list__length b h1) as Lb. destruct (list_ b h1) as [ys h2]. simpl in *.
  apply spent_exhaust_same. lia.
Qed.
End GeneratorFacts.

(** X11.  The results of a state returned by [merge] can be iterated once:
    a second iteration yields nothing.  Iterating them also uses up the
    results of the first argument when those are a generator, so that state
    yields nothing afterwards.  [realize] is the way out: it iterates the
    results once and returns a state that holds them as a list, which every
    later iteration yields in full. *)
Theorem merged_results_single_use {I O : Type} (A B : Zipper I O) (h : heap) :
  ∃ Z h', merge A B h = (Ok Z, h')
    ∧ (∀ xs h'', list_ (results Z) h' = (xs, h'') →
         list_ (results Z) h'' = ([], h'')
         ∧ (∀ g a b, results A = RGen g a b → (g < length h)%nat → yields A h'' = []))
    ∧ (∃ Z' h'', realize Z h' = (Ok Z', h'')
         ∧ leftover Z' = leftover B
         ∧ ∀ h3, list_ (results Z') h3 = (yields Z h', h3)).
Proof.
  eexists _, _. split; [reflexivity|]. split.
  - intros xs h'' Hrun.
    pose proof (list__exhausts (length h) (results A) (results B) (h ++ [false])) as Hex.
    cbn [results] in Hrun. rewrite Hrun in Hex. simpl in Hex.
    rewrite length_app in Hex. simpl in Hex. specialize (Hex ltac:(lia)).
    split.
    + cbn [results list_]. now rewrite Hex.
    + intros g a b HA Hg. unfold yields.
      assert (Hsp : spent h'' g = true).
      { cbn [list_] in Hrun. rewrite spent_fresh in Hrun.
        pose proof (list__exhausts g a b (h ++ [false])) as Hga.
        rewrite <- HA in Hga. rewrite length_app in Hga. specialize (Hga ltac:(lia)).
        destruct (list_ (results A) (h ++ [false])) as [xa h1]. simpl in Hga.
        pose proof (list__spent (results B) h1 g Hga) as Hgb.
        destruct (list_ (results B) h1) as [xb h2]. simpl in Hgb.
        injection Hrun as _ <-. now apply spent_exhaust. }
      rewrite HA. simpl. now rewrite Hsp.
  - unfold realize, bind, to_list, yields.
    destruct (list_ _ (h ++ [false])) as [xs h''] eqn:Hrun.
    eexists _, _. split; [reflexivity|]. split; [reflexivity|].
    intros h3. reflexivity.
Qed.

(** A state whose results are a generator, merged with a state that holds a
    list: after the merged results are iterated, both yield nothing. *)
Lemma merged_results_single_use_witness :
  let A : Zipper Z Z := mkZipper (input [1; 2]) (RGen 0 (RList [1]) (RList [2])) in
  let B : Zipper Z Z := mkZipper (input [1; 2]) (RList [3]) in
  ∃ Z h' h'', merge A B [false] = (Ok Z, h')
    ∧ yields A h' = [1; 2]
    ∧ list_ (results Z) h' = ([1; 2; 3], h'')
    ∧ list_ (results Z) h'' = ([], h'')
    ∧ yields A h'' = [].
Proof.
  intros A B.
  destruct (merged_results_single_use A B [false]) as (Z & h' & Hm & Huse & _).
  injection Hm as <- <-.
  destruct (Huse [1; 2; 3] [true; true] eq_refl) as [Htwice HA].
  eexists _, _, _. split; [reflexivity|]. split; [reflexivity|].
  split; [reflexivity|]. split; [exact Htwice|].
  apply (HA 0%nat (RList [1]) (RList [2])); [reflexivity | simpl; lia].
Defined.

(** ** The unit rule *)

(** X12.  [__chomp_unit__] raises [AssertionError] exactly on a block that
    does not hold two words.  On two words it never raises: it returns
    nothing, or one step labelled "unit" whose value is the unit type (or
    "APT" for a bare hash sign), a space and the identifier. *)
Theorem chomp_unit_cases `{Collaborators} (words : list string) :
  (__chomp_unit__ words = Raise AssertionError ↔ len words ≠ 2)
  ∧ (∀ w0 w1, words = [w0; w1] →
       __chomp_unit__ words = Ok []
       ∨ ∃ u i, regex_match w1 unit_identifier_R = Some i
                ∧ (w0 = "#"%string ∧ u = "APT"%string
                   ∨ w0 ≠ "#"%string ∧ regex_match w0 unit_R = Some u)
                ∧ __chomp_unit__ words = Ok [mkParseStep "unit" (u +:+ " " +:+ i)]).
Proof.
  assert (Htwo : ∀ w0 w1, words = [w0; w1] →
       __chomp_unit__ words = Ok []
       ∨ ∃ u i, regex_match w1 unit_identifier_R = Some i
                ∧ (w0 = "#"%string ∧ u = "APT"%string
                   ∨ w0 ≠ "#"%string ∧ regex_match w0 unit_R = Some u)
                ∧ __chomp_unit__ words = Ok [mkParseStep "unit" (u +:+ " " +:+ i)]).
  { intros w0 w1 ->. unfold __chomp_unit__. simpl.
    destruct (String.eqb w0 "#") eqn:E.
    - apply String.eqb_eq in E.
      destruct (regex_match w1 unit_identifier_R) as [i|]; [|now left].
      right. exists "APT"%string, i. auto.
    - apply String.eqb_neq in E.
      destruct (regex_match w0 unit_R) as [u|]; [|now left].
      destruct (regex_match w1 unit_identifier_R) as [i|]; [|now left].
      right. exists u, i. auto. }
  split; [|exact Htwo].
  split.
  - intros Hr Hlen.
    destruct words as [|w0 [|w1 [|w2 ws]]]; try (unfold len in Hlen; simpl in Hlen; lia).
    destruct (Htwo w0 w1 eq_refl) as [Hn|(u & i & _ & _ & Hs)]; congruence.
  - intros Hlen. unfold __chomp_unit__.
    destruct (len words =? 2) eqn:E; [apply Z.eqb_eq in E; contradiction | reflexivity].
Qed.

Lemma chomp_unit_cases_witness :
  __chomp_unit__ ["APT"]%string = Raise AssertionError
  ∧ __chomp_unit__ ["#"; "7"]%string = Ok [mkParseStep "unit" "APT 7"]
  ∧ __chomp_unit__ ["TRLR"; "105"]%string = Ok [mkParseStep "unit" "TRLR 105"]
  ∧ __chomp_unit__ ["DALLAS"; "TX"]%string = Ok [].
Proof.
  split.
  - apply (chomp_unit_cases ["APT"]%string). unfold len. simpl. lia.
  - destruct (chomp_unit_cases ["#"; "7"]%string) as [_ H1].
    destruct (H1 "#"%string "7"%string eq_refl) as [Hn|(u & i & _ & _ & Hs)].
    + vm_compute in Hn. discriminate.
    + repeat split; reflexivity.
Defined.

(** X13.  The unit step of the pipeline, [chomp_n(2, __chomp_unit__)], on a
    cursor with at least two tokens left: it never raises and always
    consumes two tokens, whether or not they form a unit; when they do not,
    the two tokens give no result. *)
Theorem unit_step_consumes_two `{Collaborators} (z : Zipper string ParseStep)
    (ex_types : list ex_type) (h : heap) :
  0 <= state (leftover z) →
  state (leftover z) + 2 <= len (data (leftover z)) →
  ∃ z' steps, chomp_n z 2 __chomp_unit__ ex_types h = (Ok z', h ++ [false])
    ∧ data (leftover z') = data (leftover z)
    ∧ state (leftover z') = state (leftover z) + 2
    ∧ yields z' (h ++ [false]) = yields z (h ++ [false]) ++ steps
    ∧ (steps = [] ∨ ∃ v, steps = [mkParseStep "unit" v]).
Proof.
  intros Hs Hle.
  assert (Hblock : ∃ w0 w1, py_slice (data (leftover z)) (state (leftover z))
                              (state (leftover z) + 2) = [w0; w1]).
  { rewrite py_slice_block by lia.
    remember (drop (Z.to_nat (state (leftover z))) (data (leftover z))) as l eqn:El.
    assert (Hl : (2 <= length l)%nat).
    { subst l. rewrite length_drop. unfold len in Hle. lia. }
    destruct l as [|w0 [|w1 l]]; simpl in Hl; try lia. now exists w0, w1. }
  destruct Hblock as (w0 & w1 & Hblock).
  assert (Hrule : ∃ steps, __chomp_unit__ [w0; w1] = Ok steps
                           ∧ (steps = [] ∨ ∃ v, steps = [mkParseStep "unit" v])).
  { unfold __chomp_unit__. simpl.
    destruct (if String.eqb w0 "#" then _ else _) as [u|];
      destruct (regex_match w1 unit_identifier_R) as [i|]; eauto. }
  destruct Hrule as (steps & Hrule & Hshape).
  unfold chomp_n, try_except, bind, lift. rewrite Hblock, Hrule.
  unfold advance.
  destruct (len (data (leftover z)) <? state (leftover z) + 2) eqn:E;
    [apply Z.ltb_lt in E; lia|].
  destruct (yields_merged z (mkInput (data (leftover z)) (state (leftover z) + 2)) steps h)
    as (z' & Hm & Hl & Hy).
  rewrite Hm. exists z', steps. rewrite Hl. auto.
Qed.

(** "DALLAS TX" is not a unit: the step consumes both words and yields
    nothing for them. *)
Lemma unit_step_consumes_two_witness :
  ∃ z', chomp_n (new_Zipper (input ["DALLAS"; "TX"; "APT"; "5"]%string)) 2 __chomp_unit__
          __ex_types__ []
        = (Ok z', [false])
    ∧ state (leftover z') = 2
    ∧ yields z' [false] = [].
Proof.
  destruct (unit_step_consumes_two
              (new_Zipper (input ["DALLAS"; "TX"; "APT"; "5"]%string)) __ex_types__ [])
    as (z' & steps & Hrun & _ & Hst & Hy & _); [simpl; lia | unfold len; simpl; lia|].
  exists z'. split; [exact Hrun|]. split; [exact Hst|].
  injection Hrun as <-. reflexivity.
Defined.

(** ** Collecting the results *)

Lemma str_split_from_nil (s cur : string) :
  str_split_from cur s = [] ↔ cur = ""%string ∧ chars_all is_space s = true.
Proof.
  revert cur. induction s as [|c s IH]; intros cur; simpl.
  - destruct (String.eqb cur "") eqn:E.
    + apply String.eqb_eq in E. tauto.
    + apply String.eqb_neq in E. split; [discriminate | tauto].
  - destruct (is_space c) eqn:Esp; simpl.
    + destruct (String.eqb cur "") eqn:E.
      * apply String.eqb_eq in E. rewrite IH. tauto.
      * apply String.eqb_neq in E. split; [discriminate | tauto].
    + rewrite IH. split; [|intros [_ Hf]; discriminate].
      intros [Hcur _]. destruct cur; discriminate.
Qed.

(** X14.  [str_to_opt] turns the missing value, the empty string and every
    string of whitespace only into the missing value, and returns every
    other string as it is. *)
Theorem str_to_opt_blank (s : string) :
  str_to_opt None = None
  ∧ str_to_opt (Some s) = if chars_all is_space s then None else Some s.
Proof.
  split; [reflexivity|]. unfold str_to_opt, str_split.
  destruct (chars_all is_space s) eqn:E.
  - assert (Hn : str_split_from "" s = []) by (apply str_split_from_nil; auto).
    now rewrite Hn.
  - destruct (str_split_from "" s) as [|t ts] eqn:Hs.
    + apply str_split_from_nil in Hs as [_ Hs]. congruence.
    + reflexivity.
Qed.

Section Buckets.
Context `{Collaborators}.

Lemma fill_buckets_lookup (steps : list ParseStep) (d d' : gmap string (list string))
    (f : string) (vs : list string) :
  fill_buckets d steps = Ok d' → f ≠ "junk"%string → d !! f = Some vs →
  d' !! f = Some (vs ++ map value (filter (fun p_r => label p_r = f) steps)).
Proof.
  revert d vs. induction steps as [|p_r steps IH]; intros d vs Hfill Hf Hd; simpl in Hfill.
  - injection Hfill as <-. now rewrite app_nil_r.
  - destruct (String.eqb (label p_r) "junk") eqn:Ej.
    + apply String.eqb_eq in Ej. rewrite filter_cons_False by congruence. eauto.
    + destruct (d !! label p_r) as [ws|] eqn:E; [|discriminate].
      destruct (decide (label p_r = f)) as [Heq|Hne].
      * rewrite filter_cons_True by done. simpl.
        rewrite (IH _ (vs ++ [value p_r]) Hfill Hf).
        -- now rewrite <- app_assoc.
        -- rewrite <- Heq, lookup_insert_eq. congruence.
      * rewrite filter_cons_False by done.
        apply (IH _ vs Hfill Hf). now rewrite lookup_insert_ne.
Qed.

Lemma fill_buckets_total (steps : list ParseStep) (d : gmap string (list string)) :
  Forall (fun p_r => label p_r = "junk"%string ∨ is_Some (d !! label p_r)) steps →
  ∃ d', fill_buckets d steps = Ok d' ∧ ∀ k, is_Some (d' !! k) ↔ is_Some (d !! k).
Proof.
  revert d. induction steps as [|p_r steps IH]; intros d Hall; simpl.
  - eauto.
  - apply Forall_cons in Hall as [Hp Hall].
    destruct (String.eqb (label p_r) "junk") eqn:Ej; [now apply IH|].
    apply String.eqb_neq in Ej. destruct Hp as [Hp|[ws Hws]]; [contradiction|].
    rewrite Hws.
    assert (Hkeys : ∀ k, is_Some (<[label p_r := ws ++ [value p_r]]> d !! k)
                         ↔ is_Some (d !! k)).
    { intros k. destruct (decide (label p_r = k)) as [<-|Hne].
      - rewrite lookup_insert_eq, Hws. split; eauto.
      - now rewrite lookup_insert_ne. }
    destruct (IH (<[label p_r := ws ++ [value p_r]]> d)) as (d' & Hd' & Hk').
    + eapply Forall_impl; [exact Hall|]. intros q [Hq|Hq]; [now left | right].
      now apply Hkeys.
    + exists d'. split; [exact Hd'|]. intros k. now rewrite Hk', Hkeys.
Qed.

Lemma fill_buckets_unknown (pre post : list ParseStep) (p_r : ParseStep)
    (d : gmap string (list string)) :
  Forall (fun q => label q = "junk"%string ∨ is_Some (d !! label q)) pre →
  label p_r ≠ "junk"%string → d !! label p_r = None →
  fill_buckets d (pre ++ p_r :: post) = Raise (KeyError (label p_r)).
Proof.
  revert d. induction pre as [|q pre IH]; intros d Hall Hj Hnone; simpl.
  - apply String.eqb_neq in Hj. now rewrite Hj, Hnone.
  - apply Forall_cons in Hall as [Hq Hall].
    destruct (String.eqb (label q) "junk") eqn:Ej; [now apply IH|].
    apply String.eqb_neq in Ej. destruct Hq as [Hq|[ws Hws]]; [contradiction|].
    rewrite Hws. apply IH.
    + eapply Forall_impl; [exact Hall|]. intros r [Hr|Hr]; [now left | right].
      destruct (decide (label q = label r)) as [->|Hne].
      * rewrite lookup_insert_eq. eauto.
      * now rewrite lookup_insert_ne.
    + exact Hj.
    + rewrite lookup_insert_ne; [exact Hnone|]. intros Heq. rewrite Heq in Hws. congruence.
Qed.

Lemma empty_buckets_lookup (f : string) :
  (f ∈ grammar_labels → empty_buckets !! f = Some [])
  ∧ (f ∉ grammar_labels → empty_buckets !! f = None).
Proof.
  unfold empty_buckets, grammar_labels. split.
  - rewrite !elem_of_cons, elem_of_nil.
    intros [->|[->|[->|[->|[->|[->|[->|[->|[]]]]]]]]]; vm_compute; reflexivity.
  - intros Hn. apply not_elem_of_list_to_map_1. simpl.
    intros Hin. apply Hn. rewrite !elem_of_cons, elem_of_nil in *. tauto.
Qed.
End Buckets.

(** X15.  The buckets of [__collect_results__].  When every step carries one
    of the eight field labels or "junk", the buckets are filled without
    error, the junk steps are dropped, and the bucket of each field holds
    the values of the steps with that label, in the order of the steps.
    The first step with any other label raises [KeyError] with that
    label. *)
Theorem fill_buckets_collects `{Collaborators} (steps : list ParseStep) :
  (Forall (fun p_r => label p_r = "junk"%string ∨ label p_r ∈ grammar_labels) steps →
   ∃ d, fill_buckets empty_buckets steps = Ok d
        ∧ ∀ f, f ∈ grammar_labels →
               d !! f = Some (map value (filter (fun p_r => label p_r = f) steps)))
  ∧ (∀ pre p_r post,
       steps = pre ++ p_r :: post →
       Forall (fun q => label q = "junk"%string ∨ label q ∈ grammar_labels) pre →
       label p_r ≠ "junk"%string → label p_r ∉ grammar_labels →
       fill_buckets empty_buckets steps = Raise (KeyError (label p_r))).
Proof.
  assert (Hkeys : ∀ l, Forall (fun q => label q = "junk"%string ∨ label q ∈ grammar_labels) l →
            Forall (fun q => label q = "junk"%string ∨ is_Some (empty_buckets !! label q)) l).
  { intros l Hl. eapply Forall_impl; [exact Hl|]. intros q [Hq|Hq]; [now left | right].
    rewrite (proj1 (empty_buckets_lookup (label q)) Hq). eauto. }
  split.
  - intros Hall. destruct (fill_buckets_total steps empty_buckets (Hkeys _ Hall)) as (d & Hd & _).
    exists d. split; [exact Hd|]. intros f Hf.
    apply (fill_buckets_lookup steps empty_buckets d f [] Hd).
    + intros ->. unfold grammar_labels in Hf. rewrite !elem_of_cons, elem_of_nil in Hf.
      repeat (destruct Hf as [Hf|Hf]; [discriminate|]). exact Hf.
    + now apply empty_buckets_lookup.
  - intros pre p_r post -> Hpre Hj Hn.
    apply fill_buckets_unknown; [now apply Hkeys | exact Hj | now apply empty_buckets_lookup].
Qed.

Lemma fill_buckets_collects_witness :
  let steps := [ mkParseStep "st_name" "OLD"; mkParseStep "junk" "X";
                 mkParseStep "city" "RED"; mkParseStep "st_name" "MILL" ] in
  (∃ d, fill_buckets empty_buckets steps = Ok d
        ∧ d !! "st_name"%string = Some ["OLD"; "MILL"]%string
        ∧ d !! "city"%string = Some ["RED"]%string
        ∧ d !! "unit"%string = Some [])
  ∧ fill_buckets empty_buckets (steps ++ [mkParseStep "county" "X"])
    = Raise (KeyError "county").
Proof.
  intros steps. split.
  - destruct (fill_buckets_collects steps) as [Hok _].
    destruct Hok as (d & Hd & Hlook).
    + unfold steps, grammar_labels. repeat constructor; simpl; rewrite ?elem_of_cons; tauto.
    + exists d. split; [exact Hd|].
      rewrite !Hlook by (unfold grammar_labels; rewrite !elem_of_cons; tauto).
      repeat split.
  - destruct (fill_buckets_collects (steps ++ [mkParseStep "county" "X"])) as [_ Hbad].
    apply (Hbad steps (mkParseStep "county" "X") []); [reflexivity | | discriminate |].
    + unfold steps, grammar_labels. repeat constructor; simpl; rewrite ?elem_of_cons; tauto.
    + unfold grammar_labels. simpl. rewrite !elem_of_cons, elem_of_nil.
      intros Hin. repeat (destruct Hin as [Hin|Hin]; [discriminate|]). exact Hin.
Defined.

(** ** The parser and its blank parser *)

(** X16.  Known cities never change a parse that succeeds without them: if
    the parser built with no known city returns an address for a string,
    the parser built with any list of known cities returns the same address
    (it tries its blank parser first and keeps what that one returns). *)
Theorem known_cities_keep_naive_parse `{Collaborators} (known_cities : list string)
    (_s : string) (checked : bool) (a : RawAddress) :
  Parser_call (Parser_init []) _s checked = Ok a →
  Parser_call (Parser_init known_cities) _s checked = Ok a.
Proof.
  intros Hnaive. unfold Parser_init at 1.
  destruct (filter (fun c => c ≠ ""%string) known_cities) as [|c cs] eqn:E.
  - exact Hnaive.
  - change (Parser_init []) with (Parser_new None []) in Hnaive.
    cbn [Parser_call blank_parse Parser_new] in *. now rewrite Hnaive.
Qed.

(** "ELM" as a known city would stop the street name at once, but the blank
    parser has already parsed the address. *)
Lemma known_cities_keep_naive_parse_witness :
  fields (Parser_call (Parser_init ["Elm"]%string) "50 Elm St Springfield OH 12123" true)
  = fields (Parser_call (Parser_init []) "50 Elm St Springfield OH 12123" true).
Proof.
  destruct (is_Ok_inv (Parser_call (Parser_init []) "50 Elm St Springfield OH 12123" true))
    as [a Ha]; [vm_compute; reflexivity|].
  rewrite (known_cities_keep_naive_parse ["Elm"]%string _ true a Ha).
  now rewrite Ha.
Defined.

(** ** The batch *)

Section BatchCount.
Context `{Collaborators}.

Lemma pass1_count (p : Parser) (adds errs errs' : list string) (cities cities' : gset string)
    (ys : list RawAddress) :
  pass1 p adds errs cities = (ys, Ok (errs', cities')) →
  (length ys + length errs' = length adds + length errs)%nat
  ∧ ∃ more, errs' = errs ++ more ∧ more ⊆ adds
            ∧ Forall (fun add => ∃ e, Parser_call p add true = Raise e ∧ deferred e = true) more.
Proof.
  revert errs cities ys. induction adds as [|add adds IH]; intros errs cities ys; simpl.
  - intros [= <- <- <-]. split; [simpl; lia|]. exists []. rewrite app_nil_r.
    split; [done|]. split; [done | constructor].
  - destruct (Parser_call p add true) as [a|e] eqn:Ecall.
    + destruct (pass1 p adds errs _) as [ys' r] eqn:Erec.
      intros [= <- ->]. destruct (IH _ _ _ Erec) as (Hc & more & -> & Hsub & Hall).
      split; [simpl; lia|]. exists more. split; [done|]. split; [|done].
      now apply list_subseteq_cons.
    + assert (Hdef : deferred e = true →
                pass1 p adds (errs ++ [add]) cities = (ys, Ok (errs', cities')) →
                (length ys + length errs' = S (length adds) + length errs)%nat
                ∧ ∃ more, errs' = errs ++ more ∧ more ⊆ add :: adds
                   ∧ Forall (fun add => ∃ e, Parser_call p add true = Raise e
                                             ∧ deferred e = true) more).
      { intros Hd Hrec. destruct (IH _ _ _ Hrec) as (Hc & more & -> & Hsub & Hall).
        rewrite !length_app in *. simpl in *. split; [lia|].
        exists (add :: more). rewrite <- app_assoc. split; [done|]. split.
        - intros x [->|Hx]%elem_of_cons; [apply list_elem_of_here|].
          apply list_elem_of_further. now apply Hsub.
        - constructor; [eauto | done]. }
      unfold deferred in Hdef.
      destruct (isinstance e EndOfInputError_t); [now apply Hdef|].
      destruct (isinstance e ParseError_t); [now apply Hdef | discriminate].
Qed.

Lemma pass2_count (p : Parser) (report_error : exn → string → result unit)
    (errs : list string) :
  raised (pass2 p report_error errs) = None →
  (length (yielded (pass2 p report_error errs))
   + length (reported (pass2 p report_error errs)) = length errs)%nat
  ∧ Forall (fun '(e, add) => isinstance e ParseError_t = true ∧ add ∈ errs
                             ∧ Parser_call p add true = Raise e)
      (reported (pass2 p report_error errs)).
Proof.
  induction errs as [|add errs IH]; simpl.
  - intros _. split; [reflexivity | constructor].
  - destruct (Parser_call p add true) as [a|e] eqn:Ecall; simpl.
    + intros Hr. destruct (IH Hr) as [Hc Hall]. split; [lia|].
      eapply Forall_impl; [exact Hall|]. intros [e x] (H1 & H2 & H3).
      repeat split; [done | now apply list_elem_of_further | done].
    + destruct (isinstance e ParseError_t) eqn:Ei; [|discriminate].
      destruct (report_error e add); simpl; [|discriminate].
      intros Hr. destruct (IH Hr) as [Hc Hall]. split; [lia|].
      constructor.
      * repeat split; [done | apply list_elem_of_here | done].
      * eapply Forall_impl; [exact Hall|]. intros [e' x] (H1 & H2 & H3).
        repeat split; [done | now apply list_elem_of_further | done].
Qed.
End BatchCount.

(** X17.  A batch that runs to its end accounts for every input exactly
    once: the number of yielded addresses plus the number of reported
    failures is the number of inputs.  Every report carries a [ParseError]
    (or subclass) and one of the inputs. *)
Theorem smart_batch_accounts_for_inputs `{Collaborators} (p : Parser) (adds : list string)
    (report_error : exn → string → result unit) :
  raised (smart_batch p adds report_error) = None →
  (length (yielded (smart_batch p adds report_error))
   + length (reported (smart_batch p adds report_error)) = length adds)%nat
  ∧ Forall (fun '(e, add) => isinstance e ParseError_t = true ∧ add ∈ adds)
      (reported (smart_batch p adds report_error)).
Proof.
  unfold smart_batch.
  destruct (pass1 p adds [] ∅) as [ys [[errs cities]|e]] eqn:E1; simpl; [|discriminate].
  intros Hr. destruct (pass1_count _ _ _ _ _ _ _ E1) as (Hc1 & more & -> & Hsub & _).
  destruct (pass2_count _ _ _ Hr) as [Hc2 Hall].
  simpl in *. rewrite length_app. split; [lia|].
  eapply Forall_impl; [exact Hall|]. intros [e x] (H1 & H2 & _). split; [done|].
  now apply Hsub.
Qed.

(** The batch of the specification with a third address that no pass
    parses: two results, one report. *)
Lemma smart_batch_accounts_for_inputs_witness :
  let adds := ["123 Main, Springfield OH 12123"; "50 Elm St Springfield OH 12123";
               "123 STRAIGHT AUSTIN TX"]%string in
  let b := smart_batch (Parser_init []) adds (fun _ _ => Ok tt) in
  (length (yielded b) + length (reported b) = 3)%nat
  ∧ map snd (reported b) = ["123 STRAIGHT AUSTIN TX"]%string.
Proof.
  intros adds b. split.
  - apply (smart_batch_accounts_for_inputs (Parser_init []) adds (fun _ _ => Ok tt)).
    vm_compute. reflexivity.
  - vm_compute. reflexivity.
Defined.

(** X20.  The first loop streams its results: what it has yielded stays
    yielded whatever comes later.  When no input of a prefix of the batch
    makes the parser raise an exception that the first loop lets through,
    the batch yields first the results of the inputs of that prefix that the
    parser parses, in input order; this holds also when a later input ends
    the batch with an exception. *)
Theorem batch_streams_first_pass `{Collaborators} (p : Parser) (pre post : list string)
    (report_error : exn → string → result unit) :
  pass1_completes p pre = true →
  (∃ ys2, yielded (smart_batch p (pre ++ post) report_error) = successes p pre ++ ys2)
  ∧ (length (successes p pre)
     <= length (yielded (smart_batch p (pre ++ post) report_error)))%nat.
Proof.
  intros Hc.
  destruct (pass1_completes_run p pre [] ∅ Hc) as (errs & cities & Hrun).
  assert (Hy : ∃ ys2, yielded (smart_batch p (pre ++ post) report_error)
                      = successes p pre ++ ys2).
  { unfold smart_batch. rewrite pass1_app, Hrun.
    destruct (pass1 p post errs cities) as [ys' [[errs' cities']|e]]; simpl.
    - rewrite <- app_assoc. eauto.
    - eauto. }
  split; [exact Hy|]. destruct Hy as [ys2 ->]. rewrite length_app. lia.
Qed.

(** The first input parses, the second ends the batch with the
    [AssertionError] of the unit rule: the result of the first has been
    yielded. *)
Lemma batch_streams_first_pass_witness :
  let pre := ["50 Elm St Springfield OH 12123"]%string in
  let post := ["123 MAIN ST APT"; "1 Elm St Springfield OH"]%string in
  pass1_completes (Parser_init []) pre = true
  ∧ raised (smart_batch (Parser_init []) (pre ++ post) (fun _ _ => Ok tt)) = Some AssertionError
  ∧ length (successes (Parser_init []) pre) = 1%nat
  ∧ (length (successes (Parser_init []) pre)
     <= length (yielded (smart_batch (Parser_init []) (pre ++ post) (fun _ _ => Ok tt))))%nat.
Proof.
  intros pre post.
  assert (Hc : pass1_completes (Parser_init []) pre = true) by (vm_compute; reflexivity).
  split; [exact Hc|]. split; [vm_compute; reflexivity|]. split; [vm_compute; reflexivity|].
  exact (proj2 (batch_streams_first_pass (Parser_init []) pre post (fun _ _ => Ok tt) Hc)).
Defined.

(** ** Normalisation and the hash sign *)

(** X18.  After [__tokenize__] no hash sign is left: each one has become the
    unit type "APT".  This holds as the city names are normalised in
    [__init__], and in a call whenever the known-city substitution adds no
    hash sign; the branch of [__chomp_unit__] for a bare "#" is then never
    taken. *)
Theorem tokenize_leaves_no_hash `{Collaborators} (s : string) :
  chars_all not_hash (__tokenize__ None s) = true
  ∧ (∀ pat, (∀ x, chars_all not_hash x = true →
                  chars_all not_hash (re_sub pat city_repl x) = true) →
            chars_all not_hash (__tokenize__ (Some pat) s) = true).
Proof.
  assert (Hcore : ∀ x, chars_all not_hash
                         (str_replace "APT APT" "APT" (str_replace "#" "APT " x)) = true).
  { intros x. unfold str_replace. apply str_replace_from_chars; [|reflexivity].
    now apply str_replace_hash. }
  split; [apply Hcore|]. intros pat Hsub. apply Hsub, Hcore.
Qed.

Lemma tokenize_leaves_no_hash_witness :
  __tokenize__ (Some (known_cities_R (Parser_init []))) "0 W Boston Blvd # 7  Detroit MI 48000"
  = "0 W BOSTON BLVD APT  7 DETROIT MI 48000"%string
  ∧ chars_all not_hash
      (__tokenize__ (Some (known_cities_R (Parser_init [])))
         "0 W Boston Blvd # 7  Detroit MI 48000") = true.
Proof.
  split; [reflexivity|].
  apply (proj2 (tokenize_leaves_no_hash "0 W Boston Blvd # 7  Detroit MI 48000")).
  intros x Hx. exact Hx.
Defined.

(** ** What a pipeline can yield and raise *)

Section OperatorInvariant.
Context {I O : Type} (P : O → Prop) (Er : exn → Prop).
Implicit Type z : Zipper I O.

Lemma list__all (r : Iter O) (h : heap) : iter_all P r → Forall P (fst (list_ r h)).
Proof.
  revert h. induction r as [l|g a IHa b IHb]; intros h Hall; simpl; [exact Hall|].
  destruct Hall as [Ha Hb]. destruct (spent h g); [constructor|].
  specialize (IHa h Ha). destruct (list_ a h) as [xs h1].
  specialize (IHb h1 Hb). destruct (list_ b h1) as [ys h2].
  simpl in *. now apply Forall_app.
Qed.

Lemma takewhile_list_inv (pred_arrow : I → result (list O)) (ex_types : list ex_type)
    (l : list I) (acc : Z * list O) :
  (∀ i, match pred_arrow i with Ok rs => Forall P rs | Raise e => Er e end) →
  0 <= fst acc → Forall P (snd acc) →
  match takewhile_list pred_arrow ex_types l acc with
  | Ok acc' => 0 <= fst acc' ∧ Forall P (snd acc')
  | Raise e => Er e ∧ caught ex_types e = false
  end.
Proof.
  intros Hrule. revert acc. induction l as [|i l IH]; intros acc Hn Hacc; simpl; [auto|].
  unfold takewhile_body. specialize (Hrule i).
  destruct (pred_arrow i) as [rs|e].
  - destruct (len rs =? 0); [auto|]. apply IH; simpl; [lia | now apply Forall_app].
  - destruct (caught ex_types e) eqn:Ec; auto.
Qed.

Lemma item_nonneg (c : GenericInput I) :
  0 <= state c → (∃ i, item c = Ok i) ∨ item c = Raise (EndOfInputError "").
Proof.
  intros Hs. unfold item.
  destruct (len (data c) <? state c + 1) eqn:E; [now right|].
  apply Z.ltb_ge in E. destruct (py_index_nonneg (data c) (state c)) as (t & _ & ->); [lia|].
  left. eauto.
Qed.

Lemma takewhile_keeps z (pred_arrow : I → result (list O)) (single : bool)
    (ex_types : list ex_type) (h : heap) :
  (∀ i, match pred_arrow i with Ok rs => Forall P rs | Raise e => Er e end) →
  0 <= state (leftover z) → iter_all P (results z) →
  keeps P (fun e => e = EndOfInputError "" ∨ (Er e ∧ caught ex_types e = false))
    (takewhile z pred_arrow single ex_types h).
Proof.
  intros Hrule Hs Hres. unfold keeps, takewhile, bind, lift.
  assert (Hloop : match (if single
                         then match item (leftover z) with
                              | Ok i => takewhile_list pred_arrow ex_types [i] (0, [])
                              | Raise e =>
                                  if caught ex_types e
                                  then takewhile_list pred_arrow ex_types [] (0, [])
                                  else Raise e
                              end
                         else takewhile_input (turns (leftover z)) pred_arrow ex_types
                                (leftover z) (0, [])) with
                  | Ok acc' => 0 <= fst acc' ∧ Forall P (snd acc')
                  | Raise e => e = EndOfInputError "" ∨ (Er e ∧ caught ex_types e = false)
                  end).
  { destruct single.
    - destruct (item_nonneg (leftover z) Hs) as [[i ->]| ->].
      + pose proof (takewhile_list_inv pred_arrow ex_types [i] (0, []) Hrule) as Hl.
        destruct (takewhile_list pred_arrow ex_types [i] (0, [])); [|right]; apply Hl;
          simpl; auto; lia.
      + destruct (caught ex_types (EndOfInputError "")); [|now left].
        simpl. split; [lia | constructor].
    - rewrite takewhile_input_list by exact Hs.
      pose proof (takewhile_list_inv pred_arrow ex_types (tokens_left (leftover z)) (0, [])
                    Hrule) as Hl.
      destruct (takewhile_list _ _ _ _); [|right]; apply Hl; simpl; auto; lia. }
  destruct (if single then _ else _) as [[k rs]|e]; [|exact Hloop].
  destruct Hloop as [Hk Hrs]. simpl in *. unfold advance.
  destruct (len (data (leftover z)) <? state (leftover z) + k); [now left|].
  simpl. split; [lia | auto].
Qed.

Lemma chomp_n_keeps z (n : Z) (list_func : list I → result (list O))
    (ex_types : list ex_type) (h : heap) :
  (∀ args, match list_func args with Ok rs => Forall P rs | Raise e => Er e end) →
  0 <= n → 0 <= state (leftover z) → iter_all P (results z) →
  keeps P (fun e => e = EndOfInputError "" ∨ (Er e ∧ caught ex_types e = false))
    (chomp_n z n list_func ex_types h).
Proof.
  intros Hrule Hn Hs Hres. unfold keeps, chomp_n, try_except, bind, lift.
  specialize (Hrule (py_slice (data (leftover z)) (state (leftover z))
                       (state (leftover z) + n))).
  destruct (list_func _) as [rs|e].
  - unfold advance.
    destruct (len (data (leftover z)) <? state (leftover z) + n).
    + destruct (caught ex_types (EndOfInputError "")); simpl; auto.
    + simpl. split; [lia | auto].
  - destruct (caught ex_types e) eqn:Ec; simpl; auto.
Qed.

Lemma reduce_keeps (E : exn → Prop) (funcs : list (@Apply.step I O)) :
  Forall (fun f => ∀ z h, 0 <= state (leftover z) → iter_all P (results z) → keeps P E (f z h))
    funcs →
  ∀ z h, 0 <= state (leftover z) → iter_all P (results z) →
         keeps P E (Apply.reduce funcs z h).
Proof.
  induction 1 as [|f funcs Hf Hfs IH]; intros z h Hs Hres.
  - unfold keeps. simpl. auto.
  - simpl. unfold bind. specialize (Hf z h Hs Hres). unfold keeps in Hf.
    destruct (f z h) as [[z'|e] h']; simpl in *; [|exact Hf].
    destruct Hf as [Hs' Hres']. now apply IH.
Qed.
End OperatorInvariant.

Lemma keeps_weaken {I O : Type} (P : O → Prop) (E E' : exn → Prop)
    (out : result (Zipper I O) * heap) :
  (∀ e, E e → E' e) → keeps P E out → keeps P E' out.
Proof. unfold keeps. destruct (fst out); auto. Qed.

Section PipelineInvariant.
Context `{Collaborators}.

Lemma arrow_parse_rule (a : AddressComponent) (s : string) :
  ac_label a ∈ grammar_labels →
  match arrow_parse a s with
  | Ok rs => Forall field_step rs
  | Raise e => e = ParseError s (ac_label a)
  end.
Proof.
  intros Hl. unfold arrow_parse. destruct (stops_on a s); [constructor|].
  destruct (regex_match s (compiled_pattern a)) as [m|].
  - apply Forall_cons_2; [exact Hl | constructor].
  - destruct (ac_optional a); [constructor | reflexivity].
Qed.

Lemma chomp_unit_rule (words : list string) :
  match __chomp_unit__ words with
  | Ok rs => Forall field_step rs
  | Raise e => e = AssertionError
  end.
Proof.
  unfold __chomp_unit__. destruct (len words =? 2) eqn:E; [|reflexivity].
  apply Z.eqb_eq in E.
  destruct words as [|w0 [|w1 [|w2 ws]]]; unfold len in E; simpl in E; try lia.
  simpl.
  destruct (if String.eqb w0 "#" then _ else _) as [u|];
    destruct (regex_match w1 unit_identifier_R) as [i|]; try constructor.
  - unfold field_step, grammar_labels. simpl. rewrite !elem_of_cons. tauto.
  - constructor.
Qed.

Lemma label_in (l : string) :
  l ∈ grammar_labels ↔
  l = "house_number"%string ∨ l = "st_name"%string ∨ l = "st_suffix"%string
  ∨ l = "st_NESW"%string ∨ l = "unit"%string ∨ l = "city"%string
  ∨ l = "us_state"%string ∨ l = "zip_code"%string.
Proof. unfold grammar_labels. rewrite !elem_of_cons, elem_of_nil. tauto. Qed.

(** A step that catches [ParseError] around an atom raises nothing but the
    end of the input. *)
Lemma guarded_atom_step (a : AddressComponent) (single : bool)
    (z : Zipper string ParseStep) (h : heap) :
  ac_label a ∈ grammar_labels →
  0 <= state (leftover z) → iter_all field_step (results z) →
  keeps field_step pipeline_error (takewhile z (arrow_parse a) single __ex_types__ h).
Proof.
  intros Hl Hs Hres.
  eapply keeps_weaken;
    [|apply (takewhile_keeps field_step (fun e => ∃ tok, e = ParseError tok (ac_label a)))].
  - intros e [->|[[tok ->] Hc]]; [now left | discriminate].
  - intros i. pose proof (arrow_parse_rule a i Hl) as Hr.
    destruct (arrow_parse a i); eauto.
  - exact Hs.
  - exact Hres.
Qed.

Lemma pipeline_steps_keep (blank : option Parser) (known_cities : list string) (s : string) :
  Forall (fun f => ∀ z h, 0 <= state (leftover z) → iter_all field_step (results z) →
                          keeps field_step pipeline_error (f z h))
    (pipeline (Parser_new blank known_cities) s).
Proof.
  assert (Hid : ∀ (z : Zipper string ParseStep) h,
            0 <= state (leftover z) → iter_all field_step (results z) →
            keeps field_step pipeline_error (Apply.identity z h)).
  { intros z h Hs Hres. unfold keeps. simpl. auto. }
  unfold pipeline, __hn_nesw__. rewrite <- app_comm_cons. simpl app.
  repeat apply Forall_cons_2; [..|constructor].
  - intros z h. apply guarded_atom_step. apply label_in. simpl. tauto.
  - intros z h. apply guarded_atom_step. apply label_in. simpl. tauto.
  - intros z h. apply guarded_atom_step. apply label_in. simpl. tauto.
  - intros z h. apply guarded_atom_step. apply label_in. simpl. tauto.
  - intros z h. apply guarded_atom_step. apply label_in. simpl. tauto.
  - destruct (truthy (regex_match s unit_R)); [|exact Hid].
    intros z h Hs Hres. unfold Apply.chomp_n.
    eapply keeps_weaken;
      [|apply (chomp_n_keeps field_step (fun e => e = AssertionError))].
    + intros e [->|[-> _]]; [now left | right; now left].
    + apply chomp_unit_rule.
    + lia.
    + exact Hs.
    + exact Hres.
  - intros z h Hs Hres. unfold Apply.takewhile.
    eapply keeps_weaken;
      [|apply (takewhile_keeps field_step (fun e => ∃ tok, e = ParseError tok "city"))].
    + intros e [->|[[tok ->] _]]; [now left | right; right; eauto].
    + intros i. cbn [city Parser_new]. unfold rbind.
      match goal with |- context [arrow_parse ?a i] =>
        pose proof (arrow_parse_rule a i) as Hr; destruct (arrow_parse a i) as [prs|e] end.
      * specialize (Hr ltac:(apply label_in; simpl; tauto)).
        apply Forall_map. eapply Forall_impl; [exact Hr|]. intros p_r Hp. exact Hp.
      * exists i. apply Hr. apply label_in. simpl. tauto.
    + exact Hs.
    + exact Hres.
  - intros z h Hs Hres. unfold Apply.consume_with, consume_with.
    eapply keeps_weaken;
      [|apply (takewhile_keeps field_step (fun e => ∃ tok, e = ParseError tok "us_state"))].
    + intros e [->|[[tok ->] _]]; [now left | right; right; eauto].
    + intros i. pose proof (arrow_parse_rule (new_AddressComponent "us_state" us_state_R) i) as Hr.
      unfold _US_STATE. destruct (arrow_parse _ i); [|exists i]; apply Hr; apply label_in;
        simpl; tauto.
    + exact Hs.
    + exact Hres.
  - destruct (last (str_split s)) as [w|]; [|exact Hid].
    destruct (truthy (regex_match w zip_code_R)); [|exact Hid].
    intros z h. apply guarded_atom_step. apply label_in. simpl. tauto.
Qed.
End PipelineInvariant.

Section CallErrorFacts.
Context `{Collaborators}.

Lemma check_required_outcome (_s : string) (d : gmap string (list string))
    (reqs : list string) :
  (∀ f, f ∈ reqs → is_Some (d !! f)) →
  check_required _s d reqs = Ok tt
  ∨ ∃ f, f ∈ reqs
         ∧ check_required _s d reqs = Raise (ParseError _s ("Could not identify " +:+ f)).
Proof.
  induction reqs as [|req reqs IH]; intros Hkeys; simpl; [now left|].
  destruct (Hkeys req (list_elem_of_here _ _)) as [vs Hvs]. rewrite Hvs.
  destruct vs as [|v vs].
  - right. exists req. split; [apply list_elem_of_here | reflexivity].
  - destruct IH as [Hok|(f & Hf & Hr)].
    + intros f Hf. apply Hkeys. now apply list_elem_of_further.
    + now left.
    + right. exists f. split; [now apply list_elem_of_further | exact Hr].
Qed.

Lemma collapse_optional_total (str_d : gmap string (option string)) (opts : list string) :
  (∀ o, o ∈ opts → is_Some (str_d !! o)) →
  ∃ str_d', collapse_optional str_d opts = Ok str_d'.
Proof.
  revert str_d. induction opts as [|opt opts IH]; intros str_d Hkeys; simpl; [eauto|].
  destruct (Hkeys opt (list_elem_of_here _ _)) as [v Hv]. rewrite Hv.
  apply IH. intros o Ho.
  destruct (decide (opt = o)) as [->|Hne].
  - rewrite lookup_insert_eq. eauto.
  - rewrite lookup_insert_ne by done. apply Hkeys. now apply list_elem_of_further.
Qed.

Lemma build_address_outcome (_s : string) (d : gmap string (list string)) (e : exn) :
  (∀ o, o ∈ optional → is_Some (d !! o)) →
  build_address _s d = Raise e → ∃ str_d, Address_from_dict str_d = Raise e.
Proof.
  intros Hkeys. unfold build_address, rbind.
  match goal with |- context [collapse_optional ?m optional] =>
    destruct (collapse_optional_total m optional) as [m' ->] end.
  - intros o Ho. rewrite lookup_fmap.
    destruct (decide ("unit"%string = o)) as [<-|Hne].
    + rewrite lookup_insert_eq. simpl. eauto.
    + rewrite lookup_insert_ne by done. destruct (Hkeys o Ho) as [vs ->]. simpl. eauto.
  - eauto.
Qed.

Lemma collect_results_outcome (_s : string) (steps : list ParseStep) (checked : bool)
    (e : exn) :
  (∀ f, f ∈ required → f ∈ grammar_labels) →
  (∀ f, f ∈ optional → f ∈ grammar_labels) →
  Forall field_step steps →
  __collect_results__ _s steps checked = Raise e →
  (checked = true ∧ ∃ f, f ∈ required ∧ e = ParseError _s ("Could not identify " +:+ f))
  ∨ ∃ str_d, Address_from_dict str_d = Raise e.
Proof.
  intros Hreq Hopt Hsteps. unfold __collect_results__, rbind.
  destruct (fill_buckets_total steps empty_buckets) as (d & -> & Hkeys).
  { eapply Forall_impl; [exact Hsteps|]. intros p_r Hp. right.
    rewrite (proj1 (empty_buckets_lookup (label p_r)) Hp). eauto. }
  assert (Hd : ∀ f, f ∈ grammar_labels → is_Some (d !! f)).
  { intros f Hf. apply Hkeys. rewrite (proj1 (empty_buckets_lookup f) Hf). eauto. }
  destruct checked.
  - destruct (check_required_outcome _s d required) as [->|(f & Hf & ->)]; [auto | |].
    + intros Hb. right. apply (build_address_outcome _s d e); auto.
    + intros [= <-]. left. eauto.
  - intros Hb. right. apply (build_address_outcome _s d e); auto.
Qed.

Lemma parse_with_outcome (blank : option Parser) (known_cities : list string)
    (_s : string) (checked : bool) (e : exn) :
  (∀ f, f ∈ required → f ∈ grammar_labels) →
  (∀ f, f ∈ optional → f ∈ grammar_labels) →
  parse_with (Parser_new blank known_cities) _s checked = Raise e →
  call_error _s checked e.
Proof.
  intros Hreq Hopt. unfold parse_with.
  match goal with |- context [Apply.reduce ?fs ?z0 []] =>
    pose proof (reduce_keeps field_step pipeline_error fs
                  (pipeline_steps_keep blank known_cities _) z0 []) as Hrun;
    destruct (Apply.reduce fs z0 []) as [[z|e0] h] end.
  - specialize (Hrun ltac:(simpl; lia) ltac:(simpl; constructor)).
    destruct Hrun as [_ Hres]. intros Hc.
    apply collect_results_outcome in Hc; [|done|done|now apply list__all].
    unfold call_error. tauto.
  - specialize (Hrun ltac:(simpl; lia) ltac:(simpl; constructor)).
    unfold keeps in Hrun. simpl in Hrun. unfold call_error.
    destruct Hrun as [->|[->|[tok [->| ->]]]]; intros [= <-]; tauto.
Qed.
End CallErrorFacts.

(** X19.  The exceptions of a call.  A parser built by [Parser] (with field
    names as required and optional components) raises, on any string,
    nothing but: [EndOfAddressError] with the reason "unknown: end of
    input"; the [AssertionError] of the unit rule; a [ParseError] with the
    reason "city" or "us_state" (the two atoms whose mismatch no step
    catches); in a checked call a [ParseError] naming a required field that
    was not identified; or what [Address.from_dict] raises.  The
    [ParseError]s carry the string that was given to the call. *)
Theorem Parser_call_errors `{Collaborators} (known_cities : list string) (_s : string)
    (checked : bool) (e : exn) :
  (∀ f, f ∈ required → f ∈ grammar_labels) →
  (∀ f, f ∈ optional → f ∈ grammar_labels) →
  Parser_call (Parser_init known_cities) _s checked = Raise e →
  call_error _s checked e.
Proof.
  intros Hreq Hopt. unfold Parser_init.
  destruct (filter (fun c => c ≠ ""%string) known_cities) as [|c cs].
  - apply parse_with_outcome; assumption.
  - change (Parser_call (Parser_new (Some (Parser_new None [])) (c :: cs)) _s checked)
      with (match parse_with (Parser_new None []) _s checked with
            | Ok a => Ok a
            | Raise _ => parse_with (Parser_new (Some (Parser_new None [])) (c :: cs))
                           _s checked
            end).
    destruct (parse_with (Parser_new None []) _s checked); [discriminate|].
    apply parse_with_outcome; assumption.
Qed.

Lemma Parser_call_errors_witness :
  call_error "123 MAIN ST APT" true AssertionError
  ∧ call_error "123 STRAIGHT AUSTIN TX" true
      (EndOfAddressError "123 STRAIGHT AUSTIN TX" "unknown: end of input")
  ∧ call_error "123 Dallas Houston TX" true
      (ParseError "123 Dallas Houston TX" "Could not identify st_name").
Proof.
  assert (Hsub : ∀ l : list string, (∀ f, f ∈ l → f ∈ l)) by auto.
  assert (Hreq : ∀ f, f ∈ required → f ∈ grammar_labels).
  { intros f. simpl. unfold grammar_labels. rewrite !elem_of_cons. tauto. }
  assert (Hopt : ∀ f, f ∈ optional → f ∈ grammar_labels).
  { intros f. simpl. unfold grammar_labels. rewrite !elem_of_cons. tauto. }
  split; [|split].
  - apply (Parser_call_errors [] "123 MAIN ST APT" true AssertionError Hreq Hopt).
    vm_compute. reflexivity.
  - apply (Parser_call_errors [] "123 STRAIGHT AUSTIN TX" true _ Hreq Hopt).
    vm_compute. reflexivity.
  - apply (Parser_call_errors ["Houston"; "Dallas"]%string "123 Dallas Houston TX" true _
             Hreq Hopt).
    vm_compute. reflexivity.
Defined.
